(** * gocrawler: a concurrent, depth-bounded web crawler

    Shallow embedding of [gocrawler.go] and the properties of its
    specification.

    The program has two layers.  [fetcher.Fetch] downloads one page, walks
    its HTML tokens and collects the links; [Crawl] and
    the method [Crawl] of [crawlHistory] run one goroutine per newly seen URL,
    deduplicate through a map handed around in a one-slot channel, and
    join the goroutines through completion channels.

    Goroutines are modelled by an interleaving semantics: the state holds
    the pool of tasks, each with its program point, and one step runs one
    task up to its next access to shared memory or to a channel.  A call
    of [Fetch] is itself a sequence of such steps, so that calls of
    concurrent tasks interleave; the read and the write of
    [countCrawled++] are two steps.  A read or a write of a variable is
    one step, and so is a read or a write of an entry of the history map,
    which only the holder of the map makes.  A write to the map [f] of
    the fetcher, which the goroutines make without synchronisation, is two
    steps, its beginning and its completion: when two such writes overlap
    the Go runtime stops the program ([fatal]).  A send on an unbuffered
    channel is one step
    together with the receive it meets; a send on a buffered channel
    blocks while the buffer is full, a receive while it is empty.

    Go's [int] is taken as 64-bit.  The program computes on ints in three
    places: [depth-1] (only evaluated when [depth > 0]), [count++] (at most
    [len(urls)] times from 0) and [countCrawled++].  The first two cannot
    overflow an int and are written on [Z] directly; the third is written
    with its wrap-around. *)

From stdpp Require Import gmap strings list fin_maps.
From Stdlib Require Import ZArith Lia.

Open Scope Z_scope.

(* ===================================================================== *)
(** * Strings: the functions of package [strings] the program calls *)
(* ===================================================================== *)

(** [strings.HasSuffix(s, suffix)], as the Go library defines it:
    [len(s) >= len(suffix) && s[len(s)-len(suffix):] == suffix]. *)
Definition HasSuffix (s suffix : string) : bool :=
  (String.length suffix <=? String.length s)%nat &&
  String.eqb
    (String.substring (String.length s - String.length suffix)
                      (String.length suffix) s)
    suffix.

(** [strings.Index(s, substr)]: the index of the first instance of
    [substr] in [s], or -1. *)
Definition Index (s substr : string) : Z :=
  match String.index 0 substr s with
  | Some n => Z.of_nat n
  | None => -1
  end.

(** Go's [int], 64-bit two's complement. *)
Definition int_wrap (z : Z) : Z := (z + 2 ^ 63) mod 2 ^ 64 - 2 ^ 63.

(** [x++] on an [int]. *)
Definition int_incr (x : Z) : Z := int_wrap (x + 1).

(* ===================================================================== *)
(** * The fetcher: [isFile], [getHref], [fetcher.Fetch] *)
(* ===================================================================== *)

(** [html.Token], as far as [Fetch] looks at it.  The tokenizer's
    [ErrorToken] (end of input) is the end of the token list. *)
Inductive Token :=
| StartTagToken (Data : string) (Attr : list (string * string))
| TextToken (text : string)  (* [text] is what [Token().String()] gives *)
| OtherToken.                (* end tag, self-closing tag, comment, doctype *)

(** The loop of [getHref]: the last [href] attribute wins. *)
Fixpoint getHref_loop (attrs : list (string * string)) (ok : bool) (href : string)
  : bool * string :=
  match attrs with
  | [] => (ok, href)
  | (Key, Val) :: attrs' =>
      if String.eqb Key "href" then getHref_loop attrs' true Val
      else getHref_loop attrs' ok href
  end.

Definition getHref (Attr : list (string * string)) : bool * string :=
  getHref_loop Attr false EmptyString.

Definition files : list string :=
  [".pdf"; ".zip"; ".jpeg"; ".jpg"; ".gif"; ".png"; ".doc"; ".docx"; ".rar";
   ".gzip"; ".tar"; ".mp3"; ".wav"; ".mpg"; ".mpeg"; ".swf"; ".exe"; ".bin"]%string.

Definition isFile (url : string) : bool :=
  existsb (fun file => HasSuffix url file) files.

(** [type result struct { title string; urls []string }] *)
Record result := mkResult { title : string; urls : list string }.

(** What a call of [Fetch] returns: [(urls []string, err error)].  [None]
    is Go's [nil], for the slice and for the error. *)
Definition FetchRet : Type := option (list string) * option string.

(** The memory shared by all calls of [fetcher.Fetch]: the package
    variable [countCrawled], the map [f] the method is called on (a Go map
    is a reference, so every call writes the same map) and the standard
    output. *)
Record Shared := mkShared {
  countCrawled : Z;
  f : gmap string result;
  stdout : list string
}.

(** Program points of one call of [fetcher.Fetch].  A step runs from one
    access to shared memory to the next.

    A write to a Go map is not atomic, and the map [f] is written by every
    call without any synchronisation (lines 195 and 214; [Fetch] is called
    at line 79, outside the section guarded by [mapAccess]).  A write
    [f[url] = ...] therefore takes two steps: it begins, and it completes,
    which is when the entry is in the map.  Between the two the call is
    inside the write. *)
Inductive FetchPC :=
| AtGet                  (* line 157: http.Get(url) *)
| AtNext                 (* line 177: z.Next() *)
| AtAbort                (* line 194: the counter was above the maximum *)
| AtPrint (u : string)   (* line 198: fmt.Print(".") *)
| AtAccept (u : string)  (* line 200: isFile, append, read countCrawled *)
| AtIncr (v : Z)         (* line 202: write countCrawled *)
| AtStoreAbort           (* line 195: inside the write f[url] = ... *)
| AtStoreEnd.            (* line 214: inside the write f[url] = ... *)

(** The local variables of one call of [fetcher.Fetch]. *)
Record Frame := mkFrame {
  arg_url : string;
  fpc : FetchPC;
  z : list Token;
  ftitle : string;
  furls : list string
}.

Definition at_pc (fr : Frame) (p : FetchPC) : Frame :=
  mkFrame (arg_url fr) p (z fr) (ftitle fr) (furls fr).

(** The memory once a write [f[url] = &result{title, urls}] that no other
    write has overlapped is complete. *)
Definition store_result (sh : Shared) (fr : Frame) : Shared :=
  mkShared (countCrawled sh)
           (<[arg_url fr := mkResult (ftitle fr) (furls fr)]> (f sh))
           (stdout sh).

Definition fetch_error : option string := Some "error"%string.

Section FETCH.

(** [*maxURLS], fixed once the flags are parsed. *)
Variable maxURLS : Z.

(** [http.Get] followed by the tokenizer: the tokens of the page at a URL,
    or [None] when the request fails. *)
Variable web : string -> option (list Token).

Definition fetch_begin (url : string) : Frame := mkFrame url AtGet [] EmptyString [].

(** One pass of the loop at lines 176-211, from [z.Next()] up to the next
    access to shared memory. *)
Definition fetch_next (sh : Shared) (fr : Frame) : Shared * (Frame + FetchRet) :=
  match z fr with
  | [] =>
      (* ErrorToken: the loop ends and the write of line 214 begins *)
      (sh, inl (at_pc fr AtStoreEnd))
  | StartTagToken Data Attr :: rest =>
      if String.eqb Data "a" then
        let (ok, u) := getHref Attr in
        if negb ok then
          (sh, inl (mkFrame (arg_url fr) AtNext rest (ftitle fr) (furls fr)))
        else if Index u "http" =? 0 then
          if countCrawled sh >? maxURLS then
            (sh, inl (mkFrame (arg_url fr) AtAbort rest (ftitle fr) (furls fr)))
          else
            (sh, inl (mkFrame (arg_url fr) (AtPrint u) rest (ftitle fr) (furls fr)))
        else
          (sh, inl (mkFrame (arg_url fr) AtNext rest (ftitle fr) (furls fr)))
      else if String.eqb Data "title" then
        (* a second z.Next(): the token after the tag is consumed *)
        match rest with
        | TextToken text :: rest' =>
            (sh, inl (mkFrame (arg_url fr) AtNext rest' text (furls fr)))
        | _ :: rest' =>
            (sh, inl (mkFrame (arg_url fr) AtNext rest' (ftitle fr) (furls fr)))
        | [] =>
            (sh, inl (mkFrame (arg_url fr) AtNext [] (ftitle fr) (furls fr)))
        end
      else
        (sh, inl (mkFrame (arg_url fr) AtNext rest (ftitle fr) (furls fr)))
  | _ :: rest =>
      (sh, inl (mkFrame (arg_url fr) AtNext rest (ftitle fr) (furls fr)))
  end.

(** One step of a call of [fetcher.Fetch]. *)
Definition fetch_step (sh : Shared) (fr : Frame) : Shared * (Frame + FetchRet) :=
  match fpc fr with
  | AtGet =>
      match web (arg_url fr) with
      | None => (sh, inr (None, fetch_error))
      | Some body => (sh, inl (mkFrame (arg_url fr) AtNext body EmptyString []))
      end
  | AtNext => fetch_next sh fr
  | AtAbort =>
      (* the write of line 195 begins *)
      (sh, inl (at_pc fr AtStoreAbort))
  | AtStoreAbort =>
      (* the write is complete; line 196 *)
      (store_result sh fr, inr (None, fetch_error))
  | AtStoreEnd =>
      (* the write is complete; line 216 *)
      (store_result sh fr, inr (Some (furls fr), None))
  | AtPrint u =>
      (mkShared (countCrawled sh) (f sh) (stdout sh ++ ["."%string]),
       inl (at_pc fr (AtAccept u)))
  | AtAccept u =>
      if isFile u then (sh, inl (at_pc fr AtNext))
      else
        (sh, inl (mkFrame (arg_url fr) (AtIncr (countCrawled sh)) (z fr)
                          (ftitle fr) (furls fr ++ [u])))
  | AtIncr v =>
      (mkShared (int_incr v) (f sh) (stdout sh), inl (at_pc fr AtNext))
  end.

(** A call of [Fetch] run without interference, for at most [fuel] steps. *)
Fixpoint fetch_run (fuel : nat) (sh : Shared) (fr : Frame)
  : option (Shared * FetchRet) :=
  match fuel with
  | O => None
  | S fuel' =>
      match fetch_step sh fr with
      | (sh', inr r) => Some (sh', r)
      | (sh', inl fr') => fetch_run fuel' sh' fr'
      end
  end.

Definition Fetch (fuel : nat) (sh : Shared) (url : string)
  : option (Shared * FetchRet) :=
  fetch_run fuel sh (fetch_begin url).

(** Fuel that is enough for a frame: every token costs at most four
    steps, and the write at the end two. *)
Definition fetch_fuel (fr : Frame) : nat :=
  match fpc fr with
  | AtGet =>
      match web (arg_url fr) with
      | None => 1
      | Some body => 4 * List.length body + 3
      end
  | AtNext => 4 * List.length (z fr) + 2
  | AtAbort => 4 * List.length (z fr) + 2
  | AtPrint _ => 4 * List.length (z fr) + 5
  | AtAccept _ => 4 * List.length (z fr) + 4
  | AtIncr _ => 4 * List.length (z fr) + 3
  | AtStoreAbort | AtStoreEnd => 1
  end%nat.

End FETCH.

(** The loop at lines 176-211 run over a whole page without the cap: the
    title at the end of the page and, in the order of the page, the links
    the loop would print a dot for (the [href]s that begin with "http",
    files included). *)
Fixpoint page_scan (toks : list Token) (title : string) : string * list string :=
  match toks with
  | [] => (title, [])
  | StartTagToken Data Attr :: rest =>
      if String.eqb Data "a" then
        let (ok, u) := getHref Attr in
        if negb ok then page_scan rest title
        else if Index u "http" =? 0 then
          let (title', us) := page_scan rest title in (title', u :: us)
        else page_scan rest title
      else if String.eqb Data "title" then
        match rest with
        | TextToken text :: rest' => page_scan rest' text
        | _ :: rest' => page_scan rest' title
        | [] => (title, [])
        end
      else page_scan rest title
  | _ :: rest => page_scan rest title
  end.

Definition not_file (u : string) : bool := negb (isFile u).

(** What an undisturbed, uncapped pass over a page collects: the links
    that begin with "http" and are no files, and the title. *)
Definition page_links (body : list Token) : list string :=
  filter not_file (page_scan body EmptyString).2.

Definition page_title (body : list Token) : string :=
  (page_scan body EmptyString).1.

(** The links a call has still to handle: the one it is looking at and
    those in the tokens it has not read. *)
Definition links_ahead (fr : Frame) : list string :=
  match fpc fr with
  | AtPrint u | AtAccept u => u :: (page_scan (z fr) (ftitle fr)).2
  | AtStoreAbort | AtStoreEnd => []
  | _ => (page_scan (z fr) (ftitle fr)).2
  end.

(** The title the call will have at the end of the page. *)
Definition title_ahead (fr : Frame) : string :=
  match fpc fr with
  | AtStoreAbort | AtStoreEnd => ftitle fr
  | _ => (page_scan (z fr) (ftitle fr)).1
  end.

(** The value of the counter once the call has done the write it may have
    pending. *)
Definition counted (sh : Shared) (fr : Frame) : Z :=
  match fpc fr with
  | AtIncr v => v + 1
  | _ => countCrawled sh
  end.

(** The number of dots a call has still to print. *)
Definition dots_ahead (fr : Frame) : nat :=
  match fpc fr with
  | AtPrint u => S (length (page_scan (z fr) (ftitle fr)).2)
  | AtStoreAbort | AtStoreEnd => 0
  | _ => length (page_scan (z fr) (ftitle fr)).2
  end.

(* ===================================================================== *)
(** * The crawler: [Crawl] and the method [Crawl] of [crawlHistory] *)
(* ===================================================================== *)

(** [type Fetcher interface { Fetch(url string) (urls []string, err error) }].
    An implementation has memory [F] shared by all its calls and local
    variables [L] per call; a call starts in [Fetch_begin url] and runs by
    atomic steps until a step returns.  A call is not atomic: steps of
    calls made by different goroutines interleave. *)
Class Fetcher (F L : Type) := {
  Fetch_begin : string -> L;
  Fetch_step : F -> L -> F * (L + FetchRet)
}.

(** The completion channels: [done] of the top-level [Crawl] (buffered,
    capacity 1) and the [doneHere] a task makes at line 90 (unbuffered),
    named after the task that made it. *)
Inductive chan :=
| done_top
| doneHere (owner : nat).

Global Instance chan_eq_dec : EqDecision chan.
Proof. solve_decision. Defined.

Section CRAWL.

Context {F L : Type} `{!Fetcher F L}.

(** Program points of the method [Crawl]. *)
Inductive PC :=
| Start                                   (* line 74 *)
| Fetching (fr : L)                       (* line 79, inside c.Fetch(url) *)
| Acquire (urls : list string)            (* line 93: m := <-c.mapAccess *)
| Range (rest : list string) (count : Z)  (* lines 96-105, holding the map *)
| Wait (count : Z)                        (* lines 108-110 *)
| Send                                    (* done <- true, lines 75, 84, 112 *)
| Returned.

(** A goroutine running the method [Crawl]: its arguments and its program
    point. *)
Record Task := mkTask {
  url : string;
  depth : Z;
  done : chan;
  pc : PC
}.

(** The state of one invocation of the top-level [Crawl].

    [history] is the map made at line 60.  A Go map is a reference: the
    channel [mapAccess] passes the one map around, and [mapAccess] says
    whether the channel's slot holds it.  [done_buf] is the buffer of the
    channel [done] of line 63 and [returned] says that the top-level
    [Crawl] has returned.

    [calls] and [links] are a record of what happened, for the statements
    only: the URLs [Fetch] was called with, and for each call that returned
    without error its URL with the URLs it returned. *)
Record State := mkState {
  fetcher : F;
  history : gmap string bool;
  mapAccess : bool;
  tasks : list Task;
  done_buf : list bool;
  returned : bool;
  calls : list string;
  links : list (string * list string)
}.

Definition at_PC (t : Task) (p : PC) : Task :=
  mkTask (url t) (depth t) (done t) p.

Definition with_tasks (s : State) (ts : list Task) : State :=
  mkState (fetcher s) (history s) (mapAccess s) ts (done_buf s) (returned s)
          (calls s) (links s).

Definition move (s : State) (i : nat) (t : Task) (p : PC) : State :=
  with_tasks s (<[i := at_PC t p]> (tasks s)).

(** [m[u]] on a Go map: the zero value when the key is absent. *)
Definition seen (m : gmap string bool) (u : string) : bool :=
  default false (m !! u).

(** Lines 54-65: the state in which the root task starts. *)
Definition Crawl_init (url0 : string) (depth0 : Z) (fetcher0 : F) : State :=
  mkState fetcher0 {[ url0 := true ]} true
          [mkTask url0 depth0 done_top Start] [] false [] [].

(** One step of the method [Crawl] run by task [i]; [None] when the task is
    blocked or has returned. *)
Definition Crawl_step (i : nat) (s : State) : option State :=
  match tasks s !! i with
  | None => None
  | Some t =>
      match pc t with
      | Start =>
          if depth t <=? 0 then Some (move s i t Send)
          else
            Some (mkState (fetcher s) (history s) (mapAccess s)
                    (<[i := at_PC t (Fetching (Fetch_begin (url t)))]> (tasks s))
                    (done_buf s) (returned s)
                    (calls s ++ [url t]) (links s))
      | Fetching fr =>
          match Fetch_step (fetcher s) fr with
          | (fetcher', inl fr') =>
              Some (mkState fetcher' (history s) (mapAccess s)
                      (<[i := at_PC t (Fetching fr')]> (tasks s))
                      (done_buf s) (returned s) (calls s) (links s))
          | (fetcher', inr (urls, Some _)) =>
              (* err != nil, lines 83-86 *)
              Some (mkState fetcher' (history s) (mapAccess s)
                      (<[i := at_PC t Send]> (tasks s))
                      (done_buf s) (returned s) (calls s) (links s))
          | (fetcher', inr (urls, None)) =>
              Some (mkState fetcher' (history s) (mapAccess s)
                      (<[i := at_PC t (Acquire (default [] urls))]> (tasks s))
                      (done_buf s) (returned s) (calls s)
                      (links s ++ [(url t, default [] urls)]))
          end
      | Acquire urls =>
          (* receive from mapAccess: blocks while the slot is empty *)
          if mapAccess s then
            Some (mkState (fetcher s) (history s) false
                    (<[i := at_PC t (Range urls 0)]> (tasks s))
                    (done_buf s) (returned s) (calls s) (links s))
          else None
      | Range (u :: rest) count =>
          if seen (history s) u then Some (move s i t (Range rest count))
          else
            Some (mkState (fetcher s) (<[u := true]> (history s)) (mapAccess s)
                    (<[i := at_PC t (Range rest (count + 1))]> (tasks s)
                     ++ [mkTask u (depth t - 1) (doneHere i) Start])
                    (done_buf s) (returned s) (calls s) (links s))
      | Range [] count =>
          (* send on mapAccess: blocks while the slot is full *)
          if mapAccess s then None
          else
            Some (mkState (fetcher s) (history s) true
                    (<[i := at_PC t (Wait count)]> (tasks s))
                    (done_buf s) (returned s) (calls s) (links s))
      | Wait count =>
          (* count > 0: blocked in <-doneHere until a child sends *)
          if count >? 0 then None else Some (move s i t Send)
      | Send =>
          match done t with
          | done_top =>
              if (List.length (done_buf s) <? 1)%nat then
                Some (mkState (fetcher s) (history s) (mapAccess s)
                        (<[i := at_PC t Returned]> (tasks s))
                        (done_buf s ++ [true]) (returned s) (calls s) (links s))
              else None
          | doneHere p =>
              (* unbuffered: the send completes together with the receive
                 of the parent at line 109 *)
              match tasks s !! p with
              | Some tp =>
                  match pc tp with
                  | Wait count =>
                      if count >? 0 then
                        Some (with_tasks s
                                (<[p := at_PC tp (Wait (count - 1))]>
                                   (<[i := at_PC t Returned]> (tasks s))))
                      else None
                  | _ => None
                  end
              | None => None
              end
          end
      | Returned => None
      end
  end.

(** Lines 65-69 of the top-level [Crawl]: once the call [c.Crawl] of the
    root task has returned, receive from [done] and return. *)
Definition Crawl_return (s : State) : option State :=
  match tasks s !! 0%nat with
  | Some t0 =>
      match pc t0, done_buf s, returned s with
      | Returned, _ :: buf, false =>
          Some (mkState (fetcher s) (history s) (mapAccess s) (tasks s)
                  buf true (calls s) (links s))
      | _, _, _ => None
      end
  | None => None
  end.

(** Who moves: a task, or the top-level [Crawl]. *)
Inductive Move :=
| ByTask (i : nat)
| ByCrawl.

Definition run (mv : Move) (s : State) : option State :=
  match mv with
  | ByTask i => Crawl_step i s
  | ByCrawl => Crawl_return s
  end.

(** Running a schedule. *)
Fixpoint exec (sched : list Move) (s : State) : option State :=
  match sched with
  | [] => Some s
  | mv :: sched' =>
      match run mv s with
      | Some s' => exec sched' s'
      | None => None
      end
  end.

(** The states of an invocation [Crawl(url0, depth0, fetcher0)]. *)
Definition reachable (url0 : string) (depth0 : Z) (fetcher0 : F) (s : State) : Prop :=
  exists sched, exec sched (Crawl_init url0 depth0 fetcher0) = Some s.

(** ** What the statements count *)

Definition b2z (b : bool) : Z := if b then 1 else 0.

Fixpoint count_if {A : Type} (P : A -> bool) (l : list A) : Z :=
  match l with
  | [] => 0
  | x :: l' => b2z (P x) + count_if P l'
  end.

Definition is_Returned (p : PC) : bool :=
  match p with Returned => true | _ => false end.

(** [t] was spawned by task [p]: it signals on the [doneHere] of [p]. *)
Definition is_child (p : nat) (t : Task) : bool :=
  bool_decide (done t = doneHere p).

(** A child of [p] that has not yet signalled its completion. *)
Definition live_child (p : nat) (t : Task) : bool :=
  is_child p t && negb (is_Returned (pc t)).

(** The task holds the history map (lines 93-105). *)
Definition holds_map (t : Task) : bool :=
  match pc t with Range _ _ => true | _ => false end.

(** The local variable [count] of a task: the number of completion signals
    it has still to receive. *)
Definition pending (p : PC) : Z :=
  match p with
  | Range _ count => count
  | Wait count => count
  | _ => 0
  end.

(** The task has not yet released the map: it may still spawn. *)
Definition may_spawn (p : PC) : bool :=
  match p with
  | Start | Fetching _ | Acquire _ | Range _ _ => true
  | _ => false
  end.

(** The task is between its call of [Fetch] and its completion signal. *)
Definition has_fetched (p : PC) : bool :=
  match p with
  | Fetching _ | Acquire _ | Range _ _ | Wait _ => true
  | _ => false
  end.

(** [hops lk start k u]: [u] is [k] links away from [start], following the
    links that calls of [Fetch] returned. *)
Inductive hops (lk : list (string * list string)) (start : string)
  : nat -> string -> Prop :=
| hops_O : hops lk start 0 start
| hops_S k p us u :
    hops lk start k p -> (p, us) ∈ lk -> u ∈ us -> hops lk start (S k) u.

(** ** Invariants

    Synchronisation.  A task signals on the channel of an older task; the
    [count] of a task is the number of its children that have not yet
    signalled; before it releases the map, [count] is also the number of
    all its children; the top-level [Crawl] returns after the root task;
    the map is either in the channel or held by exactly one task. *)
Record sync_inv (s : State) : Prop := {
  sync_parent : forall i t, tasks s !! i = Some t ->
    match done t with done_top => i = 0%nat | doneHere p => (p < i)%nat end;
  sync_live : forall p t, tasks s !! p = Some t ->
    count_if (live_child p) (tasks s) = pending (pc t);
  sync_kids : forall p t, tasks s !! p = Some t -> may_spawn (pc t) = true ->
    count_if (is_child p) (tasks s) = pending (pc t);
  sync_top : returned s = true ->
    exists t0, tasks s !! 0%nat = Some t0 /\ pc t0 = Returned;
  sync_lock : count_if holds_map (tasks s) + b2z (mapAccess s) = 1
}.

(** Deduplication.  The tasks have distinct URLs, all marked in the
    history map; the map marks nothing else; [Fetch] was called for distinct
    URLs, each the URL of a task that has left its first program point. *)
Record dedup_inv (s : State) : Prop := {
  dedup_tasks : NoDup (url <$> tasks s);
  dedup_seen : forall i t, tasks s !! i = Some t ->
    history s !! url t = Some true;
  dedup_hist : forall u b, history s !! u = Some b ->
    b = true /\ exists i t, tasks s !! i = Some t /\ url t = u;
  dedup_calls : NoDup (calls s);
  dedup_called : forall u, u ∈ calls s ->
    exists i t, tasks s !! i = Some t /\ url t = u /\ pc t <> Start
}.

(** The URLs a task has still to look up in the history map. *)
Definition to_visit (p : PC) : list string :=
  match p with
  | Acquire urls => urls
  | Range rest _ => rest
  | _ => []
  end.

(** Depth.  A task with remaining depth [depth t] handles a URL that is
    [depth0 - depth t] links away from the start; only tasks with positive
    depth call [Fetch]; a child has the depth of its parent minus one. *)
Record depth_inv (url0 : string) (depth0 : Z) (s : State) : Prop := {
  depth_hops : forall i t, tasks s !! i = Some t ->
    exists k, hops (links s) url0 k (url t) /\ Z.of_nat k + depth t = depth0;
  depth_pos : forall i t, tasks s !! i = Some t ->
    has_fetched (pc t) = true -> 0 < depth t /\ url t ∈ calls s;
  depth_urls : forall i t u, tasks s !! i = Some t -> u ∈ to_visit (pc t) ->
    exists us, (url t, us) ∈ links s /\ u ∈ us;
  depth_calls : forall u, u ∈ calls s ->
    exists i t, tasks s !! i = Some t /\ url t = u /\ 0 < depth t;
  depth_links : forall p us, (p, us) ∈ links s -> p ∈ calls s;
  depth_child : forall i t p, tasks s !! i = Some t -> done t = doneHere p ->
    exists tp, tasks s !! p = Some tp /\ depth t = depth tp - 1 /\ 0 < depth tp
}.

(** Task [i], started as [t], is a leaf: it has no child, and it is at its
    completion signal or has returned. *)
Definition leaf (url0 : string) (depth0 : Z) (fetcher0 : F)
    (i : nat) (t : Task) (s : State) : Prop :=
  reachable url0 depth0 fetcher0 s /\
  count_if (is_child i) (tasks s) = 0 /\
  (tasks s !! i = Some (at_PC t Send) \/ tasks s !! i = Some (at_PC t Returned)).

(** The arguments a task was started with; its steps do not change them. *)
Definition arguments (t : Task) : string * Z * chan := (url t, depth t, done t).

(** Nothing is dropped.  A link that a call of [Fetch] returned is marked
    in the history map, or the task that made the call has still to look
    it up; a task with positive depth that has left its first program
    point has called [Fetch]. *)
Record visit_inv (s : State) : Prop := {
  visit_links : forall p us u, (p, us) ∈ links s -> u ∈ us ->
    history s !! u = Some true \/
    exists i t, tasks s !! i = Some t /\ url t = p /\ u ∈ to_visit (pc t);
  visit_called : forall i t, tasks s !! i = Some t ->
    pc t <> Start -> 0 < depth t -> url t ∈ calls s
}.

End CRAWL.

Arguments PC : clear implicits.
Arguments Task : clear implicits.
Arguments State : clear implicits.

(* ===================================================================== *)
(** * The program: [Crawl] called with a [fetcher] *)
(* ===================================================================== *)

(** [fetcher] implements [Fetcher] (line 156). *)
Definition fetcher_Fetcher (maxURLS : Z) (web : string -> option (list Token))
  : Fetcher Shared Frame :=
  {| Fetch_begin := fetch_begin; Fetch_step := fetch_step maxURLS web |}.

(** [main], line 123: an empty map, and [countCrawled = 0]. *)
Definition Shared_init : Shared := mkShared 0 ∅ [].

(** ** Concurrent writes to the map [f]

    The task is inside a write to [f] (lines 195, 214). *)
Definition in_write (t : Task Frame) : bool :=
  match pc t with
  | Fetching fr =>
      match fpc fr with
      | AtStoreAbort | AtStoreEnd => true
      | _ => false
      end
  | _ => false
  end.

(** The number of tasks that are inside a write to [f]. *)
Definition writers (s : State Shared Frame) : Z :=
  count_if in_write (tasks s).

(** Two writes to [f] overlap.  This is a data race on a Go map: the
    runtime stops the whole program with [fatal error: concurrent map
    writes], and where it does not detect the overlap the contents of the
    map are undefined.  The program does not go on from such a state. *)
Definition fatal (s : State Shared Frame) : bool := 1 <? writers s.

Section PROGRAM.

Variable maxURLS : Z.
Variable web : string -> option (list Token).

(** A step of the program: a step of the crawler with the program's
    fetcher, unless two writes to [f] have overlapped. *)
Definition prog_run (mv : Move) (s : State Shared Frame)
  : option (State Shared Frame) :=
  if fatal s then None else @run _ _ (fetcher_Fetcher maxURLS web) mv s.

Fixpoint prog_exec (sched : list Move) (s : State Shared Frame)
  : option (State Shared Frame) :=
  match sched with
  | [] => Some s
  | mv :: sched' =>
      match prog_run mv s with
      | Some s' => prog_exec sched' s'
      | None => None
      end
  end.

(** The states of the program started as [main] starts it, line 124. *)
Definition prog_reachable (url0 : string) (depth0 : Z) (s : State Shared Frame)
  : Prop :=
  exists sched, prog_exec sched (Crawl_init url0 depth0 Shared_init) = Some s.

End PROGRAM.

(** A link [Fetch] accepts: it begins with "http" and is not a file. *)
Definition accepted (u : string) : Prop :=
  Index u "http" = 0 /\ isFile u = false.

(** The link a call of [Fetch] is looking at begins with "http", and so
    do the URLs in its list, none of which is a file. *)
Definition frame_ok (fr : Frame) : Prop :=
  (forall u, u ∈ furls fr -> accepted u) /\
  match fpc fr with
  | AtPrint u | AtAccept u => Index u "http" = 0
  | _ => True
  end.

Definition shared_ok (sh : Shared) : Prop :=
  forall k r u, f sh !! k = Some r -> u ∈ urls r -> accepted u.

(** What holds of the crawler when its fetcher is a [fetcher]. *)
Record fetcher_inv (url0 : string) (s : State Shared Frame) : Prop := {
  fi_root : exists t0, tasks s !! 0%nat = Some t0 /\ url t0 = url0;
  fi_frame : forall i t fr, tasks s !! i = Some t -> pc t = Fetching fr ->
    arg_url fr = url t /\ frame_ok fr;
  fi_shared : shared_ok (fetcher s);
  fi_keys : forall k r, f (fetcher s) !! k = Some r -> k ∈ calls s;
  fi_links : forall p us u, (p, us) ∈ links s -> u ∈ us -> accepted u;
  fi_visit : forall i t u, tasks s !! i = Some t -> u ∈ to_visit (pc t) ->
    accepted u;
  fi_tasks : forall i t, tasks s !! i = Some t -> i <> 0%nat -> accepted (url t)
}.

(** A URL ends in one of the suffixes of [isFile]. *)
Definition file_suffixed (u : string) : Prop :=
  exists p file, file ∈ files /\ u = p +:+ file.

(** ** The results, and a bound on the steps *)

Fixpoint total {A : Type} (g : A -> Z) (l : list A) : Z :=
  match l with
  | [] => 0
  | x :: l' => g x + total g l'
  end.

(** The task is past its call of [Fetch]. *)
Definition after_fetch (p : PC Frame) : bool :=
  match p with
  | Start | Fetching _ => false
  | _ => true
  end.

Section RESULTS.

Variable web : string -> option (list Token).

(** What a call of [Fetch] has collected so far, against the page at its
    URL: together with the links it has still to handle, its list is the
    list of the page; once at the abort point, its list is the beginning
    of that of the page. *)
Definition frame_scan (fr : Frame) : Prop :=
  match fpc fr with
  | AtGet => True
  | AtAbort | AtStoreAbort =>
      exists body, web (arg_url fr) = Some body /\
        furls fr `prefix_of` page_links body
  | _ =>
      exists body, web (arg_url fr) = Some body /\
        furls fr ++ filter not_file (links_ahead fr) = page_links body /\
        title_ahead fr = page_title body
  end.

(** The results in [f].  An entry belongs to a page that was downloaded,
    by a task that is past its call of [Fetch], and holds the beginning
    of the list of links of the page; the links a call returned are those
    of the page, stored with its title; a task that is past its call for
    a page that can be downloaded has stored an entry. *)
Record results_inv (s : State Shared Frame) : Prop := {
  ri_frame : forall i t fr, tasks s !! i = Some t -> pc t = Fetching fr ->
    frame_scan fr;
  ri_keys : forall k r, f (fetcher s) !! k = Some r ->
    (exists body, web k = Some body /\ urls r `prefix_of` page_links body) /\
    exists i t, tasks s !! i = Some t /\ url t = k /\ after_fetch (pc t) = true;
  ri_links : forall p us, (p, us) ∈ links s ->
    exists body, web p = Some body /\ us = page_links body /\
      f (fetcher s) !! p = Some (mkResult (page_title body) us);
  ri_stored : forall i t, tasks s !! i = Some t -> after_fetch (pc t) = true ->
    0 < depth t -> is_Some (web (url t)) -> is_Some (f (fetcher s) !! url t)
}.

(** The links a call of [Fetch] may still return. *)
Definition may_return (fr : Frame) : list string :=
  match fpc fr with
  | AtGet =>
      match web (arg_url fr) with
      | Some body => (page_scan body EmptyString).2
      | None => []
      end
  | _ => furls fr ++ links_ahead fr
  end.

(** A bound on the steps of a task started for [u] with depth [d], and of
    the tasks it starts: every link of the page may cost a look at the
    history map and a new task of depth [d - 1]. *)
Fixpoint work (d : nat) (u : string) : Z :=
  match d with
  | O => 2
  | S d' =>
      1 + (Z.of_nat (fetch_fuel web (fetch_begin u))
           + total (fun v => 1 + work d' v) (may_return (fetch_begin u)) + 4)
  end.

(** The same for a list of links a task of depth [d] has still to look up. *)
Definition work_links (d : Z) (us : list string) : Z :=
  total (fun v => 1 + work (Z.to_nat (d - 1)) v) us.

Definition work_task (t : Task Frame) : Z :=
  match pc t with
  | Start => work (Z.to_nat (depth t)) (url t)
  | Fetching fr =>
      Z.of_nat (fetch_fuel web fr) + work_links (depth t) (may_return fr) + 4
  | Acquire urls => work_links (depth t) urls + 4
  | Range rest _ => work_links (depth t) rest + 3
  | Wait _ => 2
  | Send => 1
  | Returned => 0
  end.

(** A bound on the steps that are left in a state. *)
Definition steps_left (s : State Shared Frame) : Z :=
  total work_task (tasks s) + b2z (negb (returned s)).

End RESULTS.

(** ** Sample pages *)

Definition a_href (href : string) : Token :=
  StartTagToken "a" [("href", href)]%string.

Definition title_of (text : string) : list Token :=
  [StartTagToken "title" []; TextToken text; OtherToken].

(** The site [A -> B, C], [B -> D], [C] and [D] without links, with a
    relative link and a link to a file on [A]. *)
Definition site (u : string) : option (list Token) :=
  if String.eqb u "http://A" then
    Some (title_of "A" ++ [a_href "http://B"; a_href "about.html";
                           a_href "http://C"; a_href "http://A/a.pdf"])
  else if String.eqb u "http://B" then
    Some (title_of "B" ++ [a_href "http://D"])
  else if String.eqb u "http://C" then Some (title_of "C")
  else if String.eqb u "http://D" then Some (title_of "D")
  else None.

(** A page with the same link twice. *)
Definition twice (u : string) : option (list Token) :=
  if String.eqb u "http://A" then Some [a_href "http://B"; a_href "http://B"]
  else None.

(** A page with three links. *)
Definition three (u : string) : option (list Token) :=
  if String.eqb u "http://A" then
    Some [a_href "http://B"; a_href "http://C"; a_href "http://D"]
  else None.

(** The site [A -> B, C], [B -> D], [C] without links. *)
Definition race_site (u : string) : option (list Token) :=
  if String.eqb u "http://A" then
    Some (title_of "A" ++ [a_href "http://B"; a_href "http://C"])
  else if String.eqb u "http://B" then
    Some (title_of "B" ++ [a_href "http://D"])
  else if String.eqb u "http://C" then Some (title_of "C")
  else None.

(** A start URL that is a file. *)
Definition pdf_site (u : string) : option (list Token) :=
  if String.eqb u "http://A/a.pdf" then Some (title_of "A") else None.

(** A scheduler: the first move that is enabled, the top-level [Crawl]
    first and then the tasks in the order of the pool. *)
Fixpoint first_enabled {F L : Type} `{!Fetcher F L} (mvs : list Move)
    (s : State F L) : option (Move * State F L) :=
  match mvs with
  | [] => None
  | mv :: mvs' =>
      match run mv s with
      | Some s' => Some (mv, s')
      | None => first_enabled mvs' s
      end
  end.

Fixpoint schedule {F L : Type} `{!Fetcher F L} (fuel : nat) (s : State F L)
  : list Move :=
  match fuel with
  | O => []
  | S fuel' =>
      match first_enabled (ByCrawl :: (ByTask <$> seq 0 (length (tasks s)))) s with
      | Some (mv, s') => mv :: schedule fuel' s'
      | None => []
      end
  end.

(** ** Sample runs *)

Definition start_A (depth0 : Z) : State Shared Frame :=
  Crawl_init "http://A" depth0 Shared_init.

(** [Crawl("http://A", 2, f)] on [site] with a maximum of 10, run to the
    end by the scheduler. *)
Definition site_run : list Move :=
  Eval vm_compute in @schedule _ _ (fetcher_Fetcher 10 site) 100 (start_A 2).

Definition site_final : State Shared Frame :=
  Eval vm_compute in
    default (start_A 2) (@exec _ _ (fetcher_Fetcher 10 site) site_run (start_A 2)).

(** [Crawl("http://A", 2, f)] on [three] with a maximum of 10: the root
    task has accepted the first link and is about to write the counter. *)
Definition three_at_incr : State Shared Frame :=
  Eval vm_compute in
    default (start_A 2)
      (@exec _ _ (fetcher_Fetcher 10 three) (replicate 5 (ByTask 0)) (start_A 2)).

(** The next state: the root task has written the counter. *)
Definition three_after_incr : State Shared Frame :=
  Eval vm_compute in
    default (start_A 2)
      (@exec _ _ (fetcher_Fetcher 10 three) (replicate 6 (ByTask 0)) (start_A 2)).

(** The same run later: the root task has started a task for
    ["http://B"], which has called [Fetch]; the request will fail. *)
Definition three_at_get : State Shared Frame :=
  Eval vm_compute in
    default (start_A 2)
      (@exec _ _ (fetcher_Fetcher 10 three)
         (replicate 18 (ByTask 0) ++ [ByTask 1]) (start_A 2)).

(** Then the call of [Fetch] for ["http://B"] has returned an error; *)
Definition three_B_failed : State Shared Frame :=
  Eval vm_compute in
    default (start_A 2)
      (@exec _ _ (fetcher_Fetcher 10 three)
         (replicate 18 (ByTask 0) ++ [ByTask 1; ByTask 1]) (start_A 2)).

(** the root task has started its other two tasks, released the map and
    waits for three signals; *)
Definition three_B_waited : State Shared Frame :=
  Eval vm_compute in
    default (start_A 2)
      (@exec _ _ (fetcher_Fetcher 10 three)
         (replicate 18 (ByTask 0) ++ [ByTask 1; ByTask 1] ++ replicate 3 (ByTask 0))
         (start_A 2)).

(** and the task for ["http://B"] has sent its signal. *)
Definition three_B_signalled : State Shared Frame :=
  Eval vm_compute in
    default (start_A 2)
      (@exec _ _ (fetcher_Fetcher 10 three)
         (replicate 18 (ByTask 0) ++ [ByTask 1; ByTask 1] ++ replicate 3 (ByTask 0)
          ++ [ByTask 1])
         (start_A 2)).

(** [Crawl("http://A", 2, f)] on [three] with a maximum of 1: the root
    task has accepted two links and found the counter above the maximum at
    the third. *)
Definition three_at_abort : State Shared Frame :=
  Eval vm_compute in
    default (start_A 2)
      (@exec _ _ (fetcher_Fetcher 1 three) (replicate 11 (ByTask 0)) (start_A 2)).

(** [Crawl("http://A", 0, f)] on [site]: the root task is at its
    completion signal. *)
Definition zero_sent : State Shared Frame :=
  Eval vm_compute in
    default (start_A 0)
      (@exec _ _ (fetcher_Fetcher 10 site) [ByTask 0] (start_A 0)).

(** [Crawl("http://A", 2, f)] on [race_site] with a maximum of 1.  The
    root task accepts both links of its page, which takes the counter to
    2, and starts a task for each.  The task for ["http://B"] finds the
    counter above the maximum at the link of its page and begins the
    write of line 195; the task for ["http://C"] reaches the end of its
    page and begins the write of line 214. *)
Definition race_run : list Move :=
  replicate 17 (ByTask 0) ++ replicate 6 (ByTask 1) ++ replicate 5 (ByTask 2).

Definition race_state : State Shared Frame :=
  Eval vm_compute in
    default (start_A 2) (prog_exec 1 race_site race_run (start_A 2)).

(** The same call run to the end by the scheduler, which lets a task go
    on until it has to wait. *)
Definition race_free_run : list Move :=
  Eval vm_compute in @schedule _ _ (fetcher_Fetcher 1 race_site) 100 (start_A 2).

Definition race_free_final : State Shared Frame :=
  Eval vm_compute in
    default (start_A 2) (prog_exec 1 race_site race_free_run (start_A 2)).

(** [Crawl("http://A/a.pdf", 1, f)] on [pdf_site], run to the end. *)
Definition pdf_init : State Shared Frame :=
  Crawl_init "http://A/a.pdf" 1 Shared_init.

Definition pdf_run : list Move :=
  Eval vm_compute in @schedule _ _ (fetcher_Fetcher 10 pdf_site) 100 pdf_init.

Definition pdf_final : State Shared Frame :=
  Eval vm_compute in
    default pdf_init (@exec _ _ (fetcher_Fetcher 10 pdf_site) pdf_run pdf_init).

(* ===================================================================== *)
(** * Lemmas on strings and counting *)
(* ===================================================================== *)

Lemma substring_all (s : string) : String.substring 0 (String.length s) s = s.
Proof. induction s as [|c s IH]; simpl; [reflexivity | by rewrite IH]. Qed.

Lemma substring_skip (p s : string) :
  String.substring (String.length p) (String.length s) (p +:+ s) = s.
Proof. induction p as [|c p IH]; simpl; [apply substring_all | exact IH]. Qed.

Lemma length_append (p s : string) :
  String.length (p +:+ s) = (String.length p + String.length s)%nat.
Proof. induction p as [|c p IH]; simpl; [reflexivity | by rewrite IH]. Qed.

Lemma HasSuffix_append (p suffix : string) : HasSuffix (p +:+ suffix) suffix = true.
Proof.
  unfold HasSuffix. rewrite length_append.
  replace (String.length p + String.length suffix - String.length suffix)%nat
    with (String.length p) by lia.
  rewrite substring_skip, String.eqb_refl, andb_true_r.
  apply Nat.leb_le. lia.
Qed.

Lemma Index_zero_prefix (s sub : string) :
  Index s sub = 0 <-> String.prefix sub s = true.
Proof.
  unfold Index. destruct s as [|c s]; cbn [String.index].
  - destruct sub; simpl; split; intros; done.
  - destruct (String.prefix sub (String c s)) eqn:Hp.
    + split; done.
    + destruct (String.index 0 sub s); split; intros; try done; lia.
Qed.

Lemma isFile_suffix (p file : string) :
  file ∈ files -> isFile (p +:+ file) = true.
Proof.
  intros Hin. unfold isFile. apply existsb_exists.
  exists file. split; [by apply list_elem_of_In | apply HasSuffix_append].
Qed.

Section COUNT.

Context {A : Type} (P : A -> bool).

Lemma count_if_nonneg (l : list A) : 0 <= count_if P l.
Proof. induction l as [|x l IH]; simpl; [lia | destruct (P x); simpl; lia]. Qed.

Lemma count_if_app (l1 l2 : list A) :
  count_if P (l1 ++ l2) = count_if P l1 + count_if P l2.
Proof. induction l1 as [|x l1 IH]; simpl; [lia | rewrite IH; lia]. Qed.

Lemma count_if_insert (l : list A) (i : nat) (x y : A) :
  l !! i = Some x ->
  count_if P (<[i := y]> l) = count_if P l - b2z (P x) + b2z (P y).
Proof.
  revert i. induction l as [|a l IH]; intros [|i] Hi; simplify_eq/=.
  - lia.
  - rewrite (IH i Hi). lia.
Qed.

Lemma count_if_none (l : list A) :
  (forall i x, l !! i = Some x -> P x = false) -> count_if P l = 0.
Proof.
  induction l as [|a l IH]; intros H; simpl; [reflexivity|].
  rewrite (H 0%nat a eq_refl), IH; [reflexivity|].
  intros i x Hi. exact (H (S i) x Hi).
Qed.

Lemma count_if_lookup (l : list A) (i : nat) (x : A) :
  l !! i = Some x -> b2z (P x) <= count_if P l.
Proof.
  revert i. induction l as [|a l IH]; intros [|i] Hi; simplify_eq/=.
  - pose proof (count_if_nonneg l). lia.
  - specialize (IH i Hi). destruct (P a); simpl; lia.
Qed.

Lemma count_if_zero (l : list A) (i : nat) (x : A) :
  count_if P l = 0 -> l !! i = Some x -> P x = false.
Proof.
  intros H0 Hi. pose proof (count_if_lookup l i x Hi) as Hle.
  destruct (P x); simpl in Hle; [lia | reflexivity].
Qed.

Lemma count_if_two (l : list A) (i j : nat) (x y : A) :
  l !! i = Some x -> l !! j = Some y -> i <> j ->
  b2z (P x) + b2z (P y) <= count_if P l.
Proof.
  revert i j. induction l as [|a l IH]; intros [|i] [|j] Hi Hj Hne; simplify_eq/=.
  - pose proof (count_if_lookup l j y Hj). lia.
  - pose proof (count_if_lookup l i x Hi). lia.
  - assert (i <> j) by lia. specialize (IH i j Hi Hj H).
    destruct (P a); simpl; lia.
Qed.

End COUNT.

(* ===================================================================== *)
(** * Invariants of the crawler, for any fetcher *)
(* ===================================================================== *)

(** Inversion of a step: one case per branch of [Crawl_step] and [Crawl_return]. *)
Ltac run_inv H :=
  match type of H with
  | run ?mv _ = Some _ => destruct mv; simpl in H
  end;
  [unfold Crawl_step, move, with_tasks in H | unfold Crawl_return in H];
  repeat match type of H with
         | context [match ?x with _ => _ end] => destruct x eqn:?
         end;
  simplify_eq.

Section CRAWL_INVARIANTS.

Context {F L : Type} `{!Fetcher F L}.
Variables (url0 : string) (depth0 : Z) (fetcher0 : F).

Abbreviation reach := (@reachable F L _ url0 depth0 fetcher0).
Abbreviation init := (@Crawl_init F L url0 depth0 fetcher0).
Abbreviation is_leaf := (@leaf F L _ url0 depth0 fetcher0).

Lemma exec_app (sched1 sched2 : list Move) (s : State F L) :
  exec (sched1 ++ sched2) s =
  match exec sched1 s with Some s1 => exec sched2 s1 | None => None end.
Proof.
  revert s. induction sched1 as [|mv sched1 IH]; intros s; simpl; [reflexivity|].
  destruct (run mv s); [apply IH | reflexivity].
Qed.

Lemma reachable_init : reach init.
Proof. by exists []. Qed.

Lemma reachable_exec (sched : list Move) (s s' : State F L) :
  reach s -> exec sched s = Some s' -> reach s'.
Proof.
  intros [sched0 H0] H1. exists (sched0 ++ sched).
  by rewrite exec_app, H0.
Qed.

Lemma reachable_step (mv : Move) (s s' : State F L) :
  reach s -> run mv s = Some s' -> reach s'.
Proof.
  intros Hs Hrun. apply (reachable_exec [mv] s s' Hs). simpl. by rewrite Hrun.
Qed.

(** A property that holds initially and is kept by every step holds in
    every reachable state. *)
Lemma reachable_ind (P : State F L -> Prop) :
  P init ->
  (forall mv s s', reach s -> P s -> run mv s = Some s' -> P s') ->
  forall s, reach s -> P s.
Proof.
  intros Hinit Hstep s [sched Hs]. revert s Hs.
  induction sched as [|mv sched IH] using rev_ind; intros s Hs.
  - simpl in Hs. by simplify_eq.
  - rewrite exec_app in Hs. destruct (exec sched init) as [s1|] eqn:H1; [|done].
    simpl in Hs. destruct (run mv s1) as [s2|] eqn:H2; [|done]. simplify_eq.
    apply (Hstep mv s1 s); [by exists sched | by apply IH | done].
Qed.

(** A property kept by every step is kept by every schedule. *)
Lemma exec_ind (P : State F L -> Prop) :
  (forall mv s s', P s -> run mv s = Some s' -> P s') ->
  forall sched s s', P s -> exec sched s = Some s' -> P s'.
Proof.
  intros Hstep sched. induction sched as [|mv sched IH]; intros s s' Hs Hex; simpl in Hex.
  - by simplify_eq.
  - destruct (run mv s) as [s1|] eqn:H1; [|done]. eauto.
Qed.

(** ** Synchronisation: who waits for whom *)

Lemma sync_inv_init : sync_inv init.
Proof.
  constructor; simpl.
  - intros [|i] t Hi; simplify_eq/=. reflexivity.
  - intros [|i] t Hi; simplify_eq/=. reflexivity.
  - intros [|i] t Hi _; simplify_eq/=. reflexivity.
  - done.
  - reflexivity.
Qed.

Lemma is_child_at_PC (p : nat) (t : Task L) (q : PC L) :
  is_child p (at_PC t q) = is_child p t.
Proof. reflexivity. Qed.

Lemma live_child_at_PC (p : nat) (t : Task L) (q : PC L) :
  live_child p (at_PC t q) = is_child p t && negb (is_Returned q).
Proof. reflexivity. Qed.

Lemma not_own_child (s : State F L) (i : nat) (t : Task L) :
  sync_inv s -> tasks s !! i = Some t -> is_child i t = false.
Proof.
  intros Hs Hi. pose proof (sync_parent s Hs i t Hi) as Hp.
  unfold is_child. apply bool_decide_eq_false. intros Hd. rewrite Hd in Hp. lia.
Qed.

(** Task [i] moves to another program point; nothing else changes in the
    pool. *)
Lemma sync_retag (s s' : State F L) (i : nat) (t : Task L) (q : PC L) :
  sync_inv s ->
  tasks s !! i = Some t ->
  tasks s' = <[i := at_PC t q]> (tasks s) ->
  returned s' = returned s ->
  is_Returned (pc t) = false ->
  is_Returned q = false \/ done t = done_top ->
  pending q = pending (pc t) ->
  (may_spawn q = true -> may_spawn (pc t) = true) ->
  b2z (holds_map (at_PC t q)) + b2z (mapAccess s') =
    b2z (holds_map t) + b2z (mapAccess s) ->
  sync_inv s'.
Proof.
  intros Hs Hi Hts Hret Hnr Hq Hpend Hmay Hmap.
  pose proof (not_own_child s i t Hs Hi) as Hown.
  destruct Hs as [Hpar Hlive Hkids Htop Hlock].
  assert (Hlc : forall p, live_child p (at_PC t q) = live_child p t).
  { intros p. rewrite live_child_at_PC. unfold live_child. rewrite Hnr.
    destruct Hq as [-> | Hd]; [reflexivity|].
    unfold is_child. rewrite Hd. reflexivity. }
  constructor; rewrite ?Hts, ?Hret.
  - intros j tj Hj.
    apply list_lookup_insert_Some in Hj as [(-> & <- & _) | (Hne & Hj)];
      [exact (Hpar _ _ Hi) | exact (Hpar _ _ Hj)].
  - intros p tp Hp. rewrite (count_if_insert _ _ _ _ _ Hi), Hlc.
    apply list_lookup_insert_Some in Hp as [(-> & <- & _) | (Hne & Hp)]; simpl.
    + rewrite Hpend, <- (Hlive _ _ Hi). lia.
    + rewrite <- (Hlive _ _ Hp). lia.
  - intros p tp Hp Hsp. rewrite (count_if_insert _ _ _ _ _ Hi), is_child_at_PC.
    apply list_lookup_insert_Some in Hp as [(-> & <- & _) | (Hne & Hp)]; simpl in *.
    + rewrite Hpend, <- (Hkids _ _ Hi (Hmay Hsp)). lia.
    + rewrite <- (Hkids _ _ Hp Hsp). lia.
  - intros Hr. destruct (Htop Hr) as (t0 & H0 & Hp0).
    destruct (decide (i = 0%nat)) as [-> | Hne].
    + assert (t0 = t) by congruence. subst t0. rewrite Hp0 in Hnr. done.
    + exists t0. by rewrite list_lookup_insert_ne.
  - rewrite (count_if_insert _ _ _ _ _ Hi). lia.
Qed.

(** Lines 97-101: task [i] marks [u] and starts a goroutine for it. *)
Lemma sync_spawn (s s' : State F L) (i : nat) (t : Task L)
    (u : string) (d : Z) (rest : list string) (c : Z) :
  sync_inv s ->
  tasks s !! i = Some t ->
  pc t = Range (u :: rest) c ->
  tasks s' = <[i := at_PC t (Range rest (c + 1))]> (tasks s)
               ++ [mkTask u d (doneHere i) Start] ->
  returned s' = returned s ->
  mapAccess s' = mapAccess s ->
  sync_inv s'.
Proof.
  intros Hs Hi Hpc Hts Hret Hmap.
  pose proof (not_own_child s i t Hs Hi) as Hown.
  pose proof (lookup_lt_Some _ _ _ Hi) as Hlt.
  destruct Hs as [Hpar Hlive Hkids Htop Hlock].
  assert (Hfresh : forall n, (length (tasks s) <= n)%nat ->
                     count_if (is_child n) (tasks s) = 0).
  { intros n Hn. apply count_if_none. intros j tj Hj.
    pose proof (Hpar _ _ Hj) as Hp. pose proof (lookup_lt_Some _ _ _ Hj).
    unfold is_child. apply bool_decide_eq_false. intros Hd. rewrite Hd in Hp. lia. }
  assert (Hlefresh : forall n, (length (tasks s) <= n)%nat ->
                     count_if (live_child n) (tasks s) = 0).
  { intros n Hn. apply count_if_none. intros j tj Hj.
    pose proof (Hpar _ _ Hj) as Hp. pose proof (lookup_lt_Some _ _ _ Hj).
    unfold live_child, is_child. rewrite bool_decide_eq_false_2; [done|].
    intros Hd. rewrite Hd in Hp. lia. }
  assert (Hnew : forall q, is_child q (@mkTask L u d (doneHere i) Start)
                           = bool_decide (q = i)).
  { intros q. unfold is_child. simpl. apply bool_decide_ext.
    split; intros; simplify_eq; done. }
  assert (Hlnew : forall q, live_child q (@mkTask L u d (doneHere i) Start)
                            = bool_decide (q = i)).
  { intros q. unfold live_child. rewrite Hnew. simpl. apply andb_true_r. }
  assert (Hlc : forall q, live_child q (at_PC t (Range rest (c + 1))) = live_child q t).
  { intros q. rewrite live_child_at_PC. unfold live_child. by rewrite Hpc. }
  constructor; rewrite ?Hts, ?Hret, ?Hmap.
  - intros j tj Hj. apply lookup_app_Some in Hj as [Hj | [Hge Hj]].
    + apply list_lookup_insert_Some in Hj as [(-> & <- & _) | (Hne & Hj)];
        [exact (Hpar _ _ Hi) | exact (Hpar _ _ Hj)].
    + rewrite length_insert in Hge, Hj.
      destruct (j - length (tasks s))%nat eqn:E; simplify_eq/=. lia.
  - intros q tq Hq.
    rewrite count_if_app, (count_if_insert _ _ _ _ _ Hi), Hlc. simpl.
    rewrite Hlnew.
    apply lookup_app_Some in Hq as [Hq | [Hge Hq]].
    + apply list_lookup_insert_Some in Hq as [(-> & <- & _) | (Hne & Hq)]; simpl.
      * rewrite bool_decide_eq_true_2 by done.
        pose proof (Hlive _ _ Hi) as Hl. rewrite Hpc in Hl. simpl in *. lia.
      * rewrite bool_decide_eq_false_2 by congruence.
        rewrite <- (Hlive _ _ Hq). simpl. lia.
    + rewrite length_insert in Hge, Hq.
      destruct (q - length (tasks s))%nat eqn:E; simplify_eq/=.
      rewrite bool_decide_eq_false_2 by lia.
      rewrite Hlefresh by lia. simpl. lia.
  - intros q tq Hq Hsp.
    rewrite count_if_app, (count_if_insert _ _ _ _ _ Hi), is_child_at_PC. simpl.
    rewrite Hnew.
    apply lookup_app_Some in Hq as [Hq | [Hge Hq]].
    + apply list_lookup_insert_Some in Hq as [(-> & <- & _) | (Hne & Hq)]; simpl.
      * rewrite bool_decide_eq_true_2 by done.
        assert (Hm : may_spawn (pc t) = true) by (by rewrite Hpc).
        pose proof (Hkids _ _ Hi Hm) as Hl. rewrite Hpc in Hl. simpl in *. lia.
      * rewrite bool_decide_eq_false_2 by congruence.
        rewrite <- (Hkids _ _ Hq Hsp). simpl. lia.
    + rewrite length_insert in Hge, Hq.
      destruct (q - length (tasks s))%nat eqn:E; simplify_eq/=.
      rewrite bool_decide_eq_false_2 by lia.
      rewrite Hfresh by lia. simpl. lia.
  - intros Hr. destruct (Htop Hr) as (t0 & H0 & Hp0).
    destruct (decide (i = 0%nat)) as [-> | Hne].
    + rewrite Hi in H0. simplify_eq. congruence.
    + exists t0. split; [|done]. apply lookup_app_l_Some.
      by rewrite list_lookup_insert_ne.
  - rewrite count_if_app, (count_if_insert _ _ _ _ _ Hi).
    assert (Hh : holds_map t = true) by (unfold holds_map; by rewrite Hpc).
    rewrite Hh. cbn. lia.
Qed.

(** Lines 109 and 112: child [i] sends on the [doneHere] of its parent
    [p], which receives. *)
Lemma sync_signal (s s' : State F L) (i p : nat) (t tp : Task L) (c : Z) :
  sync_inv s ->
  tasks s !! i = Some t ->
  pc t = Send ->
  done t = doneHere p ->
  tasks s !! p = Some tp ->
  pc tp = Wait c ->
  tasks s' = <[p := at_PC tp (Wait (c - 1))]> (<[i := at_PC t Returned]> (tasks s)) ->
  returned s' = returned s ->
  mapAccess s' = mapAccess s ->
  sync_inv s'.
Proof.
  intros Hs Hi Hpc Hd Hp Hpcp Hts Hret Hmap.
  pose proof (not_own_child s i t Hs Hi) as Hown.
  pose proof (not_own_child s p tp Hs Hp) as Hownp.
  pose proof (sync_parent s Hs i t Hi) as Hlt. rewrite Hd in Hlt.
  assert (Hne : i <> p) by lia.
  assert (Hp' : <[i := at_PC t Returned]> (tasks s) !! p = Some tp).
  { by rewrite list_lookup_insert_ne. }
  destruct Hs as [Hpar Hlive Hkids Htop Hlock].
  assert (Hlc : forall q, live_child q (at_PC tp (Wait (c - 1))) = live_child q tp).
  { intros q. rewrite live_child_at_PC. unfold live_child. by rewrite Hpcp. }
  constructor; rewrite ?Hts, ?Hret, ?Hmap.
  - intros j tj Hj.
    apply list_lookup_insert_Some in Hj as [(-> & <- & _) | (Hnp & Hj)].
    { exact (Hpar _ _ Hp). }
    apply list_lookup_insert_Some in Hj as [(-> & <- & _) | (Hni & Hj)];
      [exact (Hpar _ _ Hi) | exact (Hpar _ _ Hj)].
  - intros q tq Hq.
    rewrite (count_if_insert _ _ _ _ _ Hp'), (count_if_insert _ _ _ _ _ Hi), Hlc.
    rewrite live_child_at_PC. simpl. rewrite andb_false_r.
    unfold live_child at 2. rewrite Hpc. simpl. rewrite andb_true_r.
    unfold is_child at 1. rewrite Hd.
    apply list_lookup_insert_Some in Hq as [(-> & <- & _) | (Hnp & Hq)].
    { rewrite bool_decide_eq_true_2 by done.
      pose proof (Hlive _ _ Hp) as Hl. rewrite Hpcp in Hl. simpl in *. lia. }
    rewrite bool_decide_eq_false_2 by congruence.
    apply list_lookup_insert_Some in Hq as [(-> & <- & _) | (Hni & Hq)]; simpl.
    + pose proof (Hlive _ _ Hi) as Hl. rewrite Hpc in Hl. simpl in *. lia.
    + rewrite <- (Hlive _ _ Hq). lia.
  - intros q tq Hq Hsp.
    rewrite (count_if_insert _ _ _ _ _ Hp'), (count_if_insert _ _ _ _ _ Hi).
    rewrite !is_child_at_PC.
    apply list_lookup_insert_Some in Hq as [(-> & <- & _) | (Hnp & Hq)].
    { done. }
    apply list_lookup_insert_Some in Hq as [(-> & <- & _) | (Hni & Hq)].
    { done. }
    rewrite <- (Hkids _ _ Hq Hsp). lia.
  - intros Hr. destruct (Htop Hr) as (t0 & H0 & Hp0).
    assert (i <> 0%nat) by lia.
    destruct (decide (p = 0%nat)) as [-> | Hnp].
    + rewrite Hp in H0. simplify_eq. congruence.
    + exists t0. by rewrite !list_lookup_insert_ne.
  - rewrite (count_if_insert _ _ _ _ _ Hp'), (count_if_insert _ _ _ _ _ Hi).
    assert (Hh : holds_map t = false) by (unfold holds_map; by rewrite Hpc).
    assert (Hhp : holds_map tp = false) by (unfold holds_map; by rewrite Hpcp).
    rewrite Hh, Hhp. cbn. lia.
Qed.

Lemma pending_nonneg (s : State F L) (i : nat) (t : Task L) :
  sync_inv s -> tasks s !! i = Some t -> 0 <= pending (pc t).
Proof.
  intros Hs Hi. rewrite <- (sync_live s Hs i t Hi). apply count_if_nonneg.
Qed.

Lemma sync_inv_step (mv : Move) (s s' : State F L) :
  sync_inv s -> run mv s = Some s' -> sync_inv s'.
Proof.
  intros Hs Hrun. run_inv Hrun.
  all: try match goal with
       | Hp : pc ?t = Wait ?c, Hi : tasks _ !! _ = Some ?t |- _ =>
           pose proof (pending_nonneg _ _ t Hs Hi) as Hnn; rewrite Hp in Hnn;
           simpl in Hnn
       end.
  all: try (eapply (sync_retag s _ _ _ _ Hs); [eassumption | reflexivity ..];
            fail).
  all: try (eapply (sync_retag s _ _ _ _ Hs);
            [ eassumption | reflexivity | reflexivity
            | match goal with Hp : pc _ = _ |- _ => by rewrite Hp end
            | first [by left | by right]
            | match goal with Hp : pc _ = _ |- _ => rewrite Hp end; simpl; lia
            | match goal with Hp : pc _ = _ |- _ => by rewrite Hp end
            | unfold holds_map; simpl;
              match goal with Hp : pc _ = _ |- _ => rewrite Hp end;
              destruct (mapAccess s); simpl; congruence ];
            fail).
  - (* line 93: the map is taken *)
    eapply (sync_retag s _ _ _ _ Hs);
      [ eassumption | reflexivity | reflexivity | by rewrite Heqp | by left
      | by rewrite Heqp | by rewrite Heqp | ].
    unfold holds_map. simpl. rewrite Heqp, Heqb. reflexivity.
  - (* line 105: the map is given back *)
    eapply (sync_retag s _ _ _ _ Hs);
      [ eassumption | reflexivity | reflexivity | by rewrite Heqp | by left
      | by rewrite Heqp | by rewrite Heqp | ].
    unfold holds_map. simpl. rewrite Heqp, Heqb. reflexivity.
  - eapply (sync_spawn s _ _ _ _ _ _ _ Hs);
      [eassumption | eassumption | reflexivity ..].
  - eapply (sync_signal s _ i owner t t0 count Hs); try eassumption; reflexivity.
  - destruct Hs as [Hpar Hlive Hkids Htop Hlock]. constructor; simpl; eauto.
Qed.

Lemma reachable_sync (s : State F L) : reach s -> sync_inv s.
Proof.
  apply reachable_ind; [apply sync_inv_init|].
  intros mv s1 s2 _. apply sync_inv_step.
Qed.

(** The buffer of [done] is empty until the root task has sent. *)
Lemma done_buf_step (mv : Move) (s s' : State F L) (t0' : Task L) :
  sync_inv s -> run mv s = Some s' ->
  tasks s' !! 0%nat = Some t0' -> pc t0' <> Returned ->
  done_buf s' = done_buf s /\
  exists t0, tasks s !! 0%nat = Some t0 /\ pc t0 <> Returned.
Proof.
  intros Hs Hrun H0 Hpc.
  assert (Hold : forall i t q (ts : list (Task L)),
            tasks s !! i = Some t -> pc t <> Returned ->
            (<[i := at_PC t q]> (tasks s) ++ ts) !! 0%nat = Some t0' ->
            exists t0, tasks s !! 0%nat = Some t0 /\ pc t0 <> Returned).
  { intros i t q ts Hi Hnr Hl. destruct i as [|i]; [by eauto|].
    pose proof (lookup_lt_Some _ _ _ Hi) as Hlt.
    rewrite lookup_app_l in Hl by (rewrite length_insert; lia).
    rewrite list_lookup_insert_ne in Hl by done. eauto. }
  run_inv Hrun; simpl in *;
    try (split; [reflexivity|];
         eapply (Hold _ _ _ []); [eassumption | by rewrite Heqp |];
         by rewrite app_nil_r).
  - (* a spawn *)
    split; [reflexivity|]. eapply Hold; [eassumption | by rewrite Heqp | eassumption].
  - (* the root task sends *)
    pose proof (sync_parent s Hs _ _ Heqo) as Hi. rewrite Heqc in Hi. subst.
    rewrite list_lookup_insert_eq in H0 by (by eapply lookup_lt_Some).
    by simplify_eq.
  - (* a rendezvous *)
    split; [reflexivity|].
    pose proof (sync_parent s Hs _ _ Heqo) as Hi. rewrite Heqc in Hi.
    destruct owner as [|owner]; [exists t0; split; [done | by rewrite Heqp0]|].
    rewrite list_lookup_insert_ne in H0 by done.
    rewrite list_lookup_insert_ne in H0 by lia. eauto.
  - (* the top-level receive *)
    by simplify_eq.
Qed.

Lemma reachable_done_buf (s : State F L) (t0 : Task L) :
  reach s -> tasks s !! 0%nat = Some t0 -> pc t0 <> Returned -> done_buf s = [].
Proof.
  intros Hr. revert t0. revert s Hr.
  apply (reachable_ind (fun s => forall t0, _ -> _ -> _)).
  - done.
  - intros mv s1 s2 Hr1 IH Hrun t0 H0 Hpc.
    destruct (done_buf_step mv s1 s2 t0 (reachable_sync s1 Hr1) Hrun H0 Hpc)
      as (-> & t1 & H1 & Hpc1).
    by eapply IH.
Qed.

(** A send is enabled as soon as its receiver is ready: for the root task
    at once, for another task when its parent waits at line 109. *)
Lemma send_enabled (s : State F L) (i : nat) (t : Task L) :
  reach s -> tasks s !! i = Some t -> pc t = Send ->
  match done t with
  | done_top => True
  | doneHere p => exists tp count, tasks s !! p = Some tp /\ pc tp = Wait count
  end ->
  is_Some (run (ByTask i) s).
Proof.
  intros Hr Hi Hpc Hrecv. pose proof (reachable_sync s Hr) as Hs.
  simpl. unfold Crawl_step. rewrite Hi, Hpc.
  destruct (done t) as [|p] eqn:Hd.
  - pose proof (sync_parent s Hs i t Hi) as H0. rewrite Hd in H0. subst i.
    rewrite (reachable_done_buf s t Hr Hi) by (by rewrite Hpc). by eexists.
  - destruct Hrecv as (tp & c & Hp & Hpcp). rewrite Hp, Hpcp.
    pose proof (sync_live s Hs p tp Hp) as Hl. rewrite Hpcp in Hl. simpl in Hl.
    pose proof (count_if_lookup (live_child p) _ _ _ Hi) as Hone.
    assert (Hlc : live_child p t = true).
    { unfold live_child, is_child. by rewrite bool_decide_eq_true_2, Hpc. }
    rewrite Hlc in Hone. simpl in Hone.
    assert (Hc : (c >? 0) = true) by (apply Z.gtb_lt; lia).
    rewrite Hc. by eexists.
Qed.

(** ** Deduplication *)

Lemma fmap_url_retag (ts : list (Task L)) (i : nat) (t : Task L) (q : PC L) :
  ts !! i = Some t -> url <$> <[i := at_PC t q]> ts = url <$> ts.
Proof.
  intros Hi. rewrite list_fmap_insert. simpl.
  apply list_insert_id. by rewrite list_lookup_fmap, Hi.
Qed.

Lemma dedup_inv_init : dedup_inv init.
Proof.
  constructor; simpl.
  - apply NoDup_singleton.
  - intros [|i] t Hi; simplify_eq/=. apply lookup_singleton_eq.
  - intros u b Hu. apply lookup_singleton_Some in Hu as [<- <-].
    split; [done|]. by exists 0%nat, (mkTask url0 depth0 done_top Start).
  - apply NoDup_nil_2.
  - intros u Hu. by apply elem_of_nil in Hu.
Qed.

Lemma dedup_retag (s s' : State F L) (i : nat) (t : Task L) (q : PC L) :
  dedup_inv s ->
  tasks s !! i = Some t ->
  tasks s' = <[i := at_PC t q]> (tasks s) ->
  history s' = history s ->
  calls s' = calls s ->
  (pc t <> Start -> q <> Start) ->
  dedup_inv s'.
Proof.
  intros [Hnd Hseen Hhist Hcalls Hcalled] Hi Hts Hh Hc Hq.
  constructor; rewrite ?Hts, ?Hh, ?Hc.
  - by rewrite fmap_url_retag.
  - intros j tj Hj.
    apply list_lookup_insert_Some in Hj as [(-> & <- & _) | (Hne & Hj)];
      [exact (Hseen _ _ Hi) | exact (Hseen _ _ Hj)].
  - intros u b Hu. destruct (Hhist u b Hu) as (Hb & j & tj & Hj & Hurl).
    split; [done|]. destruct (decide (i = j)) as [-> | Hne].
    + exists j, (at_PC t q). split; [|by simplify_eq].
      apply list_lookup_insert_eq. by eapply lookup_lt_Some.
    + exists j, tj. by rewrite list_lookup_insert_ne.
  - done.
  - intros u Hu. destruct (Hcalled u Hu) as (j & tj & Hj & Hurl & Hpc).
    destruct (decide (i = j)) as [-> | Hne].
    + exists j, (at_PC t q). simplify_eq. split; [|by auto].
      apply list_lookup_insert_eq. by eapply lookup_lt_Some.
    + exists j, tj. by rewrite list_lookup_insert_ne.
Qed.

(** Line 79: task [i] calls [Fetch]. *)
Lemma dedup_call (s s' : State F L) (i : nat) (t : Task L) (q : PC L) :
  dedup_inv s ->
  tasks s !! i = Some t ->
  pc t = Start ->
  q <> Start ->
  tasks s' = <[i := at_PC t q]> (tasks s) ->
  history s' = history s ->
  calls s' = calls s ++ [url t] ->
  dedup_inv s'.
Proof.
  intros Hs Hi Hpc Hq Hts Hh Hc.
  assert (Hfresh : url t ∉ calls s).
  { intros Hin. destruct (dedup_called s Hs _ Hin) as (j & tj & Hj & Hurl & Hne).
    assert (j = i); [|by simplify_eq].
    eapply (NoDup_lookup _ _ _ (url t) (dedup_tasks s Hs)).
    - by rewrite list_lookup_fmap, Hj, <- Hurl.
    - by rewrite list_lookup_fmap, Hi. }
  pose (s1 := mkState (fetcher s) (history s) (mapAccess s)
                (<[i := at_PC t q]> (tasks s)) (done_buf s) (returned s)
                (calls s) (links s)).
  assert (H1 : dedup_inv s1) by (by eapply (dedup_retag s s1 i t q)).
  destruct H1 as [Hnd Hseen Hhist Hcalls Hcalled]. simpl in *.
  constructor; rewrite ?Hts, ?Hh, ?Hc; try done.
  - apply NoDup_app. split; [done|]. split; [|apply NoDup_singleton].
    intros u Hu Hu'. apply list_elem_of_singleton in Hu'. by subst.
  - intros u Hu. apply elem_of_app in Hu as [Hu | Hu]; [by apply Hcalled|].
    apply list_elem_of_singleton in Hu as ->.
    exists i, (at_PC t q). split; [|done].
    apply list_lookup_insert_eq. by eapply lookup_lt_Some.
Qed.

(** Lines 97-101: [u] is not in the map; task [i] marks it and starts a
    goroutine for it. *)
Lemma dedup_spawn (s s' : State F L) (i : nat) (t : Task L) (q : PC L)
    (u : string) (d : Z) (c : chan) :
  dedup_inv s ->
  tasks s !! i = Some t ->
  pc t <> Start -> q <> Start ->
  seen (history s) u = false ->
  tasks s' = <[i := at_PC t q]> (tasks s) ++ [mkTask u d c Start] ->
  history s' = <[u := true]> (history s) ->
  calls s' = calls s ->
  dedup_inv s'.
Proof.
  intros Hs Hi Hpc Hq Hu Hts Hh Hc.
  assert (Hfresh : u ∉ url <$> tasks s).
  { intros Hin. apply list_elem_of_fmap in Hin as (tj & -> & Hin).
    apply list_elem_of_lookup in Hin as [j Hj].
    unfold seen in Hu. by rewrite (dedup_seen s Hs _ _ Hj) in Hu. }
  pose (s1 := mkState (fetcher s) (history s) (mapAccess s)
                (<[i := at_PC t q]> (tasks s)) (done_buf s) (returned s)
                (calls s) (links s)).
  assert (H1 : dedup_inv s1) by (by eapply (dedup_retag s s1 i t q); auto).
  assert (Hlen : length (<[i := at_PC t q]> (tasks s)) = length (tasks s))
    by apply length_insert.
  destruct H1 as [Hnd Hseen Hhist Hcalls Hcalled]. simpl in *.
  constructor; rewrite ?Hts, ?Hh, ?Hc; try done.
  - rewrite fmap_app. simpl. apply NoDup_app. split; [done|].
    split; [|apply NoDup_singleton].
    intros v Hv Hv'. apply list_elem_of_singleton in Hv'. subst.
    by rewrite fmap_url_retag in Hv.
  - intros j tj Hj. apply lookup_app_Some in Hj as [Hj | [Hge Hj]].
    + destruct (decide (u = url tj)) as [-> | Hne];
        [apply lookup_insert_eq | rewrite lookup_insert_ne by done; eauto].
    + apply list_lookup_singleton_Some in Hj as [_ <-]. simpl.
      apply lookup_insert_eq.
  - intros v b Hv. apply lookup_insert_Some in Hv as [[<- <-] | [Hne Hv]].
    + split; [done|]. exists (length (tasks s)), (mkTask u d c Start).
      split; [|done]. rewrite lookup_app_r by lia.
      by rewrite Hlen, Nat.sub_diag.
    + destruct (Hhist v b Hv) as (Hb & j & tj & Hj & Hurl).
      split; [done|]. exists j, tj. split; [|done]. by apply lookup_app_l_Some.
  - intros v Hv. destruct (Hcalled v Hv) as (j & tj & Hj & Hurl & Hn).
    exists j, tj. split; [|done]. by apply lookup_app_l_Some.
Qed.

Lemma dedup_inv_step (mv : Move) (s s' : State F L) :
  dedup_inv s -> run mv s = Some s' -> dedup_inv s'.
Proof.
  intros Hs Hrun. run_inv Hrun.
  all: try (eapply (dedup_retag s _ _ _ _ Hs);
            [eassumption | reflexivity | reflexivity | reflexivity | done]; fail).
  - eapply (dedup_call s _ i t (Fetching (Fetch_begin (url t))) Hs);
      [done | done | done | reflexivity ..].
  - eapply (dedup_spawn s _ i t (Range l (count + 1)) _ _ _ Hs);
      [done | by rewrite Heqp | done | eassumption | reflexivity ..].
  - pose (s1 := with_tasks s (<[i := at_PC t Returned]> (tasks s))).
    assert (H1 : dedup_inv s1) by (by eapply (dedup_retag s s1 i t Returned)).
    eapply (dedup_retag s1 _ owner t0 _ H1); [|reflexivity ..|done].
    simpl. rewrite list_lookup_insert_ne; [done|].
    intros ->. simplify_eq. congruence.
  - destruct Hs. by constructor.
Qed.

Lemma reachable_dedup (s : State F L) : reach s -> dedup_inv s.
Proof.
  apply reachable_ind; [apply dedup_inv_init|].
  intros mv s1 s2 _. apply dedup_inv_step.
Qed.

(** ** Depth *)

Abbreviation depth_ok := (depth_inv url0 depth0).

Lemma hops_mono (lk lk' : list (string * list string)) (k : nat) (u : string) :
  (forall x, x ∈ lk -> x ∈ lk') -> hops lk url0 k u -> hops lk' url0 k u.
Proof.
  intros Hsub Hh. induction Hh as [|k p us u _ IH Hin Hu].
  - constructor.
  - by apply (hops_S lk' url0 k p us u); [|apply Hsub|].
Qed.

Lemma depth_inv_init : depth_ok init.
Proof.
  constructor; simpl.
  - intros [|i] t Hi; simplify_eq/=. exists 0%nat. split; [constructor | lia].
  - intros [|i] t Hi; simplify_eq/=. done.
  - intros [|i] t u Hi; simplify_eq/=. intros Hu. by apply elem_of_nil in Hu.
  - intros u Hu. by apply elem_of_nil in Hu.
  - intros p us Hp. by apply elem_of_nil in Hp.
  - intros [|i] t p Hi; simplify_eq/=. done.
Qed.

(** Task [i] moves to [q]; [calls] and [links] may grow. *)
Lemma depth_retag (s s' : State F L) (i : nat) (t : Task L) (q : PC L) :
  depth_ok s ->
  tasks s !! i = Some t ->
  tasks s' = <[i := at_PC t q]> (tasks s) ->
  (forall x, x ∈ links s -> x ∈ links s') ->
  (forall x, x ∈ calls s -> x ∈ calls s') ->
  (forall x, x ∈ calls s' -> x ∈ calls s \/ x = url t /\ 0 < depth t) ->
  (forall p us, (p, us) ∈ links s' ->
     (p, us) ∈ links s \/ p = url t /\ has_fetched (pc t) = true) ->
  (has_fetched q = true -> 0 < depth t /\ url t ∈ calls s') ->
  (forall u, u ∈ to_visit q -> exists us, (url t, us) ∈ links s' /\ u ∈ us) ->
  depth_ok s'.
Proof.
  intros [Hhops Hpos Hurls Hcalls Hlinks Hchild] Hi Hts Hlk Hcl Hcl' Hlk' Hq Hv.
  assert (Hin : <[i := at_PC t q]> (tasks s) !! i = Some (at_PC t q)).
  { apply list_lookup_insert_eq. by eapply lookup_lt_Some. }
  constructor; rewrite ?Hts.
  - intros j tj Hj.
    apply list_lookup_insert_Some in Hj as [(-> & <- & _) | (Hne & Hj)]; simpl.
    + destruct (Hhops _ _ Hi) as (k & Hk & Hd). exists k. eauto using hops_mono.
    + destruct (Hhops _ _ Hj) as (k & Hk & Hd). exists k. eauto using hops_mono.
  - intros j tj Hj Hf.
    apply list_lookup_insert_Some in Hj as [(-> & <- & _) | (Hne & Hj)]; simpl.
    + by apply Hq.
    + destruct (Hpos _ _ Hj Hf). auto.
  - intros j tj u Hj Hu.
    apply list_lookup_insert_Some in Hj as [(-> & <- & _) | (Hne & Hj)]; simpl.
    + by apply Hv.
    + destruct (Hurls _ _ _ Hj Hu) as (us & Hus & Hin'). exists us. auto.
  - intros u Hu. destruct (Hcl' u Hu) as [Hu' | [-> Hd]].
    + destruct (Hcalls u Hu') as (j & tj & Hj & Hurl & Hd).
      destruct (decide (i = j)) as [-> | Hne].
      * exists j, (at_PC t q). by simplify_eq.
      * exists j, tj. by rewrite list_lookup_insert_ne.
    + by exists i, (at_PC t q).
  - intros p us Hp. destruct (Hlk' p us Hp) as [Hp' | [-> Hf]].
    + eauto.
    + apply Hcl. by apply (Hpos _ _ Hi).
  - intros j tj p Hj Hd.
    assert (exists tj', tasks s !! j = Some tj' /\ done tj' = doneHere p
                        /\ depth tj' = depth tj) as (tj' & Hj' & Hd' & Hdep).
    { apply list_lookup_insert_Some in Hj as [(-> & <- & _) | (Hne & Hj)]; eauto. }
    destruct (Hchild _ _ _ Hj' Hd') as (tp & Hp & Hdp & Hpos').
    destruct (decide (i = p)) as [-> | Hne].
    + exists (at_PC t q). simplify_eq. split; [done|]. simpl. split; [lia | done].
    + exists tp. rewrite list_lookup_insert_ne by done. split; [done|]. split; [lia|done].
Qed.

(** Lines 97-101. *)
Lemma depth_spawn (s s' : State F L) (i : nat) (t : Task L)
    (u : string) (rest : list string) (c c' : Z) :
  depth_ok s ->
  tasks s !! i = Some t ->
  pc t = Range (u :: rest) c ->
  tasks s' = <[i := at_PC t (Range rest c')]> (tasks s)
               ++ [mkTask u (depth t - 1) (doneHere i) Start] ->
  links s' = links s ->
  calls s' = calls s ->
  depth_ok s'.
Proof.
  intros Hs Hi Hpc Hts Hlk Hcl.
  pose (s1 := mkState (fetcher s) (history s) (mapAccess s)
                (<[i := at_PC t (Range rest c')]> (tasks s)) (done_buf s)
                (returned s) (calls s) (links s)).
  assert (Hf : has_fetched (pc t) = true) by (by rewrite Hpc).
  destruct (depth_pos _ _ _ Hs _ _ Hi Hf) as [Hpos Hcalled].
  destruct (depth_hops _ _ _ Hs _ _ Hi) as (k & Hk & Hd).
  destruct (depth_urls _ _ _ Hs i t u Hi) as (us & Hus & Hu).
  { rewrite Hpc. simpl. apply list_elem_of_here. }
  assert (H1 : depth_ok s1).
  { eapply (depth_retag s s1 i t _ Hs); simpl; eauto.
    intros v Hv. apply (depth_urls _ _ _ Hs i t v Hi).
    rewrite Hpc. simpl. by apply list_elem_of_further. }
  assert (Hin : tasks s1 !! i = Some (at_PC t (Range rest c'))).
  { apply list_lookup_insert_eq. by eapply lookup_lt_Some. }
  destruct H1 as [Hhops1 Hpos1 Hurls1 Hcalls1 Hlinks1 Hchild1]. simpl in *.
  constructor; rewrite ?Hts, ?Hlk, ?Hcl; try done.
  - intros j tj Hj. apply lookup_app_Some in Hj as [Hj | [Hge Hj]]; [eauto|].
    apply list_lookup_singleton_Some in Hj as [_ <-]. simpl.
    exists (S k). split; [by apply (hops_S _ _ k (url t) us u) | lia].
  - intros j tj Hj Hfj. apply lookup_app_Some in Hj as [Hj | [Hge Hj]]; [eauto|].
    apply list_lookup_singleton_Some in Hj as [_ <-]. done.
  - intros j tj v Hj Hv. apply lookup_app_Some in Hj as [Hj | [Hge Hj]]; [eauto|].
    apply list_lookup_singleton_Some in Hj as [_ <-]. by apply elem_of_nil in Hv.
  - intros v Hv. destruct (Hcalls1 v Hv) as (j & tj & Hj & Hurl & Hdj).
    exists j, tj. split; [|done]. by apply lookup_app_l_Some.
  - intros j tj p Hj Hdj. apply lookup_app_Some in Hj as [Hj | [Hge Hj]].
    + destruct (Hchild1 _ _ _ Hj Hdj) as (tp & Hp & Hdp).
      exists tp. split; [|done]. by apply lookup_app_l_Some.
    + apply list_lookup_singleton_Some in Hj as [_ <-]. simpl in *. simplify_eq.
      exists (at_PC t (Range rest c')). split; [by apply lookup_app_l_Some|].
      simpl. split; [lia | done].
Qed.

Lemma depth_retag_same (s s' : State F L) (i : nat) (t : Task L) (q : PC L) :
  depth_ok s ->
  tasks s !! i = Some t ->
  tasks s' = <[i := at_PC t q]> (tasks s) ->
  links s' = links s ->
  calls s' = calls s ->
  (has_fetched q = true -> has_fetched (pc t) = true) ->
  (forall u, u ∈ to_visit q -> u ∈ to_visit (pc t)) ->
  depth_ok s'.
Proof.
  intros Hs Hi Hts Hlk Hcl Hq Hv.
  eapply (depth_retag s s' i t q Hs); rewrite ?Hlk, ?Hcl; auto.
  - intros Hf. apply (depth_pos _ _ _ Hs _ _ Hi). auto.
  - intros u Hu. apply (depth_urls _ _ _ Hs i t u Hi). auto.
Qed.

Lemma depth_inv_step (mv : Move) (s s' : State F L) :
  depth_ok s -> run mv s = Some s' -> depth_ok s'.
Proof.
  intros Hs Hrun. run_inv Hrun.
  all: try (eapply (depth_retag_same s _ _ _ _ Hs);
            [ eassumption | reflexivity | reflexivity | reflexivity
            | match goal with Hp : pc _ = _ |- _ => by rewrite Hp end
            | match goal with Hp : pc _ = _ |- _ => rewrite Hp end; simpl;
              intros u Hu;
              first [done | by apply elem_of_nil in Hu
                    | by apply list_elem_of_further] ];
            fail).
  - (* line 79: the call *)
    eapply (depth_retag s _ i t _ Hs); [done | reflexivity | simpl ..].
    + auto.
    + intros x Hx. apply elem_of_app. auto.
    + intros x Hx. apply elem_of_app in Hx as [Hx | Hx]; [auto|].
      apply list_elem_of_singleton in Hx. right. split; [done | lia].
    + auto.
    + intros _. split; [lia|]. apply elem_of_app. right. apply list_elem_of_here.
    + intros u Hu. by apply elem_of_nil in Hu.
  - (* line 79: the call returns without error *)
    eapply (depth_retag s _ i t _ Hs); [done | reflexivity | simpl ..].
    + intros x Hx. apply elem_of_app. auto.
    + auto.
    + auto.
    + intros p us Hp. apply elem_of_app in Hp as [Hp | Hp]; [auto|].
      apply list_elem_of_singleton in Hp. simplify_eq. right. by rewrite Heqp.
    + intros _. apply (depth_pos _ _ _ Hs _ _ Heqo). by rewrite Heqp.
    + intros u Hu. exists (default [] o). split; [|done].
      apply elem_of_app. right. apply list_elem_of_here.
  - eapply (depth_spawn s _ i t _ _ _ _ Hs); [done | done | reflexivity ..].
  - pose (s1 := with_tasks s (<[i := at_PC t Returned]> (tasks s))).
    assert (H1 : depth_ok s1).
    { eapply (depth_retag_same s s1 i t Returned Hs); try done.
      intros u Hu. by apply elem_of_nil in Hu. }
    eapply (depth_retag_same s1 _ owner t0 _ H1); [|reflexivity ..| |].
    + simpl. rewrite list_lookup_insert_ne; [done|].
      intros ->. simplify_eq. congruence.
    + match goal with Hp : pc t0 = _ |- _ => by rewrite Hp end.
    + intros u Hu. by apply elem_of_nil in Hu.
  - destruct Hs. by constructor.
Qed.

Lemma reachable_depth (s : State F L) : reach s -> depth_ok s.
Proof.
  apply reachable_ind; [apply depth_inv_init|].
  intros mv s1 s2 _. apply depth_inv_step.
Qed.

(** ** The properties of the crawler *)

(** C1.  Fan-in barrier.  In every state of an invocation of the top-level
    [Crawl], the [count] of a task is the number of its children that have
    not yet sent their completion signal, and until the task releases the
    map it is the number of all children it has spawned; a task that is
    sending or has sent its own signal has no such child left; and when the
    top-level [Crawl] has returned, every task that was ever spawned has
    sent its completion signal. *)
Theorem Crawl_barrier (s : State F L) :
  reach s ->
  (forall p tp, tasks s !! p = Some tp ->
     pending (pc tp) = count_if (live_child p) (tasks s)) /\
  (forall p tp, tasks s !! p = Some tp -> may_spawn (pc tp) = true ->
     pending (pc tp) = count_if (is_child p) (tasks s)) /\
  (forall p tp i t, tasks s !! p = Some tp -> pc tp = Send \/ pc tp = Returned ->
     tasks s !! i = Some t -> done t = doneHere p -> pc t = Returned) /\
  (returned s = true -> forall i t, tasks s !! i = Some t -> pc t = Returned).
Proof.
  intros Hr. pose proof (reachable_sync s Hr) as Hs.
  assert (Hjoin : forall p tp i t, tasks s !! p = Some tp ->
            pc tp = Send \/ pc tp = Returned ->
            tasks s !! i = Some t -> done t = doneHere p -> pc t = Returned).
  { intros p tp i t Hp Hpc Hi Hd.
    pose proof (sync_live s Hs p tp Hp) as Hl.
    assert (Hz : pending (pc tp) = 0) by (by destruct Hpc as [-> | ->]).
    rewrite Hz in Hl. pose proof (count_if_zero _ _ _ _ Hl Hi) as Hc.
    unfold live_child, is_child in Hc.
    rewrite bool_decide_eq_true_2 in Hc by done. simpl in Hc.
    destruct (pc t); simpl in Hc; done. }
  split; [|split; [|split]].
  - intros p tp Hp. symmetry. by apply (sync_live s Hs).
  - intros p tp Hp Hm. symmetry. by apply (sync_kids s Hs).
  - exact Hjoin.
  - intros Hret i. induction i as [i IH] using lt_wf_ind. intros t Hi.
    destruct (sync_top s Hs Hret) as (t0 & H0 & Hp0).
    pose proof (sync_parent s Hs i t Hi) as Hpar.
    destruct (done t) as [|p] eqn:Hd.
    + subst i. by simplify_eq.
    + destruct (lookup_lt_is_Some_2 (tasks s) p) as [tp Hp].
      { apply lookup_lt_Some in Hi. lia. }
      eapply (Hjoin p tp i t); eauto.
Qed.

(** C2.  No URL is fetched twice.  In every state of an invocation, the
    URLs [Fetch] was called with are pairwise distinct and the start URL is
    marked in the history map; and whenever a step starts a new task, it is
    a step of a task that holds the map (the channel slot is empty and no
    other task holds it), the URL of the new task was not marked before the
    step and is marked after it. *)
Theorem Crawl_fetch_once (s : State F L) :
  reach s ->
  NoDup (calls s) /\
  history s !! url0 = Some true /\
  (forall mv s' j t,
     run mv s = Some s' -> tasks s !! j = None -> tasks s' !! j = Some t ->
     seen (history s) (url t) = false /\
     history s' !! url t = Some true /\
     exists i ti rest c,
       mv = ByTask i /\ tasks s !! i = Some ti /\
       pc ti = Range (url t :: rest) c /\
       mapAccess s = false /\
       forall k tk, tasks s !! k = Some tk -> holds_map tk = true -> k = i).
Proof.
  intros Hr. pose proof (reachable_dedup s Hr) as Hd.
  pose proof (reachable_sync s Hr) as Hs.
  split; [exact (dedup_calls s Hd)|]. split.
  { clear Hd Hs. revert s Hr. apply reachable_ind.
    - apply lookup_singleton_eq.
    - intros mv s1 s2 _ IH Hrun. run_inv Hrun; simpl; try done.
      destruct (decide (s = url0)) as [-> | Hne];
        [apply lookup_insert_eq | by rewrite lookup_insert_ne]. }
  intros mv s' j t Hrun Hnone Hj.
  assert (Hlen : forall (ts : list (Task L)) k x, length (<[k := x]> ts) = length ts)
    by (intros; apply length_insert).
  apply lookup_ge_None in Hnone.
  run_inv Hrun; simpl in Hj;
    try (apply lookup_lt_Some in Hj; rewrite ?Hlen in Hj; lia).
  apply lookup_app_Some in Hj as [Hj | [Hge Hj]];
    [apply lookup_lt_Some in Hj; rewrite ?Hlen in Hj; lia|].
  apply list_lookup_singleton_Some in Hj as [_ <-]. simpl.
  split; [done|]. split; [apply lookup_insert_eq|].
  exists i, t0, l, count. split; [done|]. split; [done|]. split; [done|].
  pose proof (sync_lock s Hs) as Hlock.
  assert (Hh : holds_map t0 = true) by (unfold holds_map; by rewrite Heqp).
  pose proof (count_if_lookup holds_map _ _ _ Heqo) as Hone. rewrite Hh in Hone.
  split.
  - destruct (mapAccess s); simpl in *; [lia | done].
  - intros k tk Hk Hhk. destruct (decide (k = i)) as [|Hne]; [done|].
    pose proof (count_if_two holds_map _ _ _ _ _ Hk Heqo Hne) as Htwo.
    rewrite Hh, Hhk in Htwo. destruct (mapAccess s); simpl in *; lia.
Qed.

(** C3.  Depth bound.  In every state of an invocation with depth
    [depth0]: a URL [Fetch] was called with is [k] links away from the
    start URL for some [k < depth0]; a URL returned by a call of [Fetch],
    and the URL of a spawned task, is [k] links away for some
    [k <= depth0]; the remaining depth of a task at [k] links is
    [depth0 - k], one less than the depth of the task that spawned it; and
    a task with remaining depth [<= 0] goes to its completion signal
    without calling [Fetch]. *)
Theorem Crawl_depth_bound (s : State F L) :
  reach s ->
  (forall u, u ∈ calls s ->
     exists k, hops (links s) url0 k u /\ Z.of_nat k < depth0) /\
  (forall p us u, (p, us) ∈ links s -> u ∈ us ->
     exists k, hops (links s) url0 k u /\ Z.of_nat k <= depth0) /\
  (forall i t, tasks s !! i = Some t ->
     exists k, hops (links s) url0 k (url t) /\ depth t = depth0 - Z.of_nat k /\
               (i <> 0%nat -> Z.of_nat k <= depth0)) /\
  (forall i t p, tasks s !! i = Some t -> done t = doneHere p ->
     exists tp, tasks s !! p = Some tp /\ depth t = depth tp - 1) /\
  (forall i t, tasks s !! i = Some t -> pc t = Start -> depth t <= 0 ->
     exists s', run (ByTask i) s = Some s' /\ calls s' = calls s /\
                tasks s' = <[i := at_PC t Send]> (tasks s)).
Proof.
  intros Hr. pose proof (reachable_depth s Hr) as Hd.
  pose proof (reachable_sync s Hr) as Hs.
  pose proof (reachable_dedup s Hr) as Hdd.
  assert (Hcalls : forall u, u ∈ calls s ->
            exists k, hops (links s) url0 k u /\ Z.of_nat k < depth0).
  { intros u Hu. destruct (depth_calls _ _ _ Hd u Hu) as (i & t & Hi & <- & Hpos).
    destruct (depth_hops _ _ _ Hd i t Hi) as (k & Hk & Hdk).
    exists k. split; [done | lia]. }
  split; [exact Hcalls|]. split; [|split; [|split]].
  - intros p us u Hp Hu.
    destruct (Hcalls p (depth_links _ _ _ Hd p us Hp)) as (k & Hk & Hlt).
    exists (S k). split; [by apply (hops_S _ _ k p us u) | lia].
  - intros i t Hi. destruct (depth_hops _ _ _ Hd i t Hi) as (k & Hk & Hdk).
    exists k. split; [done|]. split; [lia|]. intros Hne.
    pose proof (sync_parent s Hs i t Hi) as Hpar.
    destruct (done t) as [|p] eqn:Hdone; [done|].
    destruct (depth_child _ _ _ Hd i t p Hi Hdone) as (tp & Hp & Hdp & Hpos). lia.
  - intros i t p Hi Hdone.
    destruct (depth_child _ _ _ Hd i t p Hi Hdone) as (tp & Hp & Hdp & Hpos).
    by exists tp.
  - intros i t Hi Hpc Hle. simpl. unfold Crawl_step. rewrite Hi, Hpc.
    assert (Hb : (depth t <=? 0) = true) by (apply Z.leb_le; lia).
    rewrite Hb. eexists. split; [reflexivity|]. done.
Qed.

(** When the top-level [Crawl] has returned, every task has. *)
Lemma returned_all (s : State F L) :
  reach s -> returned s = true ->
  forall i t, tasks s !! i = Some t -> pc t = Returned.
Proof.
  intros Hr Hret. pose proof (reachable_sync s Hr) as Hs.
  intros i. induction i as [i IH] using lt_wf_ind. intros t Hi.
  destruct (sync_top s Hs Hret) as (t0 & H0 & Hp0).
  pose proof (sync_parent s Hs i t Hi) as Hpar.
  destruct (done t) as [|p] eqn:Hd; [subst i; by simplify_eq|].
  destruct (lookup_lt_is_Some_2 (tasks s) p) as [tp Hp].
  { apply lookup_lt_Some in Hi. lia. }
  pose proof (sync_live s Hs p tp Hp) as Hl.
  rewrite (IH p Hpar tp Hp) in Hl. simpl in Hl.
  pose proof (count_if_zero _ _ _ _ Hl Hi) as Hc.
  unfold live_child, is_child in Hc.
  rewrite bool_decide_eq_true_2 in Hc by done.
  by destruct (pc t).
Qed.

(** A task that is at its completion signal and has no child never gets
    one: from then on it is at the signal or has returned. *)
Lemma leaf_step (i : nat) (t : Task L) (mv : Move) (sa sb : State F L) :
  is_leaf i t sa -> run mv sa = Some sb -> is_leaf i t sb.
Proof.
  intros (Hra & Hka & Hta) Hab.
  split; [by eapply reachable_step|].
  pose proof (reachable_sync sa Hra) as Hsa.
  assert (Hmine : forall j tj, tasks sa !! j = Some tj -> j = i ->
            tj = at_PC t Send \/ tj = at_PC t Returned).
  { intros j tj Hj ->. destruct Hta as [Hta | Hta]; rewrite Hta in Hj;
      simplify_eq; auto. }
  assert (Hkeep : forall j tj q, tasks sa !! j = Some tj ->
            (j = i -> q = Returned) ->
            <[j := at_PC tj q]> (tasks sa) !! i = Some (at_PC t Send) \/
            <[j := at_PC tj q]> (tasks sa) !! i = Some (at_PC t Returned)).
  { intros j tj q Hj Hq. destruct (decide (j = i)) as [-> | Hne].
    - rewrite (Hq eq_refl), list_lookup_insert_eq by (by eapply lookup_lt_Some).
      right. by destruct (Hmine _ _ Hj eq_refl) as [-> | ->].
    - by rewrite list_lookup_insert_ne. }
  run_inv Hab; simpl in *;
    try (split;
         [ rewrite ?(count_if_insert _ _ _ _ _ Heqo), ?is_child_at_PC; lia
         | first [ done
                 | apply (Hkeep _ _ _ Heqo); intros Hi0;
                   by destruct (Hmine _ _ Heqo Hi0) as [-> | ->] ] ]; fail).
  - (* a spawn by another task *)
    split.
    + rewrite count_if_app, (count_if_insert _ _ _ _ _ Heqo), is_child_at_PC.
      unfold is_child in *. simpl.
      rewrite (bool_decide_eq_false_2 (doneHere i0 = doneHere i)); [simpl; lia|].
      intros Hi0. simplify_eq. by destruct (Hmine _ _ Heqo eq_refl) as [-> | ->].
    + assert (Hk := Hkeep _ _ (Range l (count + 1)) Heqo).
      destruct Hk as [Hk | Hk]; [| left | right];
        try (by apply lookup_app_l_Some).
      intros Hi0. by destruct (Hmine _ _ Heqo Hi0) as [-> | ->].
  - (* a rendezvous *)
    assert (Hlt := sync_parent sa Hsa i0 t0 Heqo). rewrite Heqc in Hlt.
    assert (Hio : i <> owner).
    { intros <-. by destruct (Hmine _ _ Heqo0 eq_refl) as [-> | ->]. }
    split.
    + rewrite (count_if_insert _ _ _ t1), (count_if_insert _ _ _ _ _ Heqo),
        !is_child_at_PC; [lia|].
      rewrite list_lookup_insert_ne; [done | lia].
    + rewrite !(list_lookup_insert_ne _ owner) by done.
      apply (Hkeep _ _ _ Heqo). done.
Qed.

(** The call of [Fetch] of task [i] returns an error: the task becomes a
    leaf. *)
Lemma leaf_after_error (s s1 : State F L) (i : nat) (t : Task L) (fr : L) :
  reach s -> reach s1 ->
  tasks s !! i = Some t ->
  pc t = Fetching fr ->
  tasks s1 = <[i := at_PC t Send]> (tasks s) ->
  is_leaf i t s1.
Proof.
  intros Hr Hr1 Hi Hpc Hts. split; [done|]. rewrite Hts. split.
  - pose proof (reachable_sync s Hr) as Hs.
    assert (Hm : may_spawn (pc t) = true) by (by rewrite Hpc).
    pose proof (sync_kids s Hs i t Hi Hm) as Hk. rewrite Hpc in Hk. simpl in Hk.
    rewrite (count_if_insert _ _ _ _ _ Hi), is_child_at_PC, Hk. lia.
  - left. apply list_lookup_insert_eq. by eapply lookup_lt_Some.
Qed.

(** The only step of a leaf is the send of its signal: [true] is put in
    the buffer of [done] (the root task), or handed to the parent, which is
    waiting at line 109 and has one signal less to wait for. *)
Lemma leaf_sends (i : nat) (t : Task L) (s2 s3 : State F L) :
  is_leaf i t s2 -> run (ByTask i) s2 = Some s3 ->
  tasks s3 !! i = Some (at_PC t Returned) /\ history s3 = history s2 /\
  fetcher s3 = fetcher s2 /\
  match done t with
  | done_top => done_buf s3 = done_buf s2 ++ [true]
  | doneHere p =>
      done_buf s3 = done_buf s2 /\
      exists tp count,
        tasks s2 !! p = Some tp /\ pc tp = Wait count /\ 0 < count /\
        tasks s3 !! p = Some (at_PC tp (Wait (count - 1)))
  end.
Proof.
  intros (Hr2 & Hk2 & Ht2) H23. simpl in H23. unfold Crawl_step in H23.
  destruct Ht2 as [Ht2 | Ht2]; rewrite Ht2 in H23; simpl in H23; [|done].
  assert (Hlk : forall ts : list (Task L), (i < length ts)%nat ->
            <[i := at_PC (at_PC t Send) Returned]> ts !! i
            = Some (at_PC t Returned)).
  { intros ts Hlt. by rewrite list_lookup_insert_eq. }
  pose proof (lookup_lt_Some _ _ _ Ht2) as Hlt.
  destruct (done t) as [|p] eqn:Hdone.
  - destruct (length (done_buf s2) <? 1)%nat; simplify_eq. simpl. auto.
  - destruct (tasks s2 !! p) as [tp|] eqn:Hp; [|done].
    destruct (pc tp) eqn:Hpcp; try done.
    destruct (count >? 0) eqn:Hc; simplify_eq. simpl.
    pose proof (reachable_sync s2 Hr2) as Hs2.
    pose proof (sync_parent s2 Hs2 i _ Ht2) as Hpar. simpl in Hpar.
    rewrite Hdone in Hpar.
    split; [rewrite list_lookup_insert_ne by lia; by apply Hlk|].
    do 3 (split; [done|]). exists tp, count. split; [done|]. split; [done|].
    split; [lia|]. apply list_lookup_insert_eq.
    rewrite length_insert. by eapply lookup_lt_Some.
Qed.

(** A task that holds the map goes through the rest of its links, gives
    the map back and waits at line 109, whatever the other tasks do;
    the tasks that were there are as before. *)
Lemma holder_releases (rest : list string) (s : State F L) (p : nat)
    (tp : Task L) (c : Z) :
  reach s -> tasks s !! p = Some tp -> pc tp = Range rest c ->
  exists sched s' c',
    exec sched s = Some s' /\
    tasks s' !! p = Some (at_PC tp (Wait c')) /\
    forall j tj, j <> p -> tasks s !! j = Some tj -> tasks s' !! j = Some tj.
Proof.
  revert s tp c. induction rest as [|u rest IH]; intros s tp c Hr Hp Hpc.
  - pose proof (sync_lock s (reachable_sync s Hr)) as Hlock.
    assert (Hh : holds_map tp = true) by (unfold holds_map; by rewrite Hpc).
    pose proof (count_if_lookup holds_map _ _ _ Hp) as Hone. rewrite Hh in Hone.
    assert (Hm : mapAccess s = false)
      by (destruct (mapAccess s); simpl in *; [lia | done]).
    exists [ByTask p]. eexists. exists c. simpl. unfold Crawl_step.
    rewrite Hp, Hpc, Hm. split; [reflexivity|]. simpl. split.
    + apply list_lookup_insert_eq. by eapply lookup_lt_Some.
    + intros j tj Hj Htj. by rewrite list_lookup_insert_ne.
  - assert (Hpp : forall q, <[p := at_PC tp q]> (tasks s) !! p = Some (at_PC tp q)).
    { intros q. apply list_lookup_insert_eq. by eapply lookup_lt_Some. }
    destruct (seen (history s) u) eqn:Hseen.
    + assert (Hrun : run (ByTask p) s = Some (move s p tp (Range rest c))).
      { simpl. unfold Crawl_step. by rewrite Hp, Hpc, Hseen. }
      destruct (IH (move s p tp (Range rest c)) (at_PC tp (Range rest c)) c)
        as (sched & s' & c' & Hex & Hp' & Hkeep).
      * by eapply reachable_step.
      * apply Hpp.
      * done.
      * exists (ByTask p :: sched), s', c'. split; [|split; [exact Hp'|]].
        { change (exec (ByTask p :: sched) s)
            with (match run (ByTask p) s with
                  | Some s1 => exec sched s1 | None => None end).
          by rewrite Hrun. }
        intros j tj Hj Htj. apply Hkeep; [done|].
        simpl. by rewrite list_lookup_insert_ne.
    + set (s1 := mkState (fetcher s) (<[u := true]> (history s)) (mapAccess s)
                   (<[p := at_PC tp (Range rest (c + 1))]> (tasks s)
                    ++ [mkTask u (depth tp - 1) (doneHere p) Start])
                   (done_buf s) (returned s) (calls s) (links s)).
      assert (Hrun : run (ByTask p) s = Some s1).
      { simpl. unfold Crawl_step. by rewrite Hp, Hpc, Hseen. }
      destruct (IH s1 (at_PC tp (Range rest (c + 1))) (c + 1))
        as (sched & s' & c' & Hex & Hp' & Hkeep).
      * by eapply reachable_step.
      * simpl. apply lookup_app_l_Some. apply Hpp.
      * done.
      * exists (ByTask p :: sched), s', c'. split; [|split; [exact Hp'|]].
        { change (exec (ByTask p :: sched) s)
            with (match run (ByTask p) s with
                  | Some s1 => exec sched s1 | None => None end).
          by rewrite Hrun. }
        intros j tj Hj Htj. apply Hkeep; [done|].
        simpl. apply lookup_app_l_Some. by rewrite list_lookup_insert_ne.
Qed.

(** A leaf that is at its completion signal can send it: the root task
    at once, another task once its parent, which holds the map or waits
    at line 109, waits at line 109. *)
Lemma leaf_can_send (i : nat) (t : Task L) (s2 : State F L) :
  is_leaf i t s2 -> tasks s2 !! i = Some (at_PC t Send) ->
  exists sched s3,
    exec sched s2 = Some s3 /\ tasks s3 !! i = Some (at_PC t Returned).
Proof.
  intros H2 Hi2. pose proof H2 as (Hr2 & _ & _).
  pose proof (reachable_sync s2 Hr2) as Hs2.
  assert (Hsend : forall s, is_leaf i t s -> tasks s !! i = Some (at_PC t Send) ->
            (match done t with
             | done_top => True
             | doneHere p =>
                 exists tp count, tasks s !! p = Some tp /\ pc tp = Wait count
             end) ->
            exists s3, exec [ByTask i] s = Some s3 /\
                       tasks s3 !! i = Some (at_PC t Returned)).
  { intros s Hl Hi Hrecv. pose proof Hl as (Hr & _ & _).
    destruct (send_enabled s i (at_PC t Send) Hr Hi eq_refl Hrecv) as [s3 H3].
    exists s3. simpl. simpl in H3. rewrite H3. split; [done|].
    by destruct (leaf_sends i t s s3 Hl H3) as (? & _). }
  destruct (done t) as [|p] eqn:Hd.
  { destruct (Hsend s2 H2 Hi2) as (s3 & ? & ?); [done|]. by exists [ByTask i], s3. }
  pose proof (sync_parent s2 Hs2 i _ Hi2) as Hpar. simpl in Hpar. rewrite Hd in Hpar.
  destruct (lookup_lt_is_Some_2 (tasks s2) p) as [tp Hp].
  { apply lookup_lt_Some in Hi2. lia. }
  pose proof (sync_live s2 Hs2 p tp Hp) as Hl.
  pose proof (count_if_lookup (live_child p) _ _ _ Hi2) as Hone.
  unfold live_child at 1, is_child in Hone. simpl in Hone.
  rewrite bool_decide_eq_true_2 in Hone by done. simpl in Hone.
  destruct (pc tp) as [| | |rest c|c| |] eqn:Hpp; simpl in Hl; try lia.
  - destruct (holder_releases rest s2 p tp c Hr2 Hp Hpp)
      as (sched & s' & c' & Hex & Hp' & Hkeep).
    assert (Hl' : is_leaf i t s')
      by exact (exec_ind (is_leaf i t) (leaf_step i t) sched s2 s' H2 Hex).
    assert (Hi' : tasks s' !! i = Some (at_PC t Send)) by (apply Hkeep; [lia | done]).
    destruct (Hsend s' Hl' Hi') as (s3 & H3 & Hi3).
    { by exists (at_PC tp (Wait c')), c'. }
    exists (sched ++ [ByTask i]), s3. by rewrite exec_app, Hex.
  - destruct (Hsend s2 H2 Hi2) as (s3 & ? & ?).
    { by exists tp, c. }
    by exists [ByTask i], s3.
Qed.

(** C6.  A failed fetch makes a leaf.  When the step of a task is the
    return of its call of [Fetch] with an error, the task goes to its
    completion signal; the step changes nothing but the program point of
    the task and what the call itself wrote in the memory of the fetcher:
    the history map, the other tasks and the channels are as before, and
    nothing records the error.  From then on the task never has a child,
    and its only step is the send of its signal: the step puts [true] in
    the buffer of [done] when the task is the root, and otherwise hands
    it to the parent, which is waiting at line 109 and from then on waits
    for one signal less; it leaves the history map as it is, and after it
    the task has returned.  The send can be made as soon as the receiver
    is ready (at once for the root task, whose channel is buffered; when
    the parent waits at line 109 for the others), and the receiver gets
    ready whatever the other tasks do, so that the run can always go on
    to the point where the task has sent its signal; and the signal is
    never lost: as long as the task has not sent it, the top-level [Crawl]
    has not returned. *)
Theorem Crawl_fetch_error (s : State F L) (i : nat) (t : Task L) (fr : L)
    (fetcher' : F) (us : option (list string)) (e : string) :
  reach s ->
  tasks s !! i = Some t ->
  pc t = Fetching fr ->
  Fetch_step (fetcher s) fr = (fetcher', inr (us, Some e)) ->
  let s1 := mkState fetcher' (history s) (mapAccess s)
              (<[i := at_PC t Send]> (tasks s)) (done_buf s) (returned s)
              (calls s) (links s) in
  run (ByTask i) s = Some s1 /\
  forall sched s2, exec sched s1 = Some s2 ->
    count_if (is_child i) (tasks s2) = 0 /\
    (tasks s2 !! i = Some (at_PC t Send) \/
     tasks s2 !! i = Some (at_PC t Returned)) /\
    (forall s3, run (ByTask i) s2 = Some s3 ->
       tasks s3 !! i = Some (at_PC t Returned) /\ history s3 = history s2 /\
       match done t with
       | done_top => done_buf s3 = done_buf s2 ++ [true]
       | doneHere p =>
           done_buf s3 = done_buf s2 /\
           exists tp count,
             tasks s2 !! p = Some tp /\ pc tp = Wait count /\ 0 < count /\
             tasks s3 !! p = Some (at_PC tp (Wait (count - 1)))
       end) /\
    (tasks s2 !! i = Some (at_PC t Send) ->
     match done t with
     | done_top => True
     | doneHere p =>
         exists tp count, tasks s2 !! p = Some tp /\ pc tp = Wait count
     end ->
     is_Some (run (ByTask i) s2)) /\
    (tasks s2 !! i = Some (at_PC t Send) ->
     exists sched3 s3,
       exec sched3 s2 = Some s3 /\ tasks s3 !! i = Some (at_PC t Returned)) /\
    (tasks s2 !! i = Some (at_PC t Send) -> returned s2 = false).
Proof.
  intros Hr Hi Hpc Hstep s1.
  assert (Hrun : run (ByTask i) s = Some s1).
  { simpl. unfold Crawl_step. by rewrite Hi, Hpc, Hstep. }
  split; [exact Hrun|].
  pose proof (reachable_step _ _ _ Hr Hrun) as Hr1.
  assert (H1 : is_leaf i t s1) by (by eapply (leaf_after_error s s1 i t fr)).
  intros sched s2 Hex.
  pose proof (exec_ind (is_leaf i t) (leaf_step i t) sched s1 s2 H1 Hex) as H2.
  split; [apply H2|]. split; [apply H2|]. split; [|split; [|split]].
  - intros s3 H23. destruct (leaf_sends i t s2 s3 H2 H23) as (? & ? & ? & ?). done.
  - intros Hi2 Hrecv. destruct H2 as (Hr2 & _).
    by apply (send_enabled s2 i (at_PC t Send) Hr2 Hi2).
  - intros Hi2. by apply leaf_can_send.
  - intros Hi2. destruct H2 as (Hr2 & _).
    destruct (returned s2) eqn:Hret; [|done].
    pose proof (returned_all s2 Hr2 Hret i _ Hi2) as Hp. done.
Qed.

(** C7, as amended.  A step changes the history map only when it is the
    step of a task that holds the map (the channel slot is empty), at
    lines 97-98; and a step changes the memory of the fetcher only when it
    is a step inside the call of [Fetch] of a task, which does not hold the
    map.  The code of [Crawl] itself writes no other shared memory. *)
Theorem Crawl_writes (mv : Move) (s s' : State F L) :
  reach s ->
  run mv s = Some s' ->
  (history s' = history s \/
   exists i t u rest count,
     mv = ByTask i /\ tasks s !! i = Some t /\ pc t = Range (u :: rest) count /\
     mapAccess s = false /\ history s' = <[u := true]> (history s)) /\
  (fetcher s' = fetcher s \/
   exists i t fr,
     mv = ByTask i /\ tasks s !! i = Some t /\ pc t = Fetching fr /\
     holds_map t = false /\ fetcher s' = (Fetch_step (fetcher s) fr).1).
Proof.
  intros Hr Hrun. pose proof (reachable_sync s Hr) as Hs.
  pose proof (sync_lock s Hs) as Hlock.
  run_inv Hrun; simpl; (split; [try (by left) | try (by left)]).
  - right. exists i, t, fr. rewrite Heqp0. unfold holds_map. by rewrite Heqp.
  - right. exists i, t, fr. rewrite Heqp0. unfold holds_map. by rewrite Heqp.
  - right. exists i, t, fr. rewrite Heqp0. unfold holds_map. by rewrite Heqp.
  - right. exists i, t, s0, l, count. repeat (split; [done|]). split; [|done].
    assert (Hh : holds_map t = true) by (unfold holds_map; by rewrite Heqp).
    pose proof (count_if_lookup holds_map _ _ _ Heqo) as Hone. rewrite Hh in Hone.
    destruct (mapAccess s); simpl in *; [lia | done].
Qed.

End CRAWL_INVARIANTS.

(* ===================================================================== *)
(** * The fetcher *)
(* ===================================================================== *)

(** Inversion of a step of [Fetch]: one case per branch. *)
Ltac fetch_inv H :=
  unfold fetch_step, fetch_next, at_pc, store_result in H;
  repeat match type of H with
         | context [match ?x with _ => _ end] => destruct x eqn:?
         end;
  simplify_eq.

Section FETCH_LEMMAS.

Variable maxURLS : Z.
Variable web : string -> option (list Token).

Abbreviation step := (fetch_step maxURLS web).
Abbreviation run_fetch := (fetch_run maxURLS web).

Lemma fetch_fuel_pos (fr : Frame) : (0 < fetch_fuel web fr)%nat.
Proof. unfold fetch_fuel. destruct (fpc fr); try lia. destruct (web _); lia. Qed.

Lemma fetch_step_fuel (sh sh' : Shared) (fr fr' : Frame) :
  step sh fr = (sh', inl fr') -> (fetch_fuel web fr' < fetch_fuel web fr)%nat.
Proof.
  intros H. unfold fetch_fuel at 2.
  fetch_inv H; unfold fetch_fuel; simpl in *;
    repeat match goal with Hz : z _ = _ |- _ => rewrite Hz; clear Hz end;
    rewrite ?length_app; simpl; try lia.
  all: match goal with Hw : web _ = _ |- _ => rewrite Hw end; lia.
Qed.

(** A call of [Fetch] returns: [fetch_fuel] steps are enough. *)
Lemma fetch_run_total (n : nat) (sh : Shared) (fr : Frame) :
  (fetch_fuel web fr <= n)%nat -> is_Some (run_fetch n sh fr).
Proof.
  revert sh fr. induction n as [|n IH]; intros sh fr Hn.
  - pose proof (fetch_fuel_pos fr). lia.
  - simpl. destruct (step sh fr) as [sh' [fr' | r]] eqn:Hs; [|by eexists].
    apply IH. apply fetch_step_fuel in Hs. lia.
Qed.

(** An invariant of the steps of a call holds of what the call returns. *)
Lemma fetch_run_invariant (I : Shared -> Frame -> Prop)
    (Q : Shared -> FetchRet -> Prop) :
  (forall sh fr sh' fr', I sh fr -> step sh fr = (sh', inl fr') -> I sh' fr') ->
  (forall sh fr sh' r, I sh fr -> step sh fr = (sh', inr r) -> Q sh' r) ->
  forall n sh fr sh' r, I sh fr -> run_fetch n sh fr = Some (sh', r) -> Q sh' r.
Proof.
  intros Hstep Hret n. induction n as [|n IH]; intros sh fr sh' r HI Hrun; [done|].
  simpl in Hrun. destruct (step sh fr) as [sh1 [fr1 | r1]] eqn:Hs.
  - eapply IH; [|exact Hrun]. eauto.
  - simplify_eq. eauto.
Qed.

Lemma shared_ok_store (sh : Shared) (fr : Frame) :
  shared_ok sh -> (forall u, u ∈ furls fr -> accepted u) ->
  shared_ok (store_result sh fr).
Proof.
  intros Hsh Hfr k r u Hk Hu. unfold store_result in Hk. simpl in Hk.
  apply lookup_insert_Some in Hk as [[<- <-] | [Hne Hk]]; [auto|].
  by eapply Hsh.
Qed.

(** A step of [Fetch] keeps the accepted links apart from the others,
    writes no entry of [f] but that of its own URL, and returns accepted
    links only. *)
Lemma fetch_step_ok (sh sh' : Shared) (fr : Frame) (out : Frame + FetchRet) :
  frame_ok fr -> shared_ok sh -> step sh fr = (sh', out) ->
  shared_ok sh' /\
  (forall k, k <> arg_url fr -> f sh' !! k = f sh !! k) /\
  match out with
  | inl fr' => arg_url fr' = arg_url fr /\ frame_ok fr'
  | inr (us, err) => forall u, u ∈ default [] us -> accepted u
  end.
Proof.
  intros [Hurls Hpc] Hsh H.
  fetch_inv H; simpl in *;
    (split; [first [done | by apply shared_ok_store]|]);
    (split; [first [done | by intros k Hk; simpl; rewrite lookup_insert_ne]|]);
    rewrite ?Heqf in Hpc; unfold frame_ok; simpl; try done.
  - split; [done|]. split; [|done]. intros u Hu. by apply elem_of_nil in Hu.
  - intros u Hu. by apply elem_of_nil in Hu.
  - split; [done|]. split; [done|]. by apply Z.eqb_eq.
  - split; [done|]. split; [|done].
    intros v Hv. apply elem_of_app in Hv as [Hv | Hv]; [auto|].
    apply list_elem_of_singleton in Hv as ->. done.
  - intros u Hu. by apply elem_of_nil in Hu.
Qed.

(** C5, as amended.  A call of [Fetch] that runs without interference
    returns, and when the page was downloaded it leaves an entry for its
    URL in [f] and has incremented [countCrawled] exactly once for every
    link in the list of that entry: once per link accepted from the page,
    whether or not the same URL was accepted before. *)
Theorem Fetch_counts_accepted_links (sh : Shared) (url : string) :
  exists sh' r,
    Fetch maxURLS web (fetch_fuel web (fetch_begin url)) sh url = Some (sh', r) /\
    (web url = None /\ sh' = sh /\ r = (None, fetch_error) \/
     exists res,
       f sh' !! url = Some res /\
       countCrawled sh' =
         Nat.iter (length (urls res)) int_incr (countCrawled sh) /\
       (r = (Some (urls res), None) \/ r = (None, fetch_error))).
Proof.
  destruct (fetch_run_total (fetch_fuel web (fetch_begin url)) sh (fetch_begin url))
    as [[sh' r] Hrun]; [lia|].
  exists sh', r. split; [exact Hrun|].
  set (c0 := countCrawled sh).
  set (I := fun (sh1 : Shared) (fr : Frame) =>
              arg_url fr = url /\
              match fpc fr with
              | AtGet => sh1 = sh
              | AtIncr v =>
                  exists us x, furls fr = us ++ [x] /\
                               v = Nat.iter (length us) int_incr c0
              | _ => countCrawled sh1 = Nat.iter (length (furls fr)) int_incr c0
              end).
  set (Q := fun (sh1 : Shared) (r1 : FetchRet) =>
              web url = None /\ sh1 = sh /\ r1 = (None, fetch_error) \/
              exists res,
                f sh1 !! url = Some res /\
                countCrawled sh1 = Nat.iter (length (urls res)) int_incr c0 /\
                (r1 = (Some (urls res), None) \/ r1 = (None, fetch_error))).
  change (Q sh' r). unfold Fetch in Hrun.
  eapply (fetch_run_invariant I Q); [| | |exact Hrun]; unfold Q.
  - intros sh1 fr sh2 fr' [Hu HI] Hs. unfold fetch_step in Hs.
    revert HI Hs. destruct (fpc fr) eqn:Hpc; intros HI Hs;
      fetch_inv Hs; split; simpl in *; try done.
    + exists (furls fr), u. done.
    + destruct HI as (us & x & -> & ->). by rewrite length_app, Nat.add_1_r.
  - intros sh1 fr sh2 r1 [Hu HI] Hs. unfold fetch_step in Hs.
    revert HI Hs. destruct (fpc fr) eqn:Hpc; intros HI Hs;
      fetch_inv Hs; simpl in *.
    + left. done.
    + right. eexists. rewrite lookup_insert_eq. split; [done|]. simpl. auto.
    + right. eexists. rewrite lookup_insert_eq. split; [done|]. simpl. auto.
  - done.
Qed.

Lemma int_incr_small (v : Z) : - 2 ^ 63 <= v + 1 < 2 ^ 63 -> int_incr v = v + 1.
Proof.
  intros Hv. unfold int_incr, int_wrap.
  rewrite Z.mod_small by lia. lia.
Qed.

(** What the test at line 194 does bound: a call of [Fetch] that starts
    with the counter at 0 and runs without interference accepts at most
    [maxURLS + 1] links. *)
Lemma Fetch_accepts_at_most_max_plus_one (n : nat) (sh sh' : Shared)
    (url : string) (r : FetchRet) :
  countCrawled sh = 0 -> 0 <= maxURLS -> maxURLS + 1 < 2 ^ 63 ->
  Fetch maxURLS web n sh url = Some (sh', r) ->
  Z.of_nat (length (default [] r.1)) <= maxURLS + 1 /\
  (web url <> None ->
   exists res, f sh' !! url = Some res /\
               Z.of_nat (length (urls res)) <= maxURLS + 1).
Proof.
  intros Hc0 Hmax Hsmall Hrun.
  set (I := fun (sh1 : Shared) (fr : Frame) =>
              arg_url fr = url /\
              match fpc fr with
              | AtGet => countCrawled sh1 = 0
              | AtNext | AtAbort | AtStoreAbort | AtStoreEnd =>
                  countCrawled sh1 = Z.of_nat (length (furls fr)) /\
                  countCrawled sh1 <= maxURLS + 1
              | AtPrint _ | AtAccept _ =>
                  countCrawled sh1 = Z.of_nat (length (furls fr)) /\
                  countCrawled sh1 <= maxURLS
              | AtIncr v =>
                  v + 1 = Z.of_nat (length (furls fr)) /\ 0 <= v <= maxURLS
              end).
  set (Q := fun (sh1 : Shared) (r1 : FetchRet) =>
              Z.of_nat (length (default [] r1.1)) <= maxURLS + 1 /\
              (web url <> None ->
               exists res, f sh1 !! url = Some res /\
                           Z.of_nat (length (urls res)) <= maxURLS + 1)).
  change (Q sh' r). unfold Fetch in Hrun.
  eapply (fetch_run_invariant I Q); [| | |exact Hrun]; unfold Q.
  - intros sh1 fr sh2 fr' [Hu HI] Hs. unfold fetch_step in Hs.
    revert HI Hs. destruct (fpc fr) eqn:Hpc; intros HI Hs;
      fetch_inv Hs; split; simpl in *; try done; try lia.
    + rewrite length_app. simpl. lia.
    + rewrite int_incr_small by lia. lia.
  - intros sh1 fr sh2 r1 [Hu HI] Hs. unfold fetch_step in Hs.
    revert HI Hs. destruct (fpc fr) eqn:Hpc; intros HI Hs;
      fetch_inv Hs; simpl in *.
    + split; [lia|]. congruence.
    + split; [lia|]. intros _. eexists. rewrite lookup_insert_eq.
      split; [done|]. simpl. lia.
    + split; [lia|]. intros _. eexists. rewrite lookup_insert_eq.
      split; [done|]. simpl. lia.
  - done.
Qed.


(** When the link read begins with "http" and the
    counter exceeds the maximum, the call goes to [AtAbort]; from there it
    begins the write of the title and the links collected so far to [f],
    and when the write is complete it returns a nil list with an error. *)
Lemma fetch_step_cap (sh : Shared) (fr : Frame)
    (Attr : list (string * string)) (rest : list Token) (u : string) :
  fpc fr = AtNext ->
  z fr = StartTagToken "a" Attr :: rest ->
  getHref Attr = (true, u) ->
  Index u "http" = 0 ->
  countCrawled sh > maxURLS ->
  step sh fr = (sh, inl (mkFrame (arg_url fr) AtAbort rest (ftitle fr) (furls fr))).
Proof.
  intros Hpc Hz Hh Hi Hc. unfold fetch_step, fetch_next. rewrite Hpc, Hz, Hh. simpl.
  rewrite Hi. simpl.
  destruct (countCrawled sh >? maxURLS) eqn:Hgt; [done|].
  rewrite Z.gtb_ltb in Hgt. apply Z.ltb_ge in Hgt. lia.
Qed.

Lemma fetch_step_abort (sh : Shared) (fr : Frame) :
  fpc fr = AtAbort ->
  step sh fr = (sh, inl (at_pc fr AtStoreAbort)).
Proof. intros Hpc. unfold fetch_step. by rewrite Hpc. Qed.

Lemma fetch_step_store_abort (sh : Shared) (fr : Frame) :
  fpc fr = AtStoreAbort ->
  step sh fr = (store_result sh fr, inr (None, fetch_error)).
Proof. intros Hpc. unfold fetch_step. by rewrite Hpc. Qed.

End FETCH_LEMMAS.

(* ===================================================================== *)
(** * The crawler with the program's fetcher *)
(* ===================================================================== *)

Section CRAWL_FETCHER.

Variable maxURLS : Z.
Variable web : string -> option (list Token).
Variables (url0 : string) (depth0 : Z).

Abbreviation impl := (fetcher_Fetcher maxURLS web).
Abbreviation run := (@run Shared Frame impl).
Abbreviation exec := (@exec Shared Frame impl).
Abbreviation reach := (@reachable Shared Frame impl url0 depth0 Shared_init).
Abbreviation init := (@Crawl_init Shared Frame url0 depth0 Shared_init).
Abbreviation inv := (fetcher_inv url0).
Abbreviation is_leaf := (@leaf Shared Frame impl url0 depth0 Shared_init).

Lemma fetcher_inv_init : inv init.
Proof.
  constructor; unfold Shared_init; simpl.
  - by eexists.
  - intros [|i] t fr Hi; simplify_eq/=. done.
  - intros k r u Hk. simpl in Hk. by rewrite lookup_empty in Hk.
  - intros k r Hk. by rewrite lookup_empty in Hk.
  - intros p us u Hp. by apply elem_of_nil in Hp.
  - intros [|i] t u Hi; simplify_eq/=. intros Hu. by apply elem_of_nil in Hu.
  - intros [|i] t Hi; simplify_eq/=. done.
Qed.

(** Task [i] moves to [q]. *)
Lemma fetcher_inv_retag (s s' : State Shared Frame) (i : nat)
    (t : Task Frame) (q : PC Frame) :
  inv s ->
  tasks s !! i = Some t ->
  tasks s' = <[i := at_PC t q]> (tasks s) ->
  shared_ok (fetcher s') ->
  (forall k r, f (fetcher s') !! k = Some r -> k ∈ calls s') ->
  (forall p us u, (p, us) ∈ links s' -> u ∈ us -> accepted u) ->
  (forall fr, q = Fetching fr -> arg_url fr = url t /\ frame_ok fr) ->
  (forall u, u ∈ to_visit q -> accepted u) ->
  inv s'.
Proof.
  intros [Hroot Hframe Hshared Hkeys Hlinks Hvisit Htasks] Hi Hts Hsh Hk Hl Hq Hv.
  constructor; rewrite ?Hts; try done.
  - destruct Hroot as (t0 & H0 & Hu0). destruct (decide (i = 0%nat)) as [-> | Hne].
    + exists (at_PC t q). simplify_eq. split; [|done].
      apply list_lookup_insert_eq. by eapply lookup_lt_Some.
    + exists t0. by rewrite list_lookup_insert_ne.
  - intros j tj fr Hj Hpc.
    apply list_lookup_insert_Some in Hj as [(-> & <- & _) | (Hne & Hj)]; simpl in *;
      eauto.
  - intros j tj u Hj Hu.
    apply list_lookup_insert_Some in Hj as [(-> & <- & _) | (Hne & Hj)]; simpl in *;
      eauto.
  - intros j tj Hj Hne.
    apply list_lookup_insert_Some in Hj as [(-> & <- & _) | (Hne' & Hj)]; simpl in *;
      eauto.
Qed.

Lemma fetcher_inv_move (s s' : State Shared Frame) (i : nat)
    (t : Task Frame) (q : PC Frame) :
  inv s ->
  tasks s !! i = Some t ->
  tasks s' = <[i := at_PC t q]> (tasks s) ->
  fetcher s' = fetcher s -> links s' = links s -> calls s' = calls s ->
  (forall fr, q <> Fetching fr) ->
  (forall u, u ∈ to_visit q -> u ∈ to_visit (pc t)) ->
  inv s'.
Proof.
  intros Hs Hi Hts Hf Hl Hc Hq Hv. pose proof Hs as [? ? ? ? ? Hvisit ?].
  eapply (fetcher_inv_retag s _ i t q); [done | done | done |..];
    rewrite ?Hf, ?Hl, ?Hc; try done.
  - intros fr Hfr. by destruct (Hq fr).
  - intros u Hu. apply (Hvisit i t u Hi). auto.
Qed.

(** A new task is added to the pool. *)
Lemma fetcher_inv_spawn (s s' : State Shared Frame) (u : string) (d : Z) (c : chan) :
  inv s ->
  tasks s' = tasks s ++ [mkTask u d c Start] ->
  fetcher s' = fetcher s -> links s' = links s -> calls s' = calls s ->
  accepted u ->
  inv s'.
Proof.
  intros [Hroot Hframe Hshared Hkeys Hlinks Hvisit Htasks] Hts Hf Hl Hc Hu.
  constructor; rewrite ?Hts, ?Hf, ?Hl, ?Hc; try done.
  - destruct Hroot as (t0 & H0 & Hu0). exists t0. split; [|done].
    by apply lookup_app_l_Some.
  - intros j tj fr Hj Hpc. apply lookup_app_Some in Hj as [Hj | [Hge Hj]]; [eauto|].
    apply list_lookup_singleton_Some in Hj as [_ <-]. done.
  - intros j tj v Hj Hv. apply lookup_app_Some in Hj as [Hj | [Hge Hj]]; [eauto|].
    apply list_lookup_singleton_Some in Hj as [_ <-]. by apply elem_of_nil in Hv.
  - intros j tj Hj Hne. apply lookup_app_Some in Hj as [Hj | [Hge Hj]]; [eauto|].
    apply list_lookup_singleton_Some in Hj as [_ <-]. done.
Qed.

Lemma fetcher_inv_step (mv : Move) (s s' : State Shared Frame) :
  reach s -> inv s -> run mv s = Some s' -> inv s'.
Proof.
  intros Hr Hs Hrun.
  pose proof (reachable_depth _ _ _ s Hr) as Hd.
  assert (Hfetch : forall i t fr sh' out,
            tasks s !! i = Some t -> pc t = Fetching fr ->
            fetch_step maxURLS web (fetcher s) fr = (sh', out) ->
            shared_ok sh' /\
            (forall k r, f sh' !! k = Some r -> k ∈ calls s) /\
            match out with
            | inl fr' => arg_url fr' = url t /\ frame_ok fr'
            | inr (us, err) => forall u, u ∈ default [] us -> accepted u
            end).
  { intros i t fr sh' out Hi Hpc Hstep.
    destruct (fi_frame _ _ Hs i t fr Hi Hpc) as [Harg Hok].
    destruct (fetch_step_ok _ _ _ _ _ _ Hok (fi_shared _ _ Hs) Hstep)
      as (Hsh & Hother & Hout).
    split; [done|]. split.
    - intros k r Hk. destruct (decide (k = arg_url fr)) as [-> | Hne].
      + rewrite Harg. apply (depth_pos _ _ _ Hd i t Hi). by rewrite Hpc.
      + rewrite (Hother k Hne) in Hk. by apply (fi_keys _ _ Hs k r).
    - destruct out as [fr' | [us err]]; [|done]. by rewrite <- Harg. }
  run_inv Hrun.
  all: try (eapply (fetcher_inv_move s _ _ _ _ Hs);
            [ eassumption | reflexivity | reflexivity | reflexivity | reflexivity
            | done
            | match goal with Hp : pc _ = _ |- _ => rewrite Hp end; simpl;
              intros u Hu;
              first [done | by apply elem_of_nil in Hu
                    | by apply list_elem_of_further] ]; fail).
  - (* the call *)
    pose proof Hs as [? ? ? Hkeys ? ? ?].
    eapply (fetcher_inv_retag s _ i t _ Hs); [done | reflexivity | simpl ..]; try done.
    + intros k r Hk. apply elem_of_app. left. by apply (Hkeys k r).
    + intros fr1 Hfr. simplify_eq. simpl. split; [done|]. split; [|done].
      intros u Hu. by apply elem_of_nil in Hu.
    + intros u Hu. by apply elem_of_nil in Hu.
  - (* a step inside the call *)
    simpl in Heqp0. destruct (Hfetch _ _ _ _ _ Heqo Heqp Heqp0) as (Hsh & Hk & Hout).
    pose proof Hs as [? ? ? ? ? ? ?].
    eapply (fetcher_inv_retag s _ i t _ Hs); [done | reflexivity | simpl ..]; try done.
    + intros fr1 Hfr. by simplify_eq.
    + intros u Hu. by apply elem_of_nil in Hu.
  - (* the call returns an error *)
    simpl in Heqp0. destruct (Hfetch _ _ _ _ _ Heqo Heqp Heqp0) as (Hsh & Hk & Hout).
    pose proof Hs as [? ? ? ? ? ? ?].
    eapply (fetcher_inv_retag s _ i t _ Hs); [done | reflexivity | simpl ..]; try done.
    intros u Hu. by apply elem_of_nil in Hu.
  - (* the call returns links *)
    simpl in Heqp0. destruct (Hfetch _ _ _ _ _ Heqo Heqp Heqp0) as (Hsh & Hk & Hout).
    pose proof Hs as [? ? ? ? Hlinks ? ?].
    eapply (fetcher_inv_retag s _ i t _ Hs); [done | reflexivity | simpl ..]; try done.
    intros p us u Hp Hu. apply elem_of_app in Hp as [Hp | Hp]; [by eapply Hlinks|].
    apply list_elem_of_singleton in Hp. simplify_eq. auto.
  - (* a spawn *)
    pose (s1 := with_tasks s (<[i := at_PC t (Range l (count + 1))]> (tasks s))).
    assert (H1 : inv s1).
    { eapply (fetcher_inv_move s s1 i t _ Hs); try done.
      rewrite Heqp. simpl. intros u Hu. by apply list_elem_of_further. }
    eapply (fetcher_inv_spawn s1 _ _ _ _ H1); try reflexivity.
    apply (fi_visit _ _ Hs i t s0 Heqo). rewrite Heqp. apply list_elem_of_here.
  - (* a rendezvous *)
    pose (s1 := with_tasks s (<[i := at_PC t Returned]> (tasks s))).
    assert (H1 : inv s1).
    { eapply (fetcher_inv_move s s1 i t _ Hs); try done.
      intros u Hu. by apply elem_of_nil in Hu. }
    eapply (fetcher_inv_move s1 _ owner t0 _ H1); [|reflexivity ..|done|].
    + simpl. rewrite list_lookup_insert_ne; [done|].
      intros ->. simplify_eq. congruence.
    + intros u Hu. by apply elem_of_nil in Hu.
  - destruct Hs. by constructor.
Qed.

Lemma reachable_fetcher (s : State Shared Frame) : reach s -> inv s.
Proof.
  apply (reachable_ind url0 depth0 Shared_init); [apply fetcher_inv_init|].
  intros mv s1 s2. apply fetcher_inv_step.
Qed.

(** A URL that [Fetch] does not accept is in no list of links and is not
    the URL of a spawned task; unless it is the start URL it is not
    fetched, not marked and has no entry in [f]. *)
Lemma reachable_only_accepted (s : State Shared Frame) (u : string) :
  reach s -> (~ accepted u) ->
  (forall p us, (p, us) ∈ links s -> u ∉ us) /\
  (forall k r, f (fetcher s) !! k = Some r -> u ∉ urls r) /\
  (forall i t, tasks s !! i = Some t -> i <> 0%nat -> url t <> u) /\
  (u <> url0 ->
     (u ∉ calls s) /\ history s !! u = None /\ f (fetcher s) !! u = None).
Proof.
  intros Hr Hu. pose proof (reachable_fetcher s Hr) as Hf.
  pose proof (reachable_dedup _ _ _ s Hr) as Hd.
  assert (Hspawned : forall i t, tasks s !! i = Some t -> i <> 0%nat -> url t <> u).
  { intros i t Hi Hi0 <-. apply Hu. by apply (fi_tasks _ _ Hf i t). }
  assert (Htask : u <> url0 -> forall i t, tasks s !! i = Some t -> url t <> u).
  { intros Hne i t Hi. destruct (decide (i = 0%nat)) as [-> | Hi0]; [|eauto].
    destruct (fi_root _ _ Hf) as (t0 & H0 & Hu0). simplify_eq. congruence. }
  assert (Hcalls : u <> url0 -> u ∉ calls s).
  { intros Hne Hin. destruct (dedup_called s Hd u Hin) as (i & t & Hi & Hurl & _).
    by apply (Htask Hne i t). }
  split; [|split; [|split; [done|]]].
  - intros p us Hp Hin. apply Hu. by apply (fi_links _ _ Hf p us).
  - intros k r Hk Hin. apply Hu. by apply (fi_shared _ _ Hf k r).
  - intros Hne. split; [auto|]. split.
    + destruct (history s !! u) as [b|] eqn:Hh; [|done].
      destruct (dedup_hist s Hd u b Hh) as (_ & i & t & Hi & Hurl).
      by destruct (Htask Hne i t).
    + destruct (f (fetcher s) !! u) as [r|] eqn:Hk; [|done].
      destruct (Hcalls Hne). by apply (fi_keys _ _ Hf u r).
Qed.

(** C8, as amended.  A URL that ends in one of the suffixes of [isFile] is
    a file for [isFile]; in every state of an invocation it is in no list
    of links returned by [Fetch] or stored in [f] and no task is spawned
    for it; and, unless it is the start URL given to [Crawl], [Fetch] is
    never called with it, it is not marked in the history map and it has no
    entry in [f]. *)
Theorem Crawl_skips_files (s : State Shared Frame) (u : string) :
  reach s ->
  file_suffixed u ->
  isFile u = true /\
  (forall p us, (p, us) ∈ links s -> u ∉ us) /\
  (forall k r, f (fetcher s) !! k = Some r -> u ∉ urls r) /\
  (forall i t, tasks s !! i = Some t -> i <> 0%nat -> url t <> u) /\
  (u <> url0 ->
     (u ∉ calls s) /\ history s !! u = None /\ f (fetcher s) !! u = None).
Proof.
  intros Hr (p & file & Hfile & ->).
  pose proof (isFile_suffix p file Hfile) as Hisfile.
  split; [done|]. apply reachable_only_accepted; [done|].
  intros [_ Hacc]. congruence.
Qed.


End CRAWL_FETCHER.

(* ===================================================================== *)
(** * The properties on the sample runs *)
(* ===================================================================== *)

Abbreviation reach_A web maxURLS depth0 :=
  (@reachable Shared Frame (fetcher_Fetcher maxURLS web) "http://A" depth0
     Shared_init).

(** C4.  With a maximum of 2, a call of [Fetch] on a page with three links
    that begin with "http" and are no files, started with the counter at 0,
    accepts all three: the test [countCrawled > *maxURLS] at line 194 lets
    the counter reach the maximum plus one. *)
Theorem Fetch_accepts_max_plus_one :
  (fun r : Shared * FetchRet => (countCrawled r.1, r.2))
    <$> Fetch 2 three (fetch_fuel three (fetch_begin "http://A")) Shared_init
          "http://A"
  = Some (3, (Some ["http://B"; "http://C"; "http://D"], None)).
Proof. vm_compute. reflexivity. Qed.

(** C5, counterexample.  On a page with the same link twice the counter is
    incremented twice, for one URL discovered. *)
Lemma Fetch_counts_a_link_twice :
  (fun r : Shared * FetchRet => (countCrawled r.1, r.2))
    <$> Fetch 10 twice (fetch_fuel twice (fetch_begin "http://A")) Shared_init
          "http://A"
  = Some (2, (Some ["http://B"; "http://B"], None)) /\
  length (remove_dups ["http://B"; "http://B"]) = 1%nat.
Proof. split; vm_compute; reflexivity. Qed.

Lemma Crawl_barrier_witness :
  reach_A site 10 2 site_final /\
  returned site_final = true /\
  (forall i t, tasks site_final !! i = Some t -> pc t = Returned).
Proof.
  assert (Hr : reach_A site 10 2 site_final)
    by (exists site_run; vm_compute; reflexivity).
  split; [exact Hr|]. split; [reflexivity|].
  apply (@Crawl_barrier _ _ (fetcher_Fetcher 10 site) _ _ _ site_final Hr).
  reflexivity.
Defined.

Lemma Crawl_fetch_once_witness :
  reach_A site 10 2 site_final /\ NoDup (calls site_final).
Proof.
  assert (Hr : reach_A site 10 2 site_final)
    by (exists site_run; vm_compute; reflexivity).
  split; [exact Hr|].
  apply (@Crawl_fetch_once _ _ (fetcher_Fetcher 10 site) _ _ _ site_final Hr).
Defined.

Lemma Crawl_depth_bound_witness :
  reach_A site 10 2 site_final /\
  (forall u, u ∈ calls site_final ->
     exists k, hops (links site_final) "http://A" k u /\ Z.of_nat k < 2).
Proof.
  assert (Hr : reach_A site 10 2 site_final)
    by (exists site_run; vm_compute; reflexivity).
  split; [exact Hr|].
  apply (@Crawl_depth_bound _ _ (fetcher_Fetcher 10 site) _ _ _ site_final Hr).
Defined.

Lemma Crawl_fetch_error_witness :
  reach_A three 10 2 three_at_get /\
  @run _ _ (fetcher_Fetcher 10 three) (ByTask 1) three_at_get
    = Some three_B_failed /\
  @exec _ _ (fetcher_Fetcher 10 three) (replicate 3 (ByTask 0)) three_B_failed
    = Some three_B_waited /\
  @run _ _ (fetcher_Fetcher 10 three) (ByTask 1) three_B_waited
    = Some three_B_signalled /\
  returned three_B_waited = false /\
  done_buf three_B_signalled = done_buf three_B_waited /\
  exists tp count,
    tasks three_B_waited !! 0%nat = Some tp /\ pc tp = Wait count /\ 0 < count /\
    tasks three_B_signalled !! 0%nat = Some (at_PC tp (Wait (count - 1))).
Proof.
  assert (Hr : reach_A three 10 2 three_at_get)
    by (exists (replicate 18 (ByTask 0) ++ [ByTask 1]); vm_compute; reflexivity).
  assert (Hex : @exec _ _ (fetcher_Fetcher 10 three) (replicate 3 (ByTask 0))
                  three_B_failed = Some three_B_waited)
    by (vm_compute; reflexivity).
  assert (Hsend : @run _ _ (fetcher_Fetcher 10 three) (ByTask 1) three_B_waited
                  = Some three_B_signalled) by (vm_compute; reflexivity).
  destruct (@Crawl_fetch_error _ _ (fetcher_Fetcher 10 three) _ _ _
              three_at_get 1%nat
              (mkTask "http://B" 1 (doneHere 0) (Fetching (fetch_begin "http://B")))
              (fetch_begin "http://B") (fetcher three_at_get) None "error"
              Hr eq_refl eq_refl eq_refl) as [Hrun Hlater].
  destruct (Hlater (replicate 3 (ByTask 0)) three_B_waited Hex)
    as (_ & _ & Hsig & _ & _ & Hret).
  destruct (Hsig three_B_signalled Hsend) as (_ & _ & Hbuf & Hparent).
  split; [exact Hr|]. split; [exact Hrun|]. split; [exact Hex|].
  split; [exact Hsend|]. split; [exact (Hret eq_refl)|]. split; [exact Hbuf|].
  exact Hparent.
Defined.

(** C10.  The write of line 195 races with the writes of the other calls.
    [Crawl("http://A", 2, f)] with a maximum of 1 on [race_site]: the call
    of [Fetch] for ["http://B"] finds the counter above the maximum and
    begins to write the title and the links collected so far to [f]
    (line 195) while the call for ["http://C"] is inside its write to [f]
    (line 214).  Two writes to the Go map overlap: the runtime stops the
    program, the top-level [Crawl] has not returned and never does, and
    [f] has no entry for ["http://B"].  On the same pages the schedule
    that lets every task go on until it has to wait reaches the return
    with the entry in [f]. *)
Theorem Fetch_abort_write_races :
  prog_exec 1 race_site race_run (start_A 2) = Some race_state /\
  tasks race_state !! 1%nat
    = Some (mkTask "http://B" 1 (doneHere 0)
              (Fetching (mkFrame "http://B" AtStoreAbort [] "B" []))) /\
  tasks race_state !! 2%nat
    = Some (mkTask "http://C" 1 (doneHere 0)
              (Fetching (mkFrame "http://C" AtStoreEnd [] "C" []))) /\
  writers race_state = 2 /\
  fatal race_state = true /\
  (forall mv, prog_run 1 race_site mv race_state = None) /\
  returned race_state = false /\
  f (fetcher race_state) !! "http://B"%string = None /\
  prog_exec 1 race_site race_free_run (start_A 2) = Some race_free_final /\
  returned race_free_final = true /\
  f (fetcher race_free_final) !! "http://B"%string = Some (mkResult "B" []).
Proof.
  assert (Hf : fatal race_state = true) by (vm_compute; reflexivity).
  do 5 (split; [vm_compute; reflexivity|]).
  split; [intros mv; unfold prog_run; by rewrite Hf|].
  repeat split; vm_compute; reflexivity.
Qed.

(** C7, counterexample.  In the run on [three], while the history map is
    in its channel (no task holds it), a step of the root task inside its
    call of [Fetch] changes [countCrawled]. *)
Lemma Fetch_writes_counter_unguarded :
  reach_A three 10 2 three_at_incr /\
  @run _ _ (fetcher_Fetcher 10 three) (ByTask 0) three_at_incr
    = Some three_after_incr /\
  mapAccess three_at_incr = true /\
  countCrawled (fetcher three_at_incr) = 0 /\
  countCrawled (fetcher three_after_incr) = 1.
Proof.
  split; [exists (replicate 5 (ByTask 0)); vm_compute; reflexivity|].
  repeat split; vm_compute; reflexivity.
Qed.

Lemma Crawl_writes_witness :
  reach_A three 10 2 three_at_incr /\
  @run _ _ (fetcher_Fetcher 10 three) (ByTask 0) three_at_incr
    = Some three_after_incr /\
  history three_after_incr = history three_at_incr.
Proof.
  assert (Hr : reach_A three 10 2 three_at_incr)
    by (exists (replicate 5 (ByTask 0)); vm_compute; reflexivity).
  assert (Hrun : @run _ _ (fetcher_Fetcher 10 three) (ByTask 0) three_at_incr
                 = Some three_after_incr) by (vm_compute; reflexivity).
  split; [exact Hr|]. split; [exact Hrun|].
  destruct (@Crawl_writes _ _ (fetcher_Fetcher 10 three) _ _ _ _ _ _ Hr Hrun)
    as [[Hh | (i & t & u & rest & c & _ & Hi & Hpc & _)] _]; [exact Hh|].
  reflexivity.
Defined.

(** C8, counterexample.  [Crawl] called with a start URL that ends in
    ".pdf" fetches it and records it in [f]. *)
Lemma Crawl_fetches_start_file :
  isFile "http://A/a.pdf" = true /\
  @reachable _ _ (fetcher_Fetcher 10 pdf_site) "http://A/a.pdf" 1 Shared_init
    pdf_final /\
  returned pdf_final = true /\
  calls pdf_final = ["http://A/a.pdf"] /\
  history pdf_final !! "http://A/a.pdf" = Some true /\
  f (fetcher pdf_final) !! "http://A/a.pdf" = Some (mkResult "A" []).
Proof.
  split; [reflexivity|].
  split; [exists pdf_run; vm_compute; reflexivity|].
  repeat split; vm_compute; reflexivity.
Qed.

Lemma Crawl_skips_files_witness :
  reach_A site 10 2 site_final /\
  file_suffixed "http://A/a.pdf" /\
  "http://A/a.pdf" ∉ calls site_final.
Proof.
  assert (Hr : reach_A site 10 2 site_final)
    by (exists site_run; vm_compute; reflexivity).
  assert (Hf : file_suffixed "http://A/a.pdf").
  { exists "http://A/a", ".pdf". split; [apply list_elem_of_here | reflexivity]. }
  split; [exact Hr|]. split; [exact Hf|].
  apply (Crawl_skips_files 10 site _ _ site_final _ Hr Hf). discriminate.
Defined.



(* ===================================================================== *)
(** * Further properties of the crawler, for any fetcher *)
(* ===================================================================== *)

Lemma count_if_pos {A : Type} (P : A -> bool) (l : list A) :
  0 < count_if P l -> exists i x, l !! i = Some x /\ P x = true.
Proof.
  induction l as [|a l IH]; simpl; [lia|]. intros Hpos.
  destruct (P a) eqn:Ha.
  - by exists 0%nat, a.
  - destruct IH as (i & x & Hi & Hx); [simpl in Hpos; lia|].
    by exists (S i), x.
Qed.

Section CRAWL_MORE.

Context {F L : Type} `{!Fetcher F L}.
Variables (url0 : string) (depth0 : Z) (fetcher0 : F).

Abbreviation reach := (@reachable F L _ url0 depth0 fetcher0).
Abbreviation init := (@Crawl_init F L url0 depth0 fetcher0).

(** Mutual exclusion on the history map (lines 93-105): at most one task
    is between its receive from [mapAccess] and its send to it, and the
    map is in the channel exactly when no task is. *)
Theorem Crawl_map_exclusive (s : State F L) :
  reach s ->
  (forall i j ti tj, tasks s !! i = Some ti -> tasks s !! j = Some tj ->
     holds_map ti = true -> holds_map tj = true -> i = j) /\
  (mapAccess s = true <->
   forall i t, tasks s !! i = Some t -> holds_map t = false).
Proof.
  intros Hr. pose proof (sync_lock s (reachable_sync url0 depth0 fetcher0 s Hr)) as Hlock.
  pose proof (count_if_nonneg holds_map (tasks s)) as Hnn.
  split; [|split].
  - intros i j ti tj Hi Hj Hti Htj. destruct (decide (i = j)) as [|Hne]; [done|].
    pose proof (count_if_two holds_map _ _ _ _ _ Hi Hj Hne) as Htwo.
    rewrite Hti, Htj in Htwo. destruct (mapAccess s); simpl in *; lia.
  - intros Hm i t Hi. rewrite Hm in Hlock. simpl in Hlock.
    apply (count_if_zero holds_map (tasks s) i t); [lia | done].
  - intros Hnone. rewrite (count_if_none holds_map (tasks s)) in Hlock by done.
    destruct (mapAccess s); simpl in *; [done | lia].
Qed.

(** A step only adds marks to the history map. *)
Lemma history_step (mv : Move) (s s' : State F L) (u : string) :
  run mv s = Some s' -> history s !! u = Some true -> history s' !! u = Some true.
Proof.
  intros Hrun Hu. run_inv Hrun; simpl; try done.
  destruct (decide (s0 = u)) as [-> | Hne];
    [apply lookup_insert_eq | by rewrite lookup_insert_ne].
Qed.

(** The visited set (line 60, lines 97-98).  A URL that is marked stays
    marked in every later state; every mark is [true]; the marked URLs are
    exactly the URLs of the tasks started so far, one task per URL. *)
Theorem Crawl_history (s : State F L) :
  reach s ->
  (forall sched s' u, exec sched s = Some s' ->
     history s !! u = Some true -> history s' !! u = Some true) /\
  (forall u b, history s !! u = Some b -> b = true) /\
  dom (history s) = list_to_set (url <$> tasks s) /\
  size (history s) = length (tasks s).
Proof.
  intros Hr. pose proof (reachable_dedup url0 depth0 fetcher0 s Hr) as Hd.
  assert (Hdom : dom (history s) = list_to_set (url <$> tasks s)).
  { apply set_eq. intros u. rewrite elem_of_dom, elem_of_list_to_set. split.
    - intros [b Hb]. destruct (dedup_hist s Hd u b Hb) as (_ & i & t & Hi & <-).
      apply list_elem_of_fmap. exists t. split; [done|].
      apply list_elem_of_lookup. eauto.
    - intros Hu. apply list_elem_of_fmap in Hu as (t & -> & Ht).
      apply list_elem_of_lookup in Ht as [i Hi].
      rewrite (dedup_seen s Hd i t Hi). by eexists. }
  split; [|split; [|split; [done|]]].
  - intros sched s' u Hex Hu. revert Hu.
    apply (exec_ind
             (fun s1 => history s !! u = Some true -> history s1 !! u = Some true))
      with (sched := sched) (s := s); [|done|done].
    intros mv sa sb IH Hab Hu. eapply history_step; eauto.
  - intros u b Hb. by destruct (dedup_hist s Hd u b Hb).
  - rewrite <- size_dom, Hdom, size_list_to_set by apply (dedup_tasks s Hd).
    by rewrite length_fmap.
Qed.

(** ** Progress *)

Lemma reachable_root (s : State F L) :
  reach s ->
  exists t0, tasks s !! 0%nat = Some t0 /\
             arguments t0 = (url0, depth0, done_top).
Proof.
  revert s. apply (reachable_ind url0 depth0 fetcher0); [by eexists|].
  intros mv s1 s2 _ (t0 & H0 & Ha) Hrun.
  assert (Hkeep : forall i t q (ts : list (Task L)),
            tasks s1 !! i = Some t ->
            exists t1, (<[i := at_PC t q]> (tasks s1) ++ ts) !! 0%nat = Some t1 /\
                       arguments t1 = (url0, depth0, done_top)).
  { intros i t q ts Hi. pose proof (lookup_lt_Some _ _ _ Hi) as Hlt.
    rewrite lookup_app_l by (rewrite length_insert; lia).
    destruct i as [|i].
    - exists (at_PC t q). simplify_eq. by rewrite list_lookup_insert_eq by lia.
    - exists t0. by rewrite list_lookup_insert_ne. }
  assert (Hkeep' : forall i t q,
            tasks s1 !! i = Some t ->
            exists t1, <[i := at_PC t q]> (tasks s1) !! 0%nat = Some t1 /\
                       arguments t1 = (url0, depth0, done_top)).
  { intros i t q Hi. destruct (Hkeep i t q [] Hi) as (t1 & H1 & Ha1).
    rewrite app_nil_r in H1. eauto. }
  run_inv Hrun; simpl; try (by apply Hkeep'); try (by apply Hkeep).
  - destruct (Hkeep' _ _ Returned Heqo) as (t2 & H2 & Ha2).
    destruct owner as [|owner].
    + exists (at_PC t1 (Wait (count - 1))). simplify_eq.
      split; [|done]. apply list_lookup_insert_eq. rewrite length_insert.
      by eapply lookup_lt_Some.
    + exists t2. by rewrite list_lookup_insert_ne.
  - eauto.
Qed.

(** Once the root task has sent, its signal is in the buffer of [done]
    until the top-level [Crawl] takes it. *)
Lemma root_sent (s : State F L) (t0 : Task L) :
  reach s -> tasks s !! 0%nat = Some t0 -> pc t0 = Returned ->
  (length (done_buf s) + (if returned s then 1 else 0) = 1)%nat.
Proof.
  intros Hr. revert t0. revert s Hr.
  apply (reachable_ind url0 depth0 fetcher0
           (fun s => forall t0, _ -> _ -> _)).
  { intros t0 H0 Hpc. simpl in H0. by simplify_eq. }
  intros mv s1 s2 Hr1 IH Hrun t0 H0 Hpc.
  pose proof (reachable_sync url0 depth0 fetcher0 s1 Hr1) as Hs1.
  run_inv Hrun; simpl in *;
    try (apply list_lookup_insert_Some in H0 as [(? & <- & _) | (Hne & H0)];
         [done | by eapply IH]).
  - (* a spawn *)
    pose proof (lookup_lt_Some _ _ _ Heqo) as Hlt.
    rewrite lookup_app_l in H0 by (rewrite length_insert; lia).
    apply list_lookup_insert_Some in H0 as [(? & <- & _) | (Hne & H0)];
      [done | by eapply IH].
  - (* the root task sends *)
    pose proof (sync_parent s1 Hs1 _ _ Heqo) as Hi. rewrite Heqc in Hi. subst i.
    rewrite (reachable_done_buf url0 depth0 fetcher0 s1 t Hr1 Heqo)
      by (by rewrite Heqp).
    destruct (returned s1) eqn:Hret; [|done].
    destruct (sync_top s1 Hs1 Hret) as (t1 & H1 & Hp1).
    simplify_eq. congruence.
  - (* a rendezvous *)
    pose proof (sync_parent s1 Hs1 _ _ Heqo) as Hi. rewrite Heqc in Hi.
    apply list_lookup_insert_Some in H0 as [(? & <- & _) | (Hne & H0)]; [done|].
    rewrite list_lookup_insert_ne in H0 by lia. by eapply IH.
  - (* the top-level receive *)
    specialize (IH t eq_refl Heqp). lia.
Qed.

(** A task that holds the map can always take its next step. *)
Lemma holder_enabled (s : State F L) (k : nat) (tk : Task L) :
  reach s -> tasks s !! k = Some tk -> holds_map tk = true ->
  is_Some (run (ByTask k) s).
Proof.
  intros Hr Hk Hh. simpl. unfold Crawl_step. rewrite Hk.
  unfold holds_map in Hh. destruct (pc tk) as [| | |rest c| | |] eqn:Hpc; try done.
  destruct rest as [|u rest].
  - assert (Hm : mapAccess s = false).
    { pose proof (sync_lock s (reachable_sync url0 depth0 fetcher0 s Hr)) as Hlock.
      pose proof (count_if_lookup holds_map _ _ _ Hk) as Hone.
      unfold holds_map at 1 in Hone. rewrite Hpc in Hone.
      destruct (mapAccess s); simpl in *; [lia | done]. }
    rewrite Hm. by eexists.
  - destruct (seen (history s) u); by eexists.
Qed.

Lemma last_live (ts : list (Task L)) :
  (forall i t, ts !! i = Some t -> pc t = Returned) \/
  exists i t, ts !! i = Some t /\ pc t <> Returned /\
    forall j tj, (i < j)%nat -> ts !! j = Some tj -> pc tj = Returned.
Proof.
  induction ts as [|x ts IH] using rev_ind; [left; by intros [|i] t|].
  destruct (is_Returned (pc x)) eqn:Hx.
  - assert (Hpx : pc x = Returned) by (by destruct (pc x)).
    destruct IH as [Hall | (i & t & Hi & Hpc & Hlast)].
    + left. intros j tj Hj. apply lookup_app_Some in Hj as [Hj | [_ Hj]]; [eauto|].
      apply list_lookup_singleton_Some in Hj as [_ <-]. done.
    + right. exists i, t. split; [by apply lookup_app_l_Some|]. split; [done|].
      intros j tj Hlt Hj. apply lookup_app_Some in Hj as [Hj | [_ Hj]]; [eauto|].
      apply list_lookup_singleton_Some in Hj as [_ <-]. done.
  - right. exists (length ts), x. split.
    { rewrite lookup_app_r by lia. by rewrite Nat.sub_diag. }
    split; [by intros Hp; rewrite Hp in Hx|].
    intros j tj Hlt Hj. apply lookup_lt_Some in Hj.
    rewrite length_app in Hj. simpl in Hj. lia.
Qed.

(** As long as the top-level [Crawl] has not returned, a move is enabled. *)
Lemma reachable_enabled (s : State F L) :
  reach s -> returned s = false -> exists mv, is_Some (run mv s).
Proof.
  intros Hr Hret. pose proof (reachable_sync url0 depth0 fetcher0 s Hr) as Hs.
  destruct (reachable_root s Hr) as (t0 & H0 & Ha0).
  destruct (last_live (tasks s)) as [Hall | (i & t & Hi & Hpc & Hlast)].
  { exists ByCrawl. simpl. unfold Crawl_return.
    pose proof (root_sent s t0 Hr H0 (Hall _ _ H0)) as Hbuf.
    rewrite H0, (Hall _ _ H0), Hret in *.
    destruct (done_buf s); simpl in *; [lia | by eexists]. }
  assert (Hholder : mapAccess s = false -> exists k, is_Some (run (ByTask k) s)).
  { intros Hm. pose proof (sync_lock s Hs) as Hlock. rewrite Hm in Hlock.
    destruct (count_if_pos holds_map (tasks s)) as (k & tk & Hk & Hh);
      [simpl in Hlock; lia|].
    exists k. by apply (holder_enabled s k tk). }
  destruct (pc t) as [|fr|us|rest c|c| |] eqn:Hp; [..|done].
  - exists (ByTask i). simpl. unfold Crawl_step. rewrite Hi, Hp.
    destruct (depth t <=? 0); by eexists.
  - exists (ByTask i). simpl. unfold Crawl_step. rewrite Hi, Hp.
    destruct (Fetch_step (fetcher s) fr) as [f1 [fr1 | [us1 [e|]]]]; by eexists.
  - destruct (mapAccess s) eqn:Hm.
    + exists (ByTask i). simpl. unfold Crawl_step. rewrite Hi, Hp, Hm. by eexists.
    + destruct (Hholder eq_refl) as [k Hk]. by exists (ByTask k).
  - exists (ByTask i). apply (holder_enabled s i t Hr Hi).
    unfold holds_map. by rewrite Hp.
  - exists (ByTask i). simpl. unfold Crawl_step. rewrite Hi, Hp.
    pose proof (sync_live s Hs i t Hi) as Hl. rewrite Hp in Hl. simpl in Hl.
    rewrite (count_if_none (live_child i) (tasks s)) in Hl.
    + subst c. by eexists.
    + intros j tj Hj. unfold live_child, is_child.
      destruct (bool_decide (done tj = doneHere i)) eqn:Hd; [|done].
      apply bool_decide_eq_true in Hd.
      pose proof (sync_parent s Hs j tj Hj) as Hlt. rewrite Hd in Hlt.
      by rewrite (Hlast j tj Hlt Hj).
  - destruct (done t) as [|p] eqn:Hd.
    + exists (ByTask i). apply (send_enabled url0 depth0 fetcher0 s i t Hr Hi Hp).
      by rewrite Hd.
    + pose proof (sync_parent s Hs i t Hi) as Hlt. rewrite Hd in Hlt.
      destruct (lookup_lt_is_Some_2 (tasks s) p) as [tp Htp].
      { apply lookup_lt_Some in Hi. lia. }
      pose proof (sync_live s Hs p tp Htp) as Hl.
      pose proof (count_if_lookup (live_child p) _ _ _ Hi) as Hone.
      assert (Hlc : live_child p t = true).
      { unfold live_child, is_child. by rewrite bool_decide_eq_true_2, Hp. }
      rewrite Hlc, Hl in Hone. simpl in Hone.
      destruct (pc tp) as [| | |rest c|c| |] eqn:Hpp; simpl in Hone; try lia.
      * exists (ByTask p). apply (holder_enabled s p tp Hr Htp).
        unfold holds_map. by rewrite Hpp.
      * exists (ByTask i). apply (send_enabled url0 depth0 fetcher0 s i t Hr Hi Hp).
        rewrite Hd. eauto.
Qed.

(** No deadlock (lines 60-112).  As long as the top-level [Crawl] has not
    returned, some goroutine can take a step: the map is always given
    back, and a task that waits for signals has a child that will send
    one.  (A call of [Fetch] is assumed not to block.) *)
Theorem Crawl_progress (s : State F L) :
  reach s -> returned s = false -> exists mv, is_Some (run mv s).
Proof. apply reachable_enabled. Qed.

(** After the return (lines 65-69).  When the top-level [Crawl] has
    returned nothing is left to run: no task and not the caller can take
    a step, the history map is back in its channel and the buffer of
    [done] is empty. *)
Theorem Crawl_returned_is_final (s : State F L) :
  reach s -> returned s = true ->
  (forall mv, run mv s = None) /\
  mapAccess s = true /\
  done_buf s = [].
Proof.
  intros Hr Hret. pose proof (reachable_sync url0 depth0 fetcher0 s Hr) as Hs.
  pose proof (returned_all url0 depth0 fetcher0 s Hr Hret) as Hall.
  split; [|split].
  - intros [i|]; simpl.
    + unfold Crawl_step. destruct (tasks s !! i) as [t|] eqn:Hi; [|done].
      by rewrite (Hall i t Hi).
    + unfold Crawl_return. destruct (tasks s !! 0%nat) as [t0|]; [|done].
      rewrite Hret. by destruct (pc t0), (done_buf s).
  - pose proof (sync_lock s Hs) as Hlock.
    rewrite (count_if_none holds_map (tasks s)) in Hlock.
    + destruct (mapAccess s); simpl in *; [done | lia].
    + intros i t Hi. unfold holds_map. by rewrite (Hall i t Hi).
  - destruct (sync_top s Hs Hret) as (t0 & H0 & Hp0).
    pose proof (root_sent s t0 Hr H0 Hp0) as Hbuf. rewrite Hret in Hbuf.
    destruct (done_buf s); simpl in *; [done | lia].
Qed.

(** ** Depth zero, and where tasks come from *)

(** Depth exhausted at the start (lines 74-77).  With a start depth of 0
    or less, [Fetch] is never called, the memory of the fetcher is never
    touched, no task is started and only the start URL is marked; and the
    call returns after the two steps of the root task. *)
Theorem Crawl_depth_zero (s : State F L) :
  depth0 <= 0 ->
  reach s ->
  calls s = [] /\ links s = [] /\ fetcher s = fetcher0 /\
  history s = {[ url0 := true ]} /\
  (exists q, tasks s = [mkTask url0 depth0 done_top q] /\
             (q = Start \/ q = Send \/ q = Returned)) /\
  exec [ByTask 0; ByTask 0; ByCrawl] init
    = Some (mkState fetcher0 {[ url0 := true ]} true
              [mkTask url0 depth0 done_top Returned] [] true [] []).
Proof.
  intros Hd Hr.
  assert (Hb : (depth0 <=? 0) = true) by (apply Z.leb_le; lia).
  assert (Hinv : calls s = [] /\ links s = [] /\ fetcher s = fetcher0 /\
                 history s = {[ url0 := true ]} /\
                 exists q, tasks s = [mkTask url0 depth0 done_top q] /\
                           (q = Start \/ q = Send \/ q = Returned)).
  { revert s Hr. apply (reachable_ind url0 depth0 fetcher0).
    - repeat (split; [done|]). exists Start. auto.
    - intros mv s1 s2 _ (Hc & Hl & Hf & Hh & q & Hts & Hq) Hrun.
      destruct s1 as [f1 h1 m1 ts1 b1 r1 c1 l1]. simpl in *. subst.
      destruct mv as [[|i]|]; simpl in Hrun; unfold Crawl_step, Crawl_return in Hrun;
        simpl in Hrun; [| done |].
      + destruct Hq as [-> | [-> | ->]]; simpl in Hrun.
        * rewrite Hb in Hrun. simplify_eq. simpl.
          repeat (split; [done|]). exists Send. auto.
        * destruct (length b1 <? 1)%nat; simplify_eq. simpl.
          repeat (split; [done|]). exists Returned. auto.
        * done.
      + destruct Hq as [-> | [-> | ->]]; simpl in Hrun; try done.
        destruct b1; [done|]. destruct r1; simplify_eq. simpl.
        repeat (split; [done|]). exists Returned. auto. }
  destruct Hinv as (? & ? & ? & ? & ?). repeat (split; [done|]).
  simpl. unfold Crawl_step, Crawl_return. simpl. rewrite Hb. reflexivity.
Qed.

Lemma fmap_arguments_retag (ts : list (Task L)) (i : nat) (t : Task L) (q : PC L) :
  ts !! i = Some t -> arguments <$> <[i := at_PC t q]> ts = arguments <$> ts.
Proof.
  intros Hi. rewrite list_fmap_insert.
  apply list_insert_id. by rewrite list_lookup_fmap, Hi.
Qed.

(** Where tasks come from (lines 96-101).  Every task but the root was
    started by a task whose call of [Fetch] returned a list of links that
    contains the URL of the new task, with that task's depth minus one. *)
Theorem Crawl_children_from_links (s : State F L) (i p : nat) (t : Task L) :
  reach s ->
  tasks s !! i = Some t ->
  done t = doneHere p ->
  exists tp us,
    tasks s !! p = Some tp /\ (url tp, us) ∈ links s /\ url t ∈ us /\
    depth t = depth tp - 1.
Proof.
  intros Hr Hi Hd.
  set (P := fun (args : list (string * Z * chan)) (lk : list (string * list string)) =>
              forall i u d p, args !! i = Some (u, d, doneHere p) ->
                exists up dp cp us,
                  args !! p = Some (up, dp, cp) /\ (up, us) ∈ lk /\ u ∈ us /\
                  d = dp - 1).
  assert (HP : P (arguments <$> tasks s) (links s)).
  { clear i p t Hi Hd. revert s Hr. apply (reachable_ind url0 depth0 fetcher0).
    - intros [|i] u d p Hi; simplify_eq/=.
    - intros mv s1 s2 Hr1 IH Hrun.
      pose proof (reachable_depth url0 depth0 fetcher0 s1 Hr1) as Hdep.
      assert (Hmono : forall lk', (forall x, x ∈ links s1 -> x ∈ lk') ->
                P (arguments <$> tasks s1) lk').
      { intros lk' Hsub i u d p Hi.
        destruct (IH i u d p Hi) as (up & dp & cp & us & ? & ? & ? & ?).
        exists up, dp, cp, us. auto. }
      run_inv Hrun; simpl;
        try (rewrite fmap_arguments_retag by eassumption; by apply Hmono).
      + rewrite fmap_arguments_retag by eassumption.
        apply Hmono. intros x Hx. apply elem_of_app. auto.
      + (* a spawn *)
        rewrite fmap_app, fmap_arguments_retag by done.
        intros j u d p Hj. apply lookup_app_Some in Hj as [Hj | [Hge Hj]].
        * destruct (IH j u d p Hj) as (up & dp & cp & us & Hp & ? & ? & ?).
          exists up, dp, cp, us. split; [by apply lookup_app_l_Some | done].
        * apply list_lookup_singleton_Some in Hj as [_ Hj]. simpl in Hj.
          unfold arguments in Hj. simpl in Hj. simplify_eq.
          destruct (depth_urls _ _ _ Hdep p t u Heqo) as (us & Hus & Hu).
          { rewrite Heqp. apply list_elem_of_here. }
          exists (url t), (depth t), (done t), us.
          split; [|done]. apply lookup_app_l_Some.
          by rewrite list_lookup_fmap, Heqo.
      + (* a rendezvous *)
        rewrite fmap_arguments_retag.
        * rewrite fmap_arguments_retag by done. by apply Hmono.
        * rewrite list_lookup_insert_ne; [done|].
          intros ->. simplify_eq. congruence.
      + by apply Hmono. }
  assert (Hargs : (arguments <$> tasks s) !! i = Some (url t, depth t, doneHere p)).
  { rewrite list_lookup_fmap, Hi. unfold arguments. simpl. by rewrite Hd. }
  destruct (HP i _ _ p Hargs) as (up & dp & cp & us & Hp & Hlk & Hu & Hdp).
  rewrite list_lookup_fmap in Hp.
  destruct (tasks s !! p) as [tp|] eqn:Htp; [|done].
  simpl in Hp. unfold arguments in Hp. simplify_eq.
  by exists tp, us.
Qed.

(** ** Nothing is dropped *)

Lemma visit_inv_init : visit_inv init.
Proof.
  constructor; simpl.
  - intros p us u Hp. by apply elem_of_nil in Hp.
  - intros [|i] t Hi; simplify_eq/=. done.
Qed.

(** Task [i] moves to [q]. *)
Lemma visit_inv_retag (s s' : State F L) (i : nat) (t : Task L) (q : PC L) :
  visit_inv s ->
  tasks s !! i = Some t ->
  tasks s' = <[i := at_PC t q]> (tasks s) ->
  (forall u, history s !! u = Some true -> history s' !! u = Some true) ->
  (forall u, u ∈ to_visit (pc t) ->
     u ∈ to_visit q \/ history s' !! u = Some true) ->
  (forall p us u, (p, us) ∈ links s' -> u ∈ us ->
     (p, us) ∈ links s \/ (p = url t /\ u ∈ to_visit q)) ->
  (forall u, u ∈ calls s -> u ∈ calls s') ->
  (pc t = Start -> q <> Start -> 0 < depth t -> url t ∈ calls s') ->
  visit_inv s'.
Proof.
  intros [Hlinks Hcalled] Hi Hts Hhist Hvisit Hl Hc Hq.
  assert (Hii : <[i := at_PC t q]> (tasks s) !! i = Some (at_PC t q)).
  { apply list_lookup_insert_eq. by eapply lookup_lt_Some. }
  constructor; rewrite ?Hts.
  - intros p us u Hp Hu. destruct (Hl p us u Hp Hu) as [Hold | [-> Hin]].
    + destruct (Hlinks p us u Hold Hu) as [Hh | (j & tj & Hj & Hpj & Hin)];
        [by left; auto|].
      destruct (decide (j = i)) as [-> | Hne].
      * simplify_eq. destruct (Hvisit u Hin) as [Hin' | Hh]; [|by left].
        right. by exists i, (at_PC t q).
      * right. exists j, tj. by rewrite list_lookup_insert_ne.
    + right. by exists i, (at_PC t q).
  - intros j tj Hj Hpc Hd.
    apply list_lookup_insert_Some in Hj as [(-> & <- & _) | (Hne & Hj)]; simpl in *.
    + destruct (pc t) eqn:Hst; [by apply Hq|..];
        apply Hc, (Hcalled j t); by rewrite ?Hst.
    + apply Hc. by apply (Hcalled j tj).
Qed.

Lemma visit_inv_move (s s' : State F L) (i : nat) (t : Task L) (q : PC L) :
  visit_inv s ->
  tasks s !! i = Some t ->
  tasks s' = <[i := at_PC t q]> (tasks s) ->
  history s' = history s -> links s' = links s -> calls s' = calls s ->
  (forall u, u ∈ to_visit (pc t) ->
     u ∈ to_visit q \/ history s !! u = Some true) ->
  (pc t = Start -> q = Start \/ depth t <= 0) ->
  visit_inv s'.
Proof.
  intros Hs Hi Hts Hh Hl Hc Hv Hq.
  eapply (visit_inv_retag s s' i t q Hs Hi Hts); rewrite ?Hh, ?Hl, ?Hc; auto.
  intros Hst Hq' Hd. destruct (Hq Hst); [done | lia].
Qed.

(** A new task is added to the pool. *)
Lemma visit_inv_spawn (s s' : State F L) (u : string) (d : Z) (c : chan) :
  visit_inv s ->
  tasks s' = tasks s ++ [mkTask u d c Start] ->
  history s' = history s -> links s' = links s -> calls s' = calls s ->
  visit_inv s'.
Proof.
  intros [Hlinks Hcalled] Hts Hh Hl Hc.
  constructor; rewrite ?Hts, ?Hh, ?Hl, ?Hc.
  - intros p us v Hp Hv. destruct (Hlinks p us v Hp Hv) as [Hh' | (j & tj & Hj & Hpj & Hin)];
      [by left|].
    right. exists j, tj. split; [|done]. by apply lookup_app_l_Some.
  - intros j tj Hj. apply lookup_app_Some in Hj as [Hj | [Hge Hj]]; [eauto|].
    apply list_lookup_singleton_Some in Hj as [_ <-]. done.
Qed.

Lemma seen_marked (m : gmap string bool) (u : string) :
  seen m u = true -> m !! u = Some true.
Proof. unfold seen. destruct (m !! u) as [[|]|]; simpl; done. Qed.

Lemma visit_inv_step (mv : Move) (s s' : State F L) :
  visit_inv s -> run mv s = Some s' -> visit_inv s'.
Proof.
  intros Hs Hrun. run_inv Hrun.
  all: try (eapply (visit_inv_move s _ _ _ _ Hs);
            [ eassumption | reflexivity | reflexivity | reflexivity | reflexivity
            | match goal with Hp : pc _ = _ |- _ => rewrite Hp end; simpl;
              intros u Hu; first [by apply elem_of_nil in Hu | by left]
            | match goal with Hp : pc _ = _ |- _ => rewrite Hp end; done ];
            fail).
  - (* depth exhausted *)
    eapply (visit_inv_move s _ _ _ _ Hs); try done.
    + rewrite Heqp. intros u Hu. by apply elem_of_nil in Hu.
    + intros _. right. by apply Z.leb_le.
  - (* the call *)
    eapply (visit_inv_retag s _ i t _ Hs); [done | reflexivity | simpl ..]; auto.
    + rewrite Heqp. intros u Hu. by apply elem_of_nil in Hu.
    + intros u Hu. apply elem_of_app. by left.
    + intros _ _ _. apply elem_of_app. right. apply list_elem_of_here.
  - (* the call returns links *)
    eapply (visit_inv_retag s _ i t _ Hs); [done | reflexivity | simpl ..]; auto.
    + rewrite Heqp. intros u Hu. by apply elem_of_nil in Hu.
    + intros p us u Hp Hu. apply elem_of_app in Hp as [Hp | Hp]; [by left|].
      apply list_elem_of_singleton in Hp. simplify_eq. by right.
    + by rewrite Heqp.
  - (* a link that is marked *)
    eapply (visit_inv_move s _ _ _ _ Hs); try done; rewrite Heqp; [|done].
    simpl. intros u Hu. apply elem_of_cons in Hu as [-> | Hu]; [|by left].
    right. by apply seen_marked.
  - (* a spawn *)
    pose (s1 := mkState (fetcher s) (<[s0 := true]> (history s)) (mapAccess s)
                  (<[i := at_PC t (Range l (count + 1))]> (tasks s))
                  (done_buf s) (returned s) (calls s) (links s)).
    assert (H1 : visit_inv s1).
    { eapply (visit_inv_retag s s1 i t _ Hs); [done | reflexivity | simpl ..]; auto.
      - intros u Hu. destruct (decide (s0 = u)) as [-> | Hne];
          [apply lookup_insert_eq | by rewrite lookup_insert_ne].
      - rewrite Heqp. simpl. intros u Hu.
        apply elem_of_cons in Hu as [-> | Hu]; [|by left].
        right. apply lookup_insert_eq.
      - by rewrite Heqp. }
    by eapply (visit_inv_spawn s1 _ _ _ _ H1).
  - (* a rendezvous *)
    pose (s1 := with_tasks s (<[i := at_PC t Returned]> (tasks s))).
    assert (H1 : visit_inv s1).
    { eapply (visit_inv_move s s1 i t _ Hs); try done; rewrite Heqp; [|done].
      intros u Hu. by apply elem_of_nil in Hu. }
    eapply (visit_inv_move s1 _ owner t0 _ H1); [|reflexivity ..| |].
    + simpl. rewrite list_lookup_insert_ne; [done|].
      intros ->. simplify_eq. congruence.
    + rewrite Heqp0. intros u Hu. by apply elem_of_nil in Hu.
    + by rewrite Heqp0.
  - destruct Hs. by constructor.
Qed.

Lemma reachable_visit (s : State F L) : reach s -> visit_inv s.
Proof.
  apply (reachable_ind url0 depth0 fetcher0); [apply visit_inv_init|].
  intros mv s1 s2 _. apply visit_inv_step.
Qed.

(** Nothing is dropped (lines 74-101).  When the top-level [Crawl] has
    returned, every link that a call of [Fetch] returned is the URL of a
    task, and every task with positive depth has called [Fetch] for its
    URL: a link is left out only for lack of depth, or because [Fetch]
    did not return it. *)
Theorem Crawl_visits_all (s : State F L) :
  reach s -> returned s = true ->
  (forall p us u, (p, us) ∈ links s -> u ∈ us ->
     history s !! u = Some true /\
     exists i t, tasks s !! i = Some t /\ url t = u) /\
  (forall i t, tasks s !! i = Some t -> 0 < depth t -> url t ∈ calls s).
Proof.
  intros Hr Hret. pose proof (reachable_visit s Hr) as Hv.
  pose proof (reachable_dedup url0 depth0 fetcher0 s Hr) as Hd.
  pose proof (returned_all url0 depth0 fetcher0 s Hr Hret) as Hall.
  split.
  - intros p us u Hp Hu.
    destruct (visit_links s Hv p us u Hp Hu) as [Hh | (j & tj & Hj & _ & Hin)].
    + split; [done|]. by destruct (dedup_hist s Hd u true Hh) as [_ ?].
    + rewrite (Hall j tj Hj) in Hin. by apply elem_of_nil in Hin.
  - intros i t Hi Hpos. apply (visit_called s Hv i t Hi); [|done].
    by rewrite (Hall i t Hi).
Qed.

End CRAWL_MORE.

(* ===================================================================== *)
(** * Further properties of the fetcher *)
(* ===================================================================== *)

Section FETCH_MORE.

Variable maxURLS : Z.
Variable web : string -> option (list Token).

Abbreviation step := (fetch_step maxURLS web).

(** A step that stays inside the call keeps what the call will have
    collected at the end of the page, unless it goes to the abort point. *)
Lemma fetch_step_scan (sh sh' : Shared) (fr fr' : Frame) :
  fpc fr <> AtGet ->
  step sh fr = (sh', inl fr') ->
  f sh' = f sh /\ arg_url fr' = arg_url fr /\ fpc fr' <> AtGet /\
  match fpc fr' with
  | AtAbort => furls fr' = furls fr /\ ftitle fr' = ftitle fr /\ fpc fr = AtNext
  | AtStoreAbort =>
      furls fr' = furls fr /\ ftitle fr' = ftitle fr /\ fpc fr = AtAbort
  | _ =>
      furls fr' ++ filter not_file (links_ahead fr')
        = furls fr ++ filter not_file (links_ahead fr) /\
      title_ahead fr' = title_ahead fr
  end.
Proof.
  intros Hget Hs. unfold links_ahead, title_ahead.
  fetch_inv Hs; simpl in *; try done;
    repeat match goal with Hz : z _ = _ |- _ => rewrite Hz; clear Hz end;
    simpl;
    repeat match goal with He : ?x = _ |- context [?x] => rewrite He end;
    simpl;
    try (destruct (page_scan _ _); simpl);
    rewrite ?filter_cons; unfold not_file;
    repeat match goal with He : ?x = _ |- context [?x] => rewrite He end;
    simpl; rewrite <- ?app_assoc; done.
Qed.

Lemma fetch_step_dots (sh sh' : Shared) (fr fr' : Frame) :
  fpc fr <> AtGet ->
  step sh fr = (sh', inl fr') ->
  fpc fr' <> AtAbort -> fpc fr' <> AtStoreAbort ->
  stdout sh' ++ replicate (dots_ahead fr') "."%string
    = stdout sh ++ replicate (dots_ahead fr) "."%string.
Proof.
  intros Hget Hs Hab Hab'. unfold dots_ahead.
  fetch_inv Hs; simpl in *; try done;
    repeat match goal with Hz : z _ = _ |- _ => rewrite Hz; clear Hz end;
    simpl;
    repeat match goal with He : ?x = _ |- context [?x] => rewrite He end;
    simpl;
    try (destruct (page_scan _ _); simpl);
    rewrite <- ?app_assoc; done.
Qed.

Lemma fetch_step_counted (sh sh' : Shared) (fr fr' : Frame) :
  fpc fr <> AtGet ->
  step sh fr = (sh', inl fr') ->
  (forall v, fpc fr = AtIncr v -> int_incr v = v + 1) ->
  counted sh' fr' - Z.of_nat (length (furls fr'))
    = counted sh fr - Z.of_nat (length (furls fr)).
Proof.
  intros Hget Hs Hv. unfold counted.
  fetch_inv Hs; simpl in *; try done; rewrite ?length_app; simpl; try lia.
  rewrite (Hv v eq_refl). lia.
Qed.

Lemma fetch_step_to_abort (sh sh' : Shared) (fr fr' : Frame) :
  step sh fr = (sh', inl fr') -> fpc fr' = AtAbort ->
  countCrawled sh > maxURLS /\ fpc fr = AtNext.
Proof.
  intros Hs Hab. fetch_inv Hs; simpl in *; try done. split; [lia | done].
Qed.


(** [Fetch] below the cap (lines 156-217).  When the page is downloaded
    and the counter plus the number of links to accept does not exceed the
    maximum, a call of [Fetch] that runs without interference returns
    without error all the links of the page that begin with "http" and are
    no files, in the order of the page; it stores them with the title of
    the page under its URL, adds their number to the counter and prints
    one dot for every link that begins with "http", files included. *)
Theorem Fetch_below_cap (sh : Shared) (url : string) (body : list Token) :
  web url = Some body ->
  - 2 ^ 63 <= countCrawled sh ->
  countCrawled sh + Z.of_nat (length (page_links body)) <= maxURLS ->
  maxURLS < 2 ^ 63 ->
  Fetch maxURLS web (fetch_fuel web (fetch_begin url)) sh url
  = Some (mkShared
            (countCrawled sh + Z.of_nat (length (page_links body)))
            (<[url := mkResult (page_title body) (page_links body)]> (f sh))
            (stdout sh
             ++ replicate (length (page_scan body EmptyString).2) "."%string),
          (Some (page_links body), None)).
Proof.
  unfold page_links, page_title. intros Hweb Hlow Hcap Hmax.
  destruct (fetch_run_total maxURLS web (fetch_fuel web (fetch_begin url))
              sh (fetch_begin url)) as [[sh' r] Hrun]; [lia|].
  unfold Fetch. rewrite Hrun. f_equal.
  set (C := (page_scan body EmptyString).2) in *.
  set (A := filter not_file C) in *.
  set (T := (page_scan body EmptyString).1).
  set (c0 := countCrawled sh) in *.
  set (OUT := stdout sh ++ replicate (length C) "."%string).
  set (J := fun (sh1 : Shared) (fr : Frame) =>
              arg_url fr = url /\ f sh1 = f sh /\
              match fpc fr with
              | AtGet => sh1 = sh
              | AtAbort | AtStoreAbort => False
              | _ => furls fr ++ filter not_file (links_ahead fr) = A /\
                     title_ahead fr = T /\
                     counted sh1 fr = c0 + Z.of_nat (length (furls fr)) /\
                     stdout sh1 ++ replicate (dots_ahead fr) "."%string = OUT
              end).
  set (Q := fun (sh1 : Shared) (r1 : FetchRet) =>
              (sh1, r1) = (mkShared (c0 + Z.of_nat (length A))
                             (<[url := mkResult T A]> (f sh)) OUT,
                           (Some A, None))).
  change (Q sh' r).
  eapply (fetch_run_invariant maxURLS web J Q); [| | |exact Hrun]; unfold Q.
  - intros sh1 fr sh2 fr' (Hu & Hf & HI) Hs.
    destruct (fpc fr) eqn:Hpc.
    { unfold fetch_step in Hs. rewrite Hpc, Hu, Hweb in Hs.
      injection Hs as <- <-. subst sh1. unfold J, counted, dots_ahead. simpl.
      repeat split; try done. lia. }
    all: try (unfold fetch_step in Hs; rewrite Hpc in Hs; by simplify_eq).
    all: try (by destruct HI).
    all: destruct HI as (HA & HT & Hc & Hout).
    all: assert (Hlen : (length (furls fr) <= length A)%nat)
      by (rewrite <- HA, length_app; lia).
    all: destruct (fetch_step_scan sh1 sh2 fr fr') as (Hf' & Hu' & Hg' & Hsc);
      [by rewrite Hpc | done |].
    all: assert (Hcount := fetch_step_counted sh1 sh2 fr fr').
    all: destruct (fpc fr') eqn:Hpc'; try done.
    all: try (destruct (fetch_step_to_abort sh1 sh2 fr fr' Hs Hpc') as [Hgt Hn];
              unfold counted in Hc; rewrite Hpc in Hc; try congruence; lia).
    all: try (destruct Hsc as (_ & _ & ?); congruence).
    all: pose proof (fetch_step_dots sh1 sh2 fr fr') as Hdots;
      rewrite Hpc, Hpc' in Hdots;
      specialize (Hdots ltac:(done) Hs ltac:(done) ltac:(done)).
    all: destruct Hsc as [HA' HT'].
    all: unfold J; rewrite Hpc', Hu', Hf', Hu, Hf, HA', HT', Hdots.
    all: do 4 (split; [done|]); split; [|done].
    all: rewrite Hpc in Hcount; specialize (Hcount ltac:(done) Hs).
    all: try (specialize (Hcount ltac:(done)); lia).
    all: assert (Hc2 := Hc); unfold counted in Hc2; rewrite Hpc in Hc2.
    all: match goal with
         | Hp : fpc _ = AtIncr ?v, Hc' : ?v + 1 = _ |- _ =>
             assert (Hv : forall w, AtIncr v = AtIncr w -> int_incr w = w + 1)
               by (intros w Hw; simplify_eq; apply int_incr_small; lia)
         end.
    all: specialize (Hcount Hv); lia.
  - intros sh1 fr sh2 r1 (Hu & Hf & HI) Hs. unfold fetch_step in Hs.
    revert HI Hs. destruct (fpc fr) eqn:Hpc; intros HI Hs;
      fetch_inv Hs; simpl in *; [done|].
    destruct HI as (HA & HT & Hc & Hout).
    unfold links_ahead, title_ahead, counted, dots_ahead in *. rewrite Hpc in *.
    simpl in HA, Hout. rewrite app_nil_r in HA, Hout.
    by rewrite Hc, Hf, HA, HT, Hout.
  - unfold J. simpl. done.
Qed.

End FETCH_MORE.

(* ===================================================================== *)
(** * The program: overlapping writes to the map [f] *)
(* ===================================================================== *)

Section PROGRAM_LEMMAS.

Variable maxURLS : Z.
Variable web : string -> option (list Token).
Variables (url0 : string) (depth0 : Z).

Abbreviation impl := (fetcher_Fetcher maxURLS web).
Abbreviation run := (@run Shared Frame impl).
Abbreviation exec := (@exec Shared Frame impl).
Abbreviation reach := (@reachable Shared Frame impl url0 depth0 Shared_init).
Abbreviation prun := (prog_run maxURLS web).
Abbreviation pexec := (prog_exec maxURLS web).
Abbreviation preach := (prog_reachable maxURLS web url0 depth0).

Lemma prog_run_run (mv : Move) (s s' : State Shared Frame) :
  prun mv s = Some s' <-> fatal s = false /\ run mv s = Some s'.
Proof.
  unfold prog_run. destruct (fatal s); split; try done;
    [by intros [? ?] | by intros [_ ?]].
Qed.

Lemma prog_exec_exec (sched : list Move) (s s' : State Shared Frame) :
  pexec sched s = Some s' -> exec sched s = Some s'.
Proof.
  revert s. induction sched as [|mv sched IH]; intros s Hex; simpl in *; [done|].
  destruct (prun mv s) as [s1|] eqn:H1; [|done].
  apply prog_run_run in H1 as [_ H1]. rewrite H1. by apply IH.
Qed.

(** The states of the program are states of the crawler with the
    program's fetcher. *)
Lemma prog_reachable_reachable (s : State Shared Frame) : preach s -> reach s.
Proof. intros [sched Hs]. exists sched. by apply prog_exec_exec. Qed.

Lemma prog_exec_app (sched1 sched2 : list Move) (s : State Shared Frame) :
  pexec (sched1 ++ sched2) s =
  match pexec sched1 s with Some s1 => pexec sched2 s1 | None => None end.
Proof.
  revert s. induction sched1 as [|mv sched1 IH]; intros s; simpl; [reflexivity|].
  destruct (prun mv s); [apply IH | reflexivity].
Qed.

Lemma prog_reachable_exec (sched : list Move) (s s' : State Shared Frame) :
  preach s -> pexec sched s = Some s' -> preach s'.
Proof.
  intros [sched0 H0] H1. exists (sched0 ++ sched). by rewrite prog_exec_app, H0.
Qed.

Lemma b2z_bounds (b : bool) : 0 <= b2z b <= 1.
Proof. destruct b; simpl; lia. Qed.

Lemma writers_nonneg (s : State Shared Frame) : 0 <= writers s.
Proof. apply count_if_nonneg. Qed.

(** A step lets at most one more task into a write. *)
Lemma writers_step (mv : Move) (s s' : State Shared Frame) :
  run mv s = Some s' -> writers s' <= writers s + 1.
Proof.
  intros Hrun. unfold writers.
  run_inv Hrun; simpl; rewrite ?count_if_app; simpl;
    repeat first
      [ erewrite count_if_insert by eassumption
      | erewrite count_if_insert
          by (rewrite list_lookup_insert_ne;
              [eassumption | intros ?; subst; simplify_eq; congruence]) ];
    repeat match goal with
           | |- context [b2z (in_write ?t)] =>
               lazymatch goal with
               | _ : 0 <= b2z (in_write t) <= 1 |- _ => fail
               | _ => pose proof (b2z_bounds (in_write t))
               end
           end;
    unfold in_write in *; simpl in *; rewrite ?Heqp, ?Heqp0 in *; simpl in *;
    try lia.
Qed.

(** A task that is inside a write can complete it, and is then no longer
    inside a write. *)
Lemma writer_completes (s : State Shared Frame) (i : nat) (t : Task Frame) :
  tasks s !! i = Some t -> in_write t = true ->
  exists s', run (ByTask i) s = Some s' /\ writers s' = writers s - 1.
Proof.
  intros Hi Hw. unfold in_write in Hw.
  destruct (pc t) as [|fr| | | | |] eqn:Hpc; try done.
  simpl. unfold Crawl_step. rewrite Hi, Hpc. simpl. unfold fetch_step, writers.
  destruct (fpc fr) eqn:Hf; try done; eexists; (split; [reflexivity|]); simpl;
    rewrite (count_if_insert _ _ _ _ _ Hi); unfold in_write; rewrite Hpc, Hf;
    simpl; lia.
Qed.

(** As long as no two writes overlap and the top-level [Crawl] has not
    returned, there is a step after which no two writes overlap: the task
    that is inside a write completes it, and when there is none any
    enabled step will do. *)
Lemma safe_move (s : State Shared Frame) :
  reach s -> returned s = false -> fatal s = false ->
  exists mv s', prun mv s = Some s' /\ fatal s' = false.
Proof.
  intros Hr Hret Hfat. unfold fatal in *. apply Z.ltb_ge in Hfat.
  pose proof (writers_nonneg s) as Hnn.
  destruct (decide (writers s = 1)) as [Hone | Hzero].
  - destruct (count_if_pos in_write (tasks s)) as (i & t & Hi & Hw);
      [unfold writers in Hone; lia|].
    destruct (writer_completes s i t Hi Hw) as (s' & Hrun & Hw').
    exists (ByTask i), s'. split.
    + apply prog_run_run. split; [|done]. unfold fatal. apply Z.ltb_ge. lia.
    + apply Z.ltb_ge. lia.
  - destruct (reachable_enabled url0 depth0 Shared_init s Hr Hret) as (mv & s' & Hrun).
    exists mv, s'. split.
    + apply prog_run_run. split; [|done]. unfold fatal. apply Z.ltb_ge. lia.
    + pose proof (writers_step mv s s' Hrun). apply Z.ltb_ge. lia.
Qed.

End PROGRAM_LEMMAS.

(* ===================================================================== *)
(** * Termination of the crawler with the program's fetcher *)
(* ===================================================================== *)

Section TOTAL.

Context {A : Type} (g : A -> Z).

Lemma total_app (l1 l2 : list A) : total g (l1 ++ l2) = total g l1 + total g l2.
Proof. induction l1 as [|x l1 IH]; simpl; lia. Qed.

Lemma total_insert (l : list A) (i : nat) (x y : A) :
  l !! i = Some x -> total g (<[i := y]> l) = total g l - g x + g y.
Proof.
  revert i. induction l as [|a l IH]; intros [|i] Hi; simplify_eq/=; [lia|].
  rewrite (IH i Hi). lia.
Qed.

Lemma total_nonneg (l : list A) : (forall x, 0 <= g x) -> 0 <= total g l.
Proof. intros Hg. induction l as [|a l IH]; simpl; [lia|]. specialize (Hg a). lia. Qed.

End TOTAL.

Section CRAWL_TERMINATION.

Variable maxURLS : Z.
Variable web : string -> option (list Token).

Abbreviation impl := (fetcher_Fetcher maxURLS web).
Abbreviation run := (@run Shared Frame impl).
Abbreviation exec := (@exec Shared Frame impl).

Lemma work_nonneg (d : nat) (u : string) : 0 <= work web d u.
Proof.
  revert u. induction d as [|d IH]; intros u; simpl; [lia|].
  assert (0 <= total (fun v => 1 + work web d v) (may_return web (fetch_begin u))).
  { apply total_nonneg. intros v. specialize (IH v). lia. }
  lia.
Qed.

Lemma work_links_nonneg (d : Z) (us : list string) : 0 <= work_links web d us.
Proof.
  apply total_nonneg. intros v. pose proof (work_nonneg (Z.to_nat (d - 1)) v). lia.
Qed.

Lemma work_links_cons (d : Z) (u : string) (us : list string) :
  work_links web d (u :: us)
  = 1 + work web (Z.to_nat (d - 1)) u + work_links web d us.
Proof. reflexivity. Qed.

Lemma work_links_nil (d : Z) : work_links web d [] = 0.
Proof. reflexivity. Qed.

Lemma work_links_app (d : Z) (us vs : list string) :
  work_links web d (us ++ vs) = work_links web d us + work_links web d vs.
Proof. apply total_app. Qed.

(** A step inside a call of [Fetch] adds no link to those the call may
    return. *)
Lemma fetch_step_may_return (d : Z) (sh sh' : Shared) (fr fr' : Frame) :
  fetch_step maxURLS web sh fr = (sh', inl fr') ->
  work_links web d (may_return web fr') <= work_links web d (may_return web fr).
Proof.
  intros Hs. unfold may_return, links_ahead.
  fetch_inv Hs; simpl in *;
    repeat match goal with Hz : z _ = _ |- _ => rewrite Hz; clear Hz end;
    simpl;
    repeat match goal with He : ?x = _ |- context [?x] => rewrite He end;
    simpl;
    try (destruct (page_scan _ _); simpl);
    rewrite ?work_links_app, ?work_links_cons, ?work_links_nil; simpl;
    repeat match goal with
           | |- context [work_links web d ?l] =>
               lazymatch goal with
               | _ : 0 <= work_links web d l |- _ => fail
               | _ => pose proof (work_links_nonneg d l)
               end
           | |- context [work web ?n ?u] =>
               lazymatch goal with
               | _ : 0 <= work web n u |- _ => fail
               | _ => pose proof (work_nonneg n u)
               end
           end;
    try lia.
Qed.

Lemma fetch_step_returns (d : Z) (sh sh' : Shared) (fr : Frame)
    (us : option (list string)) (err : option string) :
  fetch_step maxURLS web sh fr = (sh', inr (us, err)) ->
  work_links web d (default [] us) <= work_links web d (may_return web fr).
Proof.
  intros Hs. pose proof (work_links_nonneg d (may_return web fr)) as Hnn.
  unfold may_return, links_ahead in *. fetch_inv Hs; simpl in *; try done.
  by rewrite app_nil_r.
Qed.

(** Every step takes at least one from the bound. *)
Lemma steps_left_step (mv : Move) (s s' : State Shared Frame) :
  run mv s = Some s' -> steps_left web s' < steps_left web s.
Proof.
  intros Hrun. unfold steps_left.
  run_inv Hrun; simpl; rewrite ?total_app; simpl;
    repeat first
      [ erewrite total_insert by eassumption
      | erewrite total_insert
          by (rewrite list_lookup_insert_ne;
              [eassumption | intros ?; subst; simplify_eq; congruence]) ];
    generalize (total (work_task web) (tasks s)); intros T;
    unfold work_task; simpl; rewrite ?Heqp, ?Heqp0; simpl.
  - apply Z.leb_le in Heqb.
    replace (Z.to_nat (depth t)) with 0%nat by lia. simpl. lia.
  - apply Z.leb_gt in Heqb.
    replace (Z.to_nat (depth t)) with (S (Z.to_nat (depth t - 1))) by lia.
    cbn [work]. unfold work_links. lia.
  - pose proof (fetch_step_fuel _ _ _ _ _ _ Heqp0).
    pose proof (fetch_step_may_return (depth t) _ _ _ _ Heqp0). lia.
  - pose proof (fetch_fuel_pos web fr).
    pose proof (work_links_nonneg (depth t) (may_return web fr)). lia.
  - pose proof (fetch_fuel_pos web fr).
    pose proof (fetch_step_returns (depth t) _ _ _ _ _ Heqp0). lia.
  - lia.
  - rewrite work_links_nil. lia.
  - rewrite work_links_cons.
    pose proof (work_nonneg (Z.to_nat (depth t - 1)) s0). lia.
  - rewrite work_links_cons. lia.
  - lia.
  - lia.
  - lia.
  - lia.
Qed.

Lemma work_task_nonneg (t : Task Frame) : 0 <= work_task web t.
Proof.
  unfold work_task. destruct (pc t); try lia.
  - apply work_nonneg.
  - pose proof (work_links_nonneg (depth t) (may_return web fr)). lia.
  - pose proof (work_links_nonneg (depth t) urls0). lia.
  - pose proof (work_links_nonneg (depth t) rest). lia.
Qed.

Lemma steps_left_nonneg (s : State Shared Frame) : 0 <= steps_left web s.
Proof.
  unfold steps_left.
  pose proof (total_nonneg (work_task web) (tasks s) work_task_nonneg).
  destruct (returned s); simpl; lia.
Qed.

Lemma steps_left_exec (sched : list Move) (s s' : State Shared Frame) :
  exec sched s = Some s' ->
  Z.of_nat (length sched) + steps_left web s' <= steps_left web s.
Proof.
  revert s. induction sched as [|mv sched IH]; intros s Hex; simpl in Hex.
  - simplify_eq. simpl. lia.
  - destruct (run mv s) as [s1|] eqn:H1; [|done].
    apply steps_left_step in H1. specialize (IH s1 Hex).
    rewrite length_cons. lia.
Qed.

(** Termination (lines 51-113, 156-217).  Every run of [Crawl] with a
    [fetcher] is finite, whatever the schedule: the number of steps of a
    run, together with the bound on the steps that are left in the state
    it ends in, is at most the bound computed from the start URL, the
    depth and the pages. *)
Theorem Crawl_steps_bounded (url0 : string) (depth0 : Z) (sh0 : Shared)
    (sched : list Move) (s : State Shared Frame) :
  exec sched (Crawl_init url0 depth0 sh0) = Some s ->
  0 <= steps_left web s /\
  Z.of_nat (length sched) + steps_left web s
    <= work web (Z.to_nat depth0) url0 + 1.
Proof.
  intros Hex. split; [apply steps_left_nonneg|].
  apply steps_left_exec in Hex. unfold steps_left at 2 in Hex.
  unfold work_task in Hex. simpl in Hex. lia.
Qed.

Lemma returns_within (n : nat) (url0 : string) (depth0 : Z)
    (s : State Shared Frame) :
  @reachable Shared Frame impl url0 depth0 Shared_init s ->
  fatal s = false ->
  steps_left web s <= Z.of_nat n ->
  exists sched s',
    prog_exec maxURLS web sched s = Some s' /\
    returned s' = true /\ fatal s' = false.
Proof.
  revert s. induction n as [|n IH]; intros s Hr Hfat Hn.
  all: destruct (returned s) eqn:Hret; [by exists [], s|].
  all: destruct (safe_move maxURLS web url0 depth0 s Hr Hret Hfat)
         as (mv & s1 & H1 & Hfat1).
  all: pose proof H1 as H1'; apply prog_run_run in H1' as [_ H1'].
  all: pose proof (steps_left_step mv s s1 H1') as Hlt.
  - pose proof (steps_left_nonneg s1). lia.
  - destruct (IH s1) as (sched & s' & Hex & Hs' & Hf').
    + by eapply reachable_step.
    + done.
    + lia.
    + exists (mv :: sched), s'. simpl. by rewrite H1.
Qed.

(** [Crawl] returns, unless writes to [f] overlap (lines 51-113, 156-217).
    Every [http.Get] is taken to return: the pages are the function [web].
    In every state of the program in which no two writes to [f] overlap:
    as long as the top-level [Crawl] has not returned, some goroutine can
    take a step; and the run can go on, without overlapping writes, until
    the top-level [Crawl] returns, within the steps that are left.  Since
    every run is finite, a run ends with the return of [Crawl] or in a
    state in which two writes to [f] overlap, where the Go runtime stops
    the program. *)
Theorem Crawl_returns (url0 : string) (depth0 : Z) (s : State Shared Frame) :
  prog_reachable maxURLS web url0 depth0 s ->
  fatal s = false ->
  (returned s = false -> exists mv, is_Some (prog_run maxURLS web mv s)) /\
  exists sched s',
    prog_exec maxURLS web sched s = Some s' /\
    returned s' = true /\ fatal s' = false /\
    Z.of_nat (length sched) <= steps_left web s.
Proof.
  intros Hp Hfat.
  pose proof (prog_reachable_reachable maxURLS web url0 depth0 s Hp) as Hr.
  split.
  - intros Hret.
    destruct (safe_move maxURLS web url0 depth0 s Hr Hret Hfat) as (mv & s1 & H1 & _).
    exists mv. by rewrite H1.
  - destruct (returns_within (Z.to_nat (steps_left web s)) url0 depth0 s Hr Hfat)
      as (sched & s' & Hex & Hs' & Hf').
    { pose proof (steps_left_nonneg s). lia. }
    exists sched, s'. do 3 (split; [done|]).
    pose proof (steps_left_exec sched s s'
                  (prog_exec_exec maxURLS web sched s s' Hex)).
    pose proof (steps_left_nonneg s'). lia.
Qed.

End CRAWL_TERMINATION.

(* ===================================================================== *)
(** * The results of a crawl *)
(* ===================================================================== *)

Section CRAWL_RESULTS.

Variable maxURLS : Z.
Variable web : string -> option (list Token).
Variables (url0 : string) (depth0 : Z).

Abbreviation impl := (fetcher_Fetcher maxURLS web).
Abbreviation run := (@run Shared Frame impl).
Abbreviation exec := (@exec Shared Frame impl).
Abbreviation reach := (@reachable Shared Frame impl url0 depth0 Shared_init).
Abbreviation init := (@Crawl_init Shared Frame url0 depth0 Shared_init).
Abbreviation rinv := (results_inv web).

(** A step of a call of [Fetch], against the page at its URL. *)
Lemma fetch_step_results (sh sh' : Shared) (fr : Frame) (out : Frame + FetchRet) :
  frame_scan web fr -> fetch_step maxURLS web sh fr = (sh', out) ->
  match out with
  | inl fr' => f sh' = f sh /\ arg_url fr' = arg_url fr /\ frame_scan web fr'
  | inr (us, Some _) =>
      (f sh' = f sh /\ web (arg_url fr) = None) \/
      exists body t us',
        web (arg_url fr) = Some body /\
        f sh' = <[arg_url fr := mkResult t us']> (f sh) /\
        us' `prefix_of` page_links body
  | inr (us, None) =>
      exists body,
        web (arg_url fr) = Some body /\ us = Some (page_links body) /\
        f sh' = <[arg_url fr := mkResult (page_title body) (page_links body)]> (f sh)
  end.
Proof.
  intros Hsc Hs. destruct out as [fr' | [us [e|]]].
  - destruct (fpc fr) eqn:Hpc.
    { unfold fetch_step in Hs. rewrite Hpc in Hs.
      destruct (web (arg_url fr)) as [body|] eqn:Hweb; simplify_eq.
      split; [done|]. split; [done|]. unfold frame_scan. simpl.
      exists body. by rewrite Hweb. }
    all: destruct (fetch_step_scan maxURLS web sh sh' fr fr')
           as (Hf' & Hu' & Hg' & Hsc'); [by rewrite Hpc | done |].
    all: split; [done|]; split; [done|].
    all: unfold frame_scan in *; rewrite Hpc in Hsc; rewrite Hu'.
    all: destruct (fpc fr') eqn:Hpc'; try done.
    all: try (destruct Hsc' as (_ & _ & ?); congruence).
    all: try (unfold fetch_step in Hs; rewrite Hpc in Hs; fetch_inv Hs; fail).
    all: try (destruct Hsc as (body & Hweb & HA & HT); exists body;
              (split; [done|]);
              first [ by destruct Hsc' as [-> ->]
                    | destruct Hsc' as (-> & _ & _); rewrite <- HA; by eexists ]).
    all: destruct Hsc as (body & Hweb & Hpre); exists body; (split; [done|]);
      by destruct Hsc' as (-> & _ & _).
  - destruct (fpc fr) eqn:Hpc; unfold fetch_step in Hs; rewrite Hpc in Hs;
      fetch_inv Hs.
    + left. done.
    + unfold frame_scan in Hsc. rewrite Hpc in Hsc.
      destruct Hsc as (body & Hweb & Hpre). right.
      by exists body, (ftitle fr), (furls fr).
  - destruct (fpc fr) eqn:Hpc; unfold fetch_step in Hs; rewrite Hpc in Hs;
      fetch_inv Hs.
    unfold frame_scan, links_ahead, title_ahead in Hsc. rewrite Hpc in Hsc.
    destruct Hsc as (body & Hweb & HA & HT). exists body. split; [done|].
    simpl in HA. rewrite app_nil_r in HA. by rewrite HA, HT.
Qed.

Lemma results_inv_init : rinv init.
Proof.
  constructor; unfold Shared_init; simpl.
  - intros [|i] t fr Hi; simplify_eq/=. done.
  - intros k r Hk. by rewrite lookup_empty in Hk.
  - intros p us Hp. by apply elem_of_nil in Hp.
  - intros [|i] t Hi; simplify_eq/=. done.
Qed.

(** Task [i] moves to [q]. *)
Lemma results_inv_retag (s s' : State Shared Frame) (i : nat)
    (t : Task Frame) (q : PC Frame) :
  rinv s ->
  tasks s !! i = Some t ->
  tasks s' = <[i := at_PC t q]> (tasks s) ->
  (after_fetch (pc t) = true -> after_fetch q = true) ->
  (forall fr, q = Fetching fr -> frame_scan web fr) ->
  (forall k r, f (fetcher s') !! k = Some r ->
     f (fetcher s) !! k = Some r \/
     (k = url t /\ after_fetch q = true /\
      exists body, web k = Some body /\ urls r `prefix_of` page_links body)) ->
  (forall p us, (p, us) ∈ links s' ->
     exists body, web p = Some body /\ us = page_links body /\
       f (fetcher s') !! p = Some (mkResult (page_title body) us)) ->
  (forall k, is_Some (f (fetcher s) !! k) -> is_Some (f (fetcher s') !! k)) ->
  (after_fetch q = true -> 0 < depth t -> is_Some (web (url t)) ->
   is_Some (f (fetcher s') !! url t)) ->
  rinv s'.
Proof.
  intros [Hframe Hkeys Hlinks Hstored] Hi Hts Hmono Hq Hk Hl Hf Hst.
  constructor; rewrite ?Hts; try done.
  - intros j tj fr Hj Hpc.
    apply list_lookup_insert_Some in Hj as [(-> & <- & _) | (Hne & Hj)]; simpl in *;
      eauto.
  - intros k r Hkr. destruct (Hk k r Hkr) as [Hold | (-> & Haf & Hbody)].
    + destruct (Hkeys k r Hold) as (Hbody & j & tj & Hj & Hu & Haf).
      split; [done|]. destruct (decide (j = i)) as [-> | Hne].
      * exists i, (at_PC t q). simplify_eq. split; [|by auto].
        apply list_lookup_insert_eq. by eapply lookup_lt_Some.
      * exists j, tj. by rewrite list_lookup_insert_ne.
    + split; [done|]. exists i, (at_PC t q). split; [|done].
      apply list_lookup_insert_eq. by eapply lookup_lt_Some.
  - intros j tj Hj Haf Hd Hw.
    apply list_lookup_insert_Some in Hj as [(-> & <- & _) | (Hne & Hj)]; simpl in *;
      eauto.
Qed.

Lemma results_inv_move (s s' : State Shared Frame) (i : nat)
    (t : Task Frame) (q : PC Frame) :
  rinv s ->
  tasks s !! i = Some t ->
  tasks s' = <[i := at_PC t q]> (tasks s) ->
  fetcher s' = fetcher s -> links s' = links s ->
  (forall fr, q <> Fetching fr) ->
  (after_fetch (pc t) = true \/ depth t <= 0 \/ after_fetch q = false) ->
  (after_fetch (pc t) = true -> after_fetch q = true) ->
  rinv s'.
Proof.
  intros Hs Hi Hts Hf Hl Hq Haf Hmono. pose proof Hs as [? ? Hlinks Hstored].
  eapply (results_inv_retag s _ i t q); [done | done | done | done |..];
    rewrite ?Hf, ?Hl; try done.
  - intros fr Hfr. by destruct (Hq fr).
  - auto.
  - intros Hq' Hd Hw. destruct Haf as [Haf | [Haf | Haf]]; [eauto | lia | congruence].
Qed.

(** A new task is added to the pool. *)
Lemma results_inv_spawn (s s' : State Shared Frame) (u : string) (d : Z) (c : chan) :
  rinv s ->
  tasks s' = tasks s ++ [mkTask u d c Start] ->
  fetcher s' = fetcher s -> links s' = links s ->
  rinv s'.
Proof.
  intros [Hframe Hkeys Hlinks Hstored] Hts Hf Hl.
  constructor; rewrite ?Hts, ?Hf, ?Hl; try done.
  - intros j tj fr Hj Hpc. apply lookup_app_Some in Hj as [Hj | [Hge Hj]]; [eauto|].
    apply list_lookup_singleton_Some in Hj as [_ <-]. done.
  - intros k r Hk. destruct (Hkeys k r Hk) as (Hbody & j & tj & Hj & Hu & Haf).
    split; [done|]. exists j, tj. split; [|done]. by apply lookup_app_l_Some.
  - intros j tj Hj Haf. apply lookup_app_Some in Hj as [Hj | [Hge Hj]]; [eauto|].
    apply list_lookup_singleton_Some in Hj as [_ <-]. done.
Qed.

(** A task inside its call of [Fetch] has no entry yet. *)
Lemma results_fresh (s : State Shared Frame) (i : nat) (t : Task Frame) (fr : Frame) :
  reach s -> rinv s -> tasks s !! i = Some t -> pc t = Fetching fr ->
  f (fetcher s) !! url t = None.
Proof.
  intros Hr Hs Hi Hpc. destruct (f (fetcher s) !! url t) as [r|] eqn:Hk; [|done].
  destruct (ri_keys _ _ Hs _ _ Hk) as (_ & j & tj & Hj & Hu & Haf).
  pose proof (dedup_tasks _ (reachable_dedup _ _ _ s Hr)) as Hnd.
  assert (j = i) as ->.
  { apply (NoDup_lookup _ j i (url t) Hnd); rewrite list_lookup_fmap.
    - by rewrite Hj; simpl; rewrite Hu.
    - by rewrite Hi. }
  simplify_eq. by rewrite Hpc in Haf.
Qed.

(** The call of task [i] returns and stores an entry. *)
Lemma results_inv_store (s s' : State Shared Frame) (i : nat) (t : Task Frame)
    (fr : Frame) (q : PC Frame) (body : list Token) (tl : string)
    (us : list string) :
  reach s -> rinv s ->
  tasks s !! i = Some t -> pc t = Fetching fr ->
  tasks s' = <[i := at_PC t q]> (tasks s) ->
  after_fetch q = true ->
  web (url t) = Some body ->
  us `prefix_of` page_links body ->
  f (fetcher s') = <[url t := mkResult tl us]> (f (fetcher s)) ->
  (forall p vs, (p, vs) ∈ links s' ->
     (p, vs) ∈ links s \/
     (p = url t /\ vs = us /\ us = page_links body /\ tl = page_title body)) ->
  rinv s'.
Proof.
  intros Hr Hs Hi Hpc Hts Hq Hweb Hpre Hf Hl.
  pose proof (results_fresh s i t fr Hr Hs Hi Hpc) as Hfresh.
  assert (Hold : forall k r, f (fetcher s) !! k = Some r ->
                             f (fetcher s') !! k = Some r).
  { intros k r Hk. rewrite Hf, lookup_insert_ne; [done|]. congruence. }
  eapply (results_inv_retag s s' i t q Hs Hi Hts); try done.
  - intros fr1 ->. done.
  - intros k r Hk. rewrite Hf in Hk.
    apply lookup_insert_Some in Hk as [[<- <-] | [Hne Hk]]; [|by left].
    right. split; [done|]. split; [done|]. by exists body.
  - intros p vs Hp. destruct (Hl p vs Hp) as [Hp' | (-> & -> & Hus & ->)].
    + destruct (ri_links _ _ Hs p vs Hp') as (b & Hb & Hvs & Hfp).
      exists b. auto.
    + exists body. split; [done|]. split; [done|].
      by rewrite Hf, lookup_insert_eq.
  - intros k [r Hk]. exists r. auto.
  - intros _ _ _. rewrite Hf, lookup_insert_eq. by eexists.
Qed.

Lemma results_inv_step (mv : Move) (s s' : State Shared Frame) :
  reach s -> rinv s -> run mv s = Some s' -> rinv s'.
Proof.
  intros Hr Hs Hrun.
  pose proof (reachable_fetcher maxURLS web url0 depth0 s Hr) as Hfi.
  run_inv Hrun.
  all: try (eapply (results_inv_move s _ _ _ _ Hs);
            [ eassumption | reflexivity | reflexivity | reflexivity | done
            | match goal with Hp : pc _ = _ |- _ => rewrite Hp end; simpl; auto
            | match goal with Hp : pc _ = _ |- _ => rewrite Hp end; simpl; auto ];
            fail).
  - (* depth exhausted *)
    eapply (results_inv_move s _ _ _ _ Hs); try done.
    right. left. by apply Z.leb_le.
  - (* the call *)
    pose proof Hs as [? ? Hlinks ?].
    eapply (results_inv_retag s _ i t _ Hs); [done | reflexivity | simpl ..];
      try done; auto.
    + by rewrite Heqp.
    + intros fr1 Hfr. simplify_eq. done.
  - (* a step inside the call *)
    simpl in Heqp0.
    destruct (fetch_step_results _ _ _ _ (ri_frame _ _ Hs i t fr Heqo Heqp) Heqp0)
      as (Hf & _ & Hsc).
    pose proof Hs as [? ? Hlinks ?].
    eapply (results_inv_retag s _ i t _ Hs); [done | reflexivity | simpl ..];
      rewrite ?Hf; try done; auto.
    + by rewrite Heqp.
    + intros fr1 Hfr. by simplify_eq.
  - (* the call returns an error *)
    simpl in Heqp0.
    destruct (fi_frame _ _ Hfi i t fr Heqo Heqp) as [Harg _].
    pose proof (fetch_step_results _ _ _ _ (ri_frame _ _ Hs i t fr Heqo Heqp) Heqp0)
      as Hres. simpl in Hres. rewrite Harg in Hres.
    destruct Hres as [[Hf Hweb] | (body & tl & us & Hweb & Hf & Hpre)].
    + pose proof Hs as [? ? Hlinks ?].
      eapply (results_inv_retag s _ i t _ Hs); [done | reflexivity | simpl ..];
        rewrite ?Hf; try done; auto.
      intros _ _ [b Hb]. congruence.
    + eapply (results_inv_store s _ i t fr Send body tl us Hr Hs);
        try done; simpl; auto.
  - (* the call returns links *)
    simpl in Heqp0.
    destruct (fi_frame _ _ Hfi i t fr Heqo Heqp) as [Harg _].
    pose proof (fetch_step_results _ _ _ _ (ri_frame _ _ Hs i t fr Heqo Heqp) Heqp0)
      as Hres. simpl in Hres. rewrite Harg in Hres.
    destruct Hres as (body & Hweb & -> & Hf).
    eapply (results_inv_store s _ i t fr _ body _ _ Hr Hs); try done; simpl.
    intros p vs Hp. apply elem_of_app in Hp as [Hp | Hp]; [by left|].
    apply list_elem_of_singleton in Hp. simplify_eq. by right.
  - (* a spawn *)
    pose (s1 := with_tasks s (<[i := at_PC t (Range l (count + 1))]> (tasks s))).
    assert (H1 : rinv s1).
    { eapply (results_inv_move s s1 i t _ Hs); try done; rewrite Heqp; auto. }
    by eapply (results_inv_spawn s1 _ _ _ _ H1).
  - (* a rendezvous *)
    pose (s1 := with_tasks s (<[i := at_PC t Returned]> (tasks s))).
    assert (H1 : rinv s1).
    { eapply (results_inv_move s s1 i t _ Hs); try done; rewrite Heqp; auto. }
    eapply (results_inv_move s1 _ owner t0 _ H1); [|reflexivity ..|done| |].
    + simpl. rewrite list_lookup_insert_ne; [done|].
      intros ->. simplify_eq. congruence.
    + rewrite Heqp0. auto.
    + done.
  - destruct Hs. by constructor.
Qed.

Lemma reachable_results (s : State Shared Frame) : reach s -> rinv s.
Proof.
  apply (reachable_ind url0 depth0 Shared_init); [apply results_inv_init|].
  intros mv s1 s2. apply results_inv_step.
Qed.

(** A step leaves the entries of [f] as they are. *)
Lemma results_step_stable (mv : Move) (s s' : State Shared Frame)
    (k : string) (r : result) :
  reach s -> run mv s = Some s' ->
  f (fetcher s) !! k = Some r -> f (fetcher s') !! k = Some r.
Proof.
  intros Hr Hrun Hk.
  pose proof (reachable_fetcher maxURLS web url0 depth0 s Hr) as Hfi.
  pose proof (reachable_results s Hr) as Hs.
  run_inv Hrun; simpl; try done.
  all: simpl in Heqp0.
  all: destruct (fi_frame _ _ Hfi i t fr Heqo Heqp) as [Harg _].
  all: pose proof (fetch_step_results _ _ _ _
                     (ri_frame _ _ Hs i t fr Heqo Heqp) Heqp0) as Hres.
  all: pose proof (results_fresh s i t fr Hr Hs Heqo Heqp) as Hfresh.
  all: simpl in Hres; rewrite Harg in Hres.
  - destruct Hres as (-> & _). done.
  - destruct Hres as [[-> _] | (body & tl & us & _ & -> & _)]; [done|].
    rewrite lookup_insert_ne; [done | congruence].
  - destruct Hres as (body & _ & _ & ->).
    rewrite lookup_insert_ne; [done | congruence].
Qed.

(** The results, as long as no two writes to [f] overlap (lines 79, 195,
    214).  In every state of the program in which no two writes to [f]
    overlap (none has, in a state of the program: it stops when two do):
    the links a call of [Fetch] returned to a task are all the links of
    the page at the URL of the task that begin with "http" and are no
    files, in the order of the page, and [f] holds them under that URL
    with the title of the page; every entry of [f] is that of a URL
    [Fetch] was called with, whose page was downloaded, and its links are
    the first of those of that page; and every later state of the program
    in which no two writes overlap has the same entry: no write to [f]
    writes an entry that is there. *)
Theorem Crawl_results (s : State Shared Frame) :
  prog_reachable maxURLS web url0 depth0 s ->
  fatal s = false ->
  (forall p us, (p, us) ∈ links s ->
     exists body, web p = Some body /\ us = page_links body /\
       f (fetcher s) !! p = Some (mkResult (page_title body) us)) /\
  (forall k r, f (fetcher s) !! k = Some r ->
     k ∈ calls s /\
     exists body, web k = Some body /\ urls r `prefix_of` page_links body) /\
  (forall sched s' k r, prog_exec maxURLS web sched s = Some s' ->
     fatal s' = false ->
     f (fetcher s) !! k = Some r -> f (fetcher s') !! k = Some r).
Proof.
  intros Hp _.
  pose proof (prog_reachable_reachable maxURLS web url0 depth0 s Hp) as Hr.
  pose proof (reachable_results s Hr) as Hs.
  pose proof (reachable_fetcher maxURLS web url0 depth0 s Hr) as Hfi.
  split; [exact (ri_links _ _ Hs)|]. split.
  - intros k r Hk. split; [by apply (fi_keys _ _ Hfi k r)|].
    by destruct (ri_keys _ _ Hs k r Hk).
  - intros sched s' k r Hex _. apply prog_exec_exec in Hex. revert s' k r Hex.
    induction sched as [|mv sched IH] using rev_ind; intros s' k r Hex Hk.
    + simpl in Hex. by simplify_eq.
    + rewrite exec_app in Hex.
      destruct (exec sched s) as [s1|] eqn:H1; [|done]. simpl in Hex.
      destruct (run mv s1) as [s2|] eqn:H2; [|done]. simplify_eq.
      apply (results_step_stable mv s1 s' k r); [|done|by eapply IH].
      by apply (reachable_exec url0 depth0 Shared_init sched s s1).
Qed.

(** The pages crawled (lines 79-86, 214; the count [len(f)] of line 143).
    When the program has reached the return of the top-level [Crawl], so
    that no two writes to [f] have overlapped on the way, none is going
    on, and [f] has an entry for exactly the URLs [Fetch] was called with
    whose page could be downloaded, so the number of entries is the
    number of those URLs. *)
Theorem Crawl_websites (s : State Shared Frame) :
  prog_reachable maxURLS web url0 depth0 s -> returned s = true ->
  writers s = 0 /\
  (forall u, is_Some (f (fetcher s) !! u) <-> u ∈ calls s /\ is_Some (web u)) /\
  size (f (fetcher s)) = length (filter (fun u => is_Some (web u)) (calls s)).
Proof.
  intros Hp Hret.
  pose proof (prog_reachable_reachable maxURLS web url0 depth0 s Hp) as Hr.
  split.
  { apply count_if_none. intros i t Hi. unfold in_write.
    by rewrite (returned_all _ _ _ s Hr Hret i t Hi). }
  pose proof (reachable_results s Hr) as Hs.
  pose proof (reachable_fetcher maxURLS web url0 depth0 s Hr) as Hfi.
  pose proof (reachable_dedup _ _ _ s Hr) as Hd.
  pose proof (reachable_depth _ _ _ s Hr) as Hdp.
  assert (Hiff : forall u, is_Some (f (fetcher s) !! u)
                           <-> u ∈ calls s /\ is_Some (web u)).
  { intros u. split.
    - intros [r Hk]. split; [by apply (fi_keys _ _ Hfi u r)|].
      destruct (ri_keys _ _ Hs u r Hk) as [(body & -> & _) _]. by eexists.
    - intros [Hu Hw]. destruct (depth_calls _ _ _ Hdp u Hu) as (i & t & Hi & <- & Hpos).
      apply (ri_stored _ _ Hs i t Hi); try done.
      by rewrite (returned_all _ _ _ s Hr Hret i t Hi). }
  split; [done|].
  rewrite <- size_dom.
  assert (Hdom : dom (f (fetcher s))
                 = list_to_set (filter (fun u => is_Some (web u)) (calls s))).
  { apply set_eq. intros u.
    rewrite elem_of_dom, elem_of_list_to_set, list_elem_of_filter, Hiff. tauto. }
  rewrite Hdom, size_list_to_set; [done|].
  apply NoDup_filter, (dedup_calls _ Hd).
Qed.

End CRAWL_RESULTS.

(* ===================================================================== *)
(** * Links: [getHref], [isFile] and the test of line 193 *)
(* ===================================================================== *)

Lemma getHref_loop_last (attrs : list (string * string)) (ok : bool) (href : string) :
  ((forall k v, (k, v) ∈ attrs -> k <> "href"%string) /\
   getHref_loop attrs ok href = (ok, href)) \/
  (exists pre v post,
     attrs = pre ++ ("href"%string, v) :: post /\
     (forall k v', (k, v') ∈ post -> k <> "href"%string) /\
     getHref_loop attrs ok href = (true, v)).
Proof.
  revert ok href. induction attrs as [|[k0 v0] attrs IH]; intros ok href; simpl.
  - left. split; [|done]. intros k v Hin. by apply elem_of_nil in Hin.
  - destruct (String.eqb k0 "href") eqn:Hk.
    + apply String.eqb_eq in Hk as ->.
      destruct (IH true v0) as [[Hno Hrun] | (pre & v & post & -> & Hno & Hrun)].
      * right. exists [], v0, attrs. done.
      * right. exists (("href"%string, v0) :: pre), v, post. done.
    + apply String.eqb_neq in Hk.
      destruct (IH ok href) as [[Hno Hrun] | (pre & v & post & -> & Hno & Hrun)].
      * left. split; [|done]. intros k v Hin.
        apply elem_of_cons in Hin as [Heq | Hin]; [by simplify_eq | eauto].
      * right. exists ((k0, v0) :: pre), v, post. done.
Qed.

(** [getHref] (lines 221-230).  When the tag has an attribute [href],
    [getHref] returns [true] with the value of the last one; when it has
    none, it returns [false] with the empty string. *)
Theorem getHref_last_href (Attr : list (string * string)) :
  ((forall k v, (k, v) ∈ Attr -> k <> "href"%string) /\
   getHref Attr = (false, EmptyString)) \/
  (exists pre v post,
     Attr = pre ++ ("href"%string, v) :: post /\
     (forall k v', (k, v') ∈ post -> k <> "href"%string) /\
     getHref Attr = (true, v)).
Proof. apply getHref_loop_last. Qed.

Lemma substring_split (n : nat) (s : string) :
  (n <= String.length s)%nat ->
  s = String.substring 0 n s +:+ String.substring n (String.length s - n) s.
Proof.
  revert n. induction s as [|c s IH]; intros [|n] Hn; simpl in *; try lia.
  - done.
  - by rewrite substring_all.
  - change (String c s
            = String c (String.substring 0 n s
                        +:+ String.substring n (String.length s - n) s)).
    f_equal. apply IH. lia.
Qed.

Lemma HasSuffix_inv (s suffix : string) :
  HasSuffix s suffix = true -> exists p, s = p +:+ suffix.
Proof.
  unfold HasSuffix. intros H. apply andb_true_iff in H as [Hlen Heq].
  apply Nat.leb_le in Hlen. apply String.eqb_eq in Heq.
  exists (String.substring 0 (String.length s - String.length suffix) s).
  pose proof (substring_split (String.length s - String.length suffix) s
                ltac:(lia)) as Hsp.
  replace (String.length s - (String.length s - String.length suffix))%nat
    with (String.length suffix) in Hsp by lia.
  by rewrite Heq in Hsp.
Qed.

Lemma append_cons (c : Ascii.ascii) (p s : string) :
  String c p +:+ s = String c (p +:+ s).
Proof. reflexivity. Qed.

Lemma prefix_append (p s : string) :
  String.prefix p s = true <-> exists rest, s = p +:+ rest.
Proof.
  revert s. induction p as [|c p IH]; intros s.
  - destruct s; simpl; (split; [by eexists | done]).
  - destruct s as [|c' s]; simpl; [split; [done | by intros [rest ?]]|].
    destruct (Ascii.ascii_dec c c') as [-> | Hne].
    + rewrite IH. split; intros [rest Hr]; exists rest;
        rewrite append_cons in *; by simplify_eq.
    + split; [done|]. intros [rest Hr]. rewrite append_cons in Hr. by simplify_eq.
Qed.

(** [isFile] (lines 232-243) and the test of line 193.  [isFile] holds of
    the URLs that end in one of its eighteen suffixes and of no others;
    a link passes the test of line 193 exactly when it begins with
    "http".  So the links [Fetch] accepts are those that begin with "http"
    and end in none of the suffixes. *)
Theorem isFile_ends_in_suffix (u : string) :
  (isFile u = true <-> file_suffixed u) /\
  (Index u "http" = 0 <-> exists rest, u = ("http" +:+ rest)%string) /\
  (accepted u <->
   (exists rest, u = ("http" +:+ rest)%string) /\ ~ file_suffixed u).
Proof.
  assert (Hfile : isFile u = true <-> file_suffixed u).
  { split.
    - unfold isFile. intros H. apply existsb_exists in H as (file & Hin & Hsuf).
      apply HasSuffix_inv in Hsuf as [p ->]. exists p, file.
      split; [by apply list_elem_of_In | done].
    - intros (p & file & Hin & ->). by apply isFile_suffix. }
  assert (Hhttp : Index u "http" = 0 <-> exists rest, u = ("http" +:+ rest)%string).
  { by rewrite Index_zero_prefix, prefix_append. }
  split; [done|]. split; [done|].
  unfold accepted. rewrite Hhttp, <- Hfile.
  destruct (isFile u); split; intros [? ?]; split; done.
Qed.

(* ===================================================================== *)
(** * The further properties on the sample runs *)
(* ===================================================================== *)

Lemma Crawl_map_exclusive_witness :
  reach_A three 10 2 three_at_get /\
  mapAccess three_at_get = false /\
  (forall i j ti tj,
     tasks three_at_get !! i = Some ti -> tasks three_at_get !! j = Some tj ->
     holds_map ti = true -> holds_map tj = true -> i = j).
Proof.
  assert (Hr : reach_A three 10 2 three_at_get)
    by (exists (replicate 18 (ByTask 0) ++ [ByTask 1]); vm_compute; reflexivity).
  split; [exact Hr|]. split; [reflexivity|].
  apply (@Crawl_map_exclusive _ _ (fetcher_Fetcher 10 three) _ _ _ three_at_get Hr).
Defined.

Lemma Crawl_history_witness :
  reach_A site 10 2 site_final /\
  size (history site_final) = length (tasks site_final).
Proof.
  assert (Hr : reach_A site 10 2 site_final)
    by (exists site_run; vm_compute; reflexivity).
  split; [exact Hr|].
  apply (@Crawl_history _ _ (fetcher_Fetcher 10 site) _ _ _ site_final Hr).
Defined.

Lemma Crawl_progress_witness :
  reach_A three 10 2 three_at_get /\
  returned three_at_get = false /\
  exists mv, is_Some (@run _ _ (fetcher_Fetcher 10 three) mv three_at_get).
Proof.
  assert (Hr : reach_A three 10 2 three_at_get)
    by (exists (replicate 18 (ByTask 0) ++ [ByTask 1]); vm_compute; reflexivity).
  split; [exact Hr|]. split; [reflexivity|].
  apply (@Crawl_progress _ _ (fetcher_Fetcher 10 three) _ _ _ three_at_get Hr).
  reflexivity.
Defined.

Lemma Crawl_returned_is_final_witness :
  reach_A site 10 2 site_final /\
  returned site_final = true /\
  (forall mv, @run _ _ (fetcher_Fetcher 10 site) mv site_final = None) /\
  mapAccess site_final = true /\
  done_buf site_final = [].
Proof.
  assert (Hr : reach_A site 10 2 site_final)
    by (exists site_run; vm_compute; reflexivity).
  split; [exact Hr|]. split; [reflexivity|].
  apply (@Crawl_returned_is_final _ _ (fetcher_Fetcher 10 site) _ _ _ site_final Hr).
  reflexivity.
Defined.

Lemma Crawl_depth_zero_witness :
  0 <= 0 /\
  reach_A site 10 0 zero_sent /\
  calls zero_sent = [] /\ links zero_sent = [] /\
  fetcher zero_sent = Shared_init /\
  history zero_sent = {[ "http://A"%string := true ]}.
Proof.
  assert (Hr : reach_A site 10 0 zero_sent)
    by (exists [ByTask 0]; vm_compute; reflexivity).
  split; [lia|]. split; [exact Hr|].
  destruct (@Crawl_depth_zero _ _ (fetcher_Fetcher 10 site) "http://A" 0
              Shared_init zero_sent ltac:(lia) Hr) as (Hc & Hl & Hf & Hh & _).
  exact (conj Hc (conj Hl (conj Hf Hh))).
Defined.

Lemma Crawl_children_from_links_witness :
  reach_A site 10 2 site_final /\
  exists t,
    tasks site_final !! 1%nat = Some t /\ done t = doneHere 0 /\
    exists tp us,
      tasks site_final !! 0%nat = Some tp /\ (url tp, us) ∈ links site_final /\
      url t ∈ us /\ depth t = depth tp - 1.
Proof.
  assert (Hr : reach_A site 10 2 site_final)
    by (exists site_run; vm_compute; reflexivity).
  split; [exact Hr|]. eexists. split; [reflexivity|]. split; [reflexivity|].
  apply (@Crawl_children_from_links _ _ (fetcher_Fetcher 10 site) _ _ _
           site_final 1%nat 0%nat _ Hr); reflexivity.
Defined.

Lemma Crawl_visits_all_witness :
  reach_A site 10 2 site_final /\
  returned site_final = true /\
  (forall i t, tasks site_final !! i = Some t -> 0 < depth t ->
     url t ∈ calls site_final).
Proof.
  assert (Hr : reach_A site 10 2 site_final)
    by (exists site_run; vm_compute; reflexivity).
  split; [exact Hr|]. split; [reflexivity|].
  apply (@Crawl_visits_all _ _ (fetcher_Fetcher 10 site) _ _ _ site_final Hr).
  reflexivity.
Defined.


Lemma Fetch_below_cap_witness :
  exists body,
    site "http://A" = Some body /\
    - 2 ^ 63 <= countCrawled Shared_init /\
    countCrawled Shared_init + Z.of_nat (length (page_links body)) <= 10 /\
    10 < 2 ^ 63 /\
    Fetch 10 site (fetch_fuel site (fetch_begin "http://A")) Shared_init "http://A"
    = Some (mkShared
              (countCrawled Shared_init + Z.of_nat (length (page_links body)))
              (<[ "http://A"%string := mkResult (page_title body) (page_links body) ]>
                 (f Shared_init))
              (stdout Shared_init
               ++ replicate (length (page_scan body EmptyString).2) "."%string),
            (Some (page_links body), None)).
Proof.
  eexists. split; [reflexivity|].
  assert (H1 : - 2 ^ 63 <= countCrawled Shared_init) by (vm_compute; congruence).
  assert (H3 : 10 < 2 ^ 63) by reflexivity.
  split; [exact H1|]. split; [vm_compute; congruence|]. split; [exact H3|].
  apply (Fetch_below_cap 10 site Shared_init "http://A");
    [reflexivity | exact H1 | vm_compute; congruence | exact H3].
Defined.

Lemma Crawl_steps_bounded_witness :
  @exec _ _ (fetcher_Fetcher 10 site) site_run (start_A 2) = Some site_final /\
  0 <= steps_left site site_final /\
  Z.of_nat (length site_run) + steps_left site site_final
    <= work site (Z.to_nat 2) "http://A" + 1.
Proof.
  assert (Hex : @exec _ _ (fetcher_Fetcher 10 site) site_run (start_A 2)
                = Some site_final) by (vm_compute; reflexivity).
  split; [exact Hex|].
  apply (Crawl_steps_bounded 10 site "http://A" 2 Shared_init site_run site_final Hex).
Defined.

Lemma Crawl_returns_witness :
  prog_reachable 10 three "http://A" 2 three_at_get /\
  fatal three_at_get = false /\
  exists sched s',
    prog_exec 10 three sched three_at_get = Some s' /\
    returned s' = true /\ fatal s' = false /\
    Z.of_nat (length sched) <= steps_left three three_at_get.
Proof.
  assert (Hp : prog_reachable 10 three "http://A" 2 three_at_get)
    by (exists (replicate 18 (ByTask 0) ++ [ByTask 1]); vm_compute; reflexivity).
  split; [exact Hp|]. split; [reflexivity|].
  apply (Crawl_returns 10 three "http://A" 2 three_at_get Hp). reflexivity.
Defined.

Lemma Crawl_results_witness :
  prog_reachable 10 site "http://A" 2 site_final /\
  fatal site_final = false /\
  (forall p us, (p, us) ∈ links site_final ->
     exists body, site p = Some body /\ us = page_links body /\
       f (fetcher site_final) !! p = Some (mkResult (page_title body) us)).
Proof.
  assert (Hp : prog_reachable 10 site "http://A" 2 site_final)
    by (exists site_run; vm_compute; reflexivity).
  split; [exact Hp|]. split; [reflexivity|].
  apply (Crawl_results 10 site "http://A" 2 site_final Hp). reflexivity.
Defined.

Lemma Crawl_websites_witness :
  prog_reachable 10 site "http://A" 2 site_final /\
  returned site_final = true /\
  size (f (fetcher site_final))
  = length (filter (fun u => is_Some (site u)) (calls site_final)).
Proof.
  assert (Hp : prog_reachable 10 site "http://A" 2 site_final)
    by (exists site_run; vm_compute; reflexivity).
  split; [exact Hp|]. split; [reflexivity|].
  apply (Crawl_websites 10 site "http://A" 2 site_final Hp). reflexivity.
Defined.

(* ===================================================================== *)
(** * The links of a page, token by token *)
(* ===================================================================== *)

(** Every link the loop collects is the [href] of an [a] tag of the page. *)
Lemma page_scan_sound (n : nat) (toks : list Token) (t u : string) :
  (length toks <= n)%nat ->
  u ∈ (page_scan toks t).2 ->
  exists Attr,
    StartTagToken "a" Attr ∈ toks /\ getHref Attr = (true, u) /\
    Index u "http" = 0.
Proof.
  revert toks t. induction n as [|n IH]; intros toks t Hn Hu.
  { destruct toks; simpl in *; [by apply elem_of_nil in Hu | lia]. }
  destruct toks as [|tok rest]; simpl in *; [by apply elem_of_nil in Hu|].
  assert (Hrest : forall t', u ∈ (page_scan rest t').2 ->
            exists Attr, StartTagToken "a" Attr ∈ tok :: rest /\
              getHref Attr = (true, u) /\ Index u "http" = 0).
  { intros t' H'. destruct (IH rest t') as (Attr & Hin & Hg); [lia | done |].
    exists Attr. split; [by apply list_elem_of_further | done]. }
  destruct tok as [Data Attr | text |]; [|by eauto ..].
  destruct (String.eqb Data "a") eqn:Ha.
  - apply String.eqb_eq in Ha as ->.
    destruct (getHref Attr) as [ok v] eqn:Hg. destruct ok; simpl in Hu; [|by eauto].
    destruct (Index v "http" =? 0) eqn:Hi; [|by eauto].
    destruct (page_scan rest t) as [t' us] eqn:Hsc. simpl in Hu.
    apply elem_of_cons in Hu as [-> | Hu].
    + exists Attr. split; [apply list_elem_of_here|]. split; [done|].
      by apply Z.eqb_eq.
    + apply (Hrest t). by rewrite Hsc.
  - destruct (String.eqb Data "title") eqn:Ht; [|by eauto].
    destruct rest as [|tok' rest']; [by apply elem_of_nil in Hu|].
    assert (Hrest' : forall t', u ∈ (page_scan rest' t').2 ->
              exists Attr0, StartTagToken "a" Attr0 ∈
                              StartTagToken Data Attr :: tok' :: rest' /\
                getHref Attr0 = (true, u) /\ Index u "http" = 0).
    { intros t' H'. destruct (IH rest' t') as (Attr0 & Hin & Hg);
        [simpl in Hn; lia | done |].
      exists Attr0. split; [by do 2 apply list_elem_of_further | done]. }
    destruct tok'; eauto.
Qed.

(** The loop collects the [href] of every [a] tag that does not come
    right after a [title] tag, when it begins with "http". *)
Lemma page_scan_complete (n : nat) (toks : list Token) (t : string)
    (i : nat) (Attr : list (string * string)) (u : string) :
  (length toks <= n)%nat ->
  toks !! i = Some (StartTagToken "a" Attr) ->
  getHref Attr = (true, u) ->
  Index u "http" = 0 ->
  (forall j A', i = S j -> toks !! j <> Some (StartTagToken "title" A')) ->
  u ∈ (page_scan toks t).2.
Proof.
  intros Hn Hi Hg Hh. revert toks t i Hn Hi.
  induction n as [|n IH]; intros toks t i Hn Hi Hprev.
  { destruct toks; simpl in *; [done | lia]. }
  destruct toks as [|tok rest]; [done|].
  assert (Hrest : forall t' k, i = S k ->
            (forall A', tok <> StartTagToken "title" A') \/ (0 < k)%nat ->
            u ∈ (page_scan rest t').2).
  { intros t' k -> Hk. apply (IH rest t' k); [simpl in Hn; lia | done |].
    intros j A' -> Hj. by apply (Hprev (S j) A'). }
  destruct i as [|k].
  - simpl in Hi. simplify_eq. simpl. rewrite Hg. simpl.
    apply Z.eqb_eq in Hh. rewrite Hh.
    destruct (page_scan rest t). simpl. apply list_elem_of_here.
  - simpl in Hi. simpl.
    destruct tok as [Data A0 | text |]; [|by eauto ..].
    destruct (String.eqb Data "a") eqn:Ha.
    + apply String.eqb_eq in Ha as ->.
      assert (Hin : forall t', u ∈ (page_scan rest t').2) by (intros; eauto).
      destruct (getHref A0) as [ok v]. destruct ok; simpl; [|by apply Hin].
      destruct (Index v "http" =? 0); [|by apply Hin].
      specialize (Hin t). destruct (page_scan rest t). simpl in *.
      by apply list_elem_of_further.
    + destruct (String.eqb Data "title") eqn:Ht.
      * apply String.eqb_eq in Ht as ->.
        destruct k as [|k]; [by destruct (Hprev 0%nat A0 eq_refl)|].
        destruct rest as [|tok' rest']; [done|]. simpl in Hi.
        assert (Hin : forall t', u ∈ (page_scan rest' t').2).
        { intros t'. apply (IH rest' t' k); [simpl in Hn; lia | done |].
          intros j A' -> Hj. by apply (Hprev (S (S j)) A'). }
        destruct tok'; apply Hin.
      * apply (Hrest t k eq_refl). left. intros A' HA. simplify_eq.
Qed.

(** The links the crawler follows (lines 79, 183-204).  The links a call
    of [Fetch] returned to a task are links of the page at the URL of the
    task: each is the [href] of an [a] tag of that page, begins with "http"
    and is no file.  Conversely the call returned the [href] of every [a]
    tag of the page that begins with "http" and is no file, unless the tag
    comes right after a [title] tag: the loop reads the token after a
    [title] tag as the title and does not look at it again. *)
Theorem Crawl_follows_page_links (maxURLS : Z)
    (web : string -> option (list Token)) (url0 : string) (depth0 : Z)
    (s : State Shared Frame) (p : string) (us : list string) :
  @reachable Shared Frame (fetcher_Fetcher maxURLS web) url0 depth0 Shared_init s ->
  (p, us) ∈ links s ->
  exists body,
    web p = Some body /\
    (forall u, u ∈ us ->
       exists Attr, StartTagToken "a" Attr ∈ body /\
         getHref Attr = (true, u) /\ accepted u) /\
    (forall i Attr u,
       body !! i = Some (StartTagToken "a" Attr) ->
       getHref Attr = (true, u) -> accepted u ->
       (forall j A', i = S j -> body !! j <> Some (StartTagToken "title" A')) ->
       u ∈ us).
Proof.
  intros Hr Hp.
  destruct (ri_links _ _ (reachable_results maxURLS web url0 depth0 s Hr) p us Hp)
    as (body & Hweb & -> & _).
  exists body. split; [done|]. unfold page_links, accepted, not_file. split.
  - intros u Hu. apply list_elem_of_filter in Hu as [Hnf Hu].
    destruct (page_scan_sound (length body) body EmptyString u) as (Attr & Hin & Hg & Hh);
      [lia | done |].
    exists Attr. split; [done|]. split; [done|]. split; [done|].
    by destruct (isFile u).
  - intros i Attr u Hi Hg [Hh Hf] Hprev. apply list_elem_of_filter. split.
    + by rewrite Hf.
    + by apply (page_scan_complete (length body) body EmptyString i Attr u).
Qed.

Lemma Crawl_follows_page_links_witness :
  reach_A site 10 2 site_final /\
  ("http://A"%string, ["http://B"; "http://C"]%string) ∈ links site_final /\
  exists body,
    site "http://A" = Some body /\
    (forall u, u ∈ ["http://B"; "http://C"]%string ->
       exists Attr, StartTagToken "a" Attr ∈ body /\
         getHref Attr = (true, u) /\ accepted u) /\
    (forall i Attr u,
       body !! i = Some (StartTagToken "a" Attr) ->
       getHref Attr = (true, u) -> accepted u ->
       (forall j A', i = S j -> body !! j <> Some (StartTagToken "title" A')) ->
       u ∈ ["http://B"; "http://C"]%string).
Proof.
  assert (Hr : reach_A site 10 2 site_final)
    by (exists site_run; vm_compute; reflexivity).
  assert (Hin : ("http://A"%string, ["http://B"; "http://C"]%string)
                ∈ links site_final) by (vm_compute; apply list_elem_of_here).
  split; [exact Hr|]. split; [exact Hin|].
  apply (Crawl_follows_page_links 10 site "http://A" 2 site_final _ _ Hr Hin).
Defined.
